(** * A shallow embedding of [vector.h]: [RawMemory<T>] and [Vector<T>]

    The two class templates of [vector.h] are modelled over an explicit
    machine state: a heap of raw blocks whose slots are either
    uninitialized or hold a live object, a store of [Vector] objects
    indexed by their address (so that [this != &rhs] can be decided), an
    oracle for [operator new], and a log of every allocation and every
    element operation.  Operations live in a small state monad with C++
    exceptions and undefined behaviour as separate outcomes. *)

From stdpp Require Import base numbers option list gmap fin_maps.

Set Default Proof Using "Type".
Open Scope Z_scope.

(** ** Machine integers *)

(** [size_t] is taken to be 64 bits wide; arithmetic on it wraps. *)
Definition SIZE_BITS : Z := 64.
Definition SIZE_MOD : Z := 2 ^ SIZE_BITS.
Definition wrap (z : Z) : Z := z mod SIZE_MOD.

(** ** Element types *)

(** The special member functions of [T] that the container calls. *)
Inductive elem_op := DefaultCtor | CopyCtor | MoveCtor | CopyAssign | MoveAssign.

(** What the templates need to know about [T]: its size, the value that
    value-initialization [T()] produces, the state a move leaves its
    source in, which operations throw on which values, the two type
    traits that select the relocation strategy, and whether the
    destructor is trivial (a destructor is taken not to throw). *)
Class Element (T : Type) := {
  sizeof : Z;
  sizeof_pos : 0 < sizeof;
  value_init : T;
  moved_from : T → T;
  throws : elem_op → T → bool;
  is_nothrow_move_constructible : bool;
  is_copy_constructible : bool;
  is_trivially_destructible : bool;
}.

(** [int]: four bytes, trivially copyable, nothing throws. *)
#[global] Instance int_element : Element Z := {|
  sizeof := 4;
  sizeof_pos := eq_refl;
  value_init := 0;
  moved_from := λ v, v;
  throws := λ _ _, false;
  is_nothrow_move_constructible := true;
  is_copy_constructible := true;
  is_trivially_destructible := true;
|}.

(** ** Memory, objects and outcomes *)

Definition loc := nat.   (* identity of a block returned by operator new *)
Definition addr := nat.  (* address of a Vector object *)

(** A [T*]: the block it points into ([None] for [nullptr]) and the
    element offset inside that block. *)
Definition ptr : Type := option loc * Z.
Definition ptr_add (p : ptr) (k : Z) : ptr := (p.1, p.2 + k).
Definition nullptr : option loc := None.

Inductive exn := bad_alloc | elem_exn (op : elem_op).

Section Model.
Context {T : Type} `{Element T}.

(** A slot of raw storage: uninitialized memory or a live [T]. *)
Inductive slot := Raw | Obj (v : T).

Inductive event :=
| EvAlloc (b : loc) (n : Z)        (* operator new returned block b with n slots *)
| EvFree (b : loc)                 (* operator delete released block b *)
| EvOp (op : elem_op) (v : T)      (* a constructor or assignment produced value v *)
| EvDtor (v : T)                   (* the destructor ran on an object of value v *)
| EvLost (v : T).                  (* a live object was overwritten by placement new *)

(** [RawMemory<T>]: lines 89-90. *)
Record RawMemory := { buffer_ : option loc; capacity_ : Z }.

(** [Vector<T>]: lines 343-344. *)
Record Vector := { data_ : RawMemory; size_ : Z }.

Record state := mkState {
  heap : gmap loc (list slot);   (* blocks currently allocated *)
  vecs : gmap addr Vector;       (* Vector objects currently alive *)
  oom : list bool;               (* future of operator new: true = throws *)
  log : list event;              (* history, oldest first *)
}.

Definition with_heap (h : gmap loc (list slot)) (s : state) : state :=
  {| heap := h; vecs := vecs s; oom := oom s; log := log s |}.
Definition with_vecs (m : gmap addr Vector) (s : state) : state :=
  {| heap := heap s; vecs := m; oom := oom s; log := log s |}.
Definition with_oom (o : list bool) (s : state) : state :=
  {| heap := heap s; vecs := vecs s; oom := o; log := log s |}.
Definition with_log (l : list event) (s : state) : state :=
  {| heap := heap s; vecs := vecs s; oom := oom s; log := l |}.

(** The three ways a call can end: it returns, it throws, or the
    behaviour is undefined (failed assertion, access outside a block,
    use of an uninitialized slot, release of a block not held). *)
Inductive outcome (A : Type) :=
| Ret (a : A) (s : state)
| Throw (e : exn) (s : state)
| UB.
Arguments Ret {A} a s.
Arguments Throw {A} e s.
Arguments UB {A}.

Definition M (A : Type) : Type := state → outcome A.

Definition ret {A} (a : A) : M A := λ s, Ret a s.
Definition bind {A B} (m : M A) (k : A → M B) : M B := λ s,
  match m s with
  | Ret a s' => k a s'
  | Throw e s' => Throw e s'
  | UB => UB
  end.
Definition throw {A} (e : exn) : M A := λ s, Throw e s.
Definition undefined {A} : M A := λ _, UB.

(** Stack unwinding: when [body] throws, [cleanup] (the destructors of
    the locals in scope) runs and the exception continues. *)
Definition unwind {A} (cleanup : M unit) (body : M A) : M A := λ s,
  match body s with
  | Throw e s' =>
      match cleanup s' with
      | Ret _ s'' => Throw e s''
      | Throw e' s'' => Throw e' s''
      | UB => UB
      end
  | r => r
  end.

Definition assert_ (b : bool) : M unit := if b then ret tt else undefined.
Definition emit (e : event) : M unit := λ s, Ret tt (with_log (log s ++ [e]) s).

End Model.

Arguments slot T : clear implicits.
Arguments event T : clear implicits.
Arguments state T : clear implicits.
Arguments outcome T A : clear implicits.
Arguments M T A : clear implicits.
Arguments Ret {T A} a s.
Arguments Throw {T A} e s.
Arguments UB {T A}.
Arguments Raw {T}.

Declare Scope cpp_scope.
Delimit Scope cpp_scope with cpp.
Notation "x <- m ;; k" := (bind m (λ x, k))
  (at level 100, m at next level, right associativity,
   format "x  <-  m  ;;  '//' k") : cpp_scope.
Notation "m ;;; k" := (bind m (λ _, k))
  (at level 100, right associativity, format "m  ;;;  '//' k") : cpp_scope.
Open Scope cpp_scope.

(** ** The allocator and the slots of a block *)

Section Memory.
Context {T : Type} `{Element T}.

(** [operator new(bytes)]: consults the oracle; on success hands out a
    block not currently allocated, holding as many uninitialized slots
    as fit in [bytes]. *)
Definition operator_new (bytes : Z) : M T loc := λ s,
  match oom s with
  | true :: rest => Throw bad_alloc (with_oom rest s)
  | _ =>
      let b := fresh (dom (heap s)) in
      let n := bytes / sizeof in
      Ret b {| heap := <[b := replicate (Z.to_nat n) Raw]> (heap s);
               vecs := vecs s;
               oom := tail (oom s);
               log := log s ++ [EvAlloc b n] |}
  end.

(** [operator delete(buf)]: a no-op on [nullptr]; releasing a block that
    is not allocated is undefined. *)
Definition operator_delete (buf : option loc) : M T unit := λ s,
  match buf with
  | None => Ret tt s
  | Some b =>
      match heap s !! b with
      | Some _ => Ret tt (with_log (log s ++ [EvFree b]) (with_heap (delete b (heap s)) s))
      | None => UB
      end
  end.

(** [RawMemory::Allocate], line 80. *)
Definition Allocate (n : Z) : M T (option loc) :=
  if negb (n =? 0) then b <- operator_new (wrap (n * sizeof)) ;; ret (Some b)
  else ret nullptr.

(** [RawMemory::Deallocate], line 85. *)
Definition Deallocate (buf : option loc) : M T unit := operator_delete buf.

(** [RawMemory(size_t capacity)], lines 13-16. *)
Definition RawMemory_new (capacity : Z) : M T RawMemory :=
  buf <- Allocate capacity ;;
  ret {| buffer_ := buf; capacity_ := capacity |}.

(** [~RawMemory()], lines 38-40. *)
Definition RawMemory_delete (m : RawMemory) : M T unit := Deallocate (buffer_ m).

(** [RawMemory(RawMemory&& other)], lines 22-26: the new object and
    what is left in [other]. *)
Definition RawMemory_move (other : RawMemory) : RawMemory * RawMemory :=
  ({| buffer_ := buffer_ other; capacity_ := capacity_ other |},
   {| buffer_ := nullptr; capacity_ := 0 |}).

(** Reading and writing the slot a pointer designates. *)
Definition load (p : ptr) : M T (slot T) := λ s,
  match p.1 with
  | Some b =>
      match heap s !! b with
      | Some blk =>
          if 0 <=? p.2 then
            match blk !! Z.to_nat p.2 with
            | Some x => Ret x s
            | None => UB
            end
          else UB
      | None => UB
      end
  | None => UB
  end.

Definition store (p : ptr) (x : slot T) : M T unit := λ s,
  match p.1 with
  | Some b =>
      match heap s !! b with
      | Some blk =>
          if (0 <=? p.2) && (p.2 <? Z.of_nat (length blk)) then
            Ret tt (with_heap (<[b := <[Z.to_nat p.2 := x]> blk]> (heap s)) s)
          else UB
      | None => UB
      end
  | None => UB
  end.

(** The object at [p]; there must be one. *)
Definition read (p : ptr) : M T T :=
  x <- load p ;;
  match x with Obj v => ret v | Raw => undefined end.

(** ** Operations on single elements *)

(** Placement new [new (p) T(...)], where the constructor [op] would
    produce the value [v].  Storage that still holds a live object is
    reused without running its destructor. *)
Definition construct_at (p : ptr) (op : elem_op) (v : T) : M T unit :=
  if throws op v then throw (elem_exn op)
  else
    old <- load p ;;
    match old with Obj w => emit (EvLost w) | Raw => ret tt end ;;;
    store p (Obj v) ;;;
    emit (EvOp op v).

(** Copy construction at [dst] from the object at [src]. *)
Definition copy_construct (src dst : ptr) : M T unit :=
  v <- read src ;;
  construct_at dst CopyCtor v.

(** Move construction at [dst] from the object at [src]. *)
Definition move_construct (src dst : ptr) : M T unit :=
  v <- read src ;;
  if throws MoveCtor v then throw (elem_exn MoveCtor)
  else
    store src (Obj (moved_from v)) ;;;
    construct_at dst MoveCtor v.

(** Assignment to the object at [dst] from an object outside the heap. *)
Definition assign_at (dst : ptr) (op : elem_op) (v : T) : M T unit :=
  _ <- read dst ;;
  if throws op v then throw (elem_exn op)
  else
    store dst (Obj v) ;;;
    emit (EvOp op v).

(** Copy assignment of the object at [src] to the object at [dst]. *)
Definition copy_assign_elem (src dst : ptr) : M T unit :=
  v <- read src ;;
  assign_at dst CopyAssign v.

(** Move assignment of the object at [src] to the object at [dst]. *)
Definition move_assign_elem (src dst : ptr) : M T unit :=
  v <- read src ;;
  _ <- read dst ;;
  if throws MoveAssign v then throw (elem_exn MoveAssign)
  else
    store src (Obj (moved_from v)) ;;;
    store dst (Obj v) ;;;
    emit (EvOp MoveAssign v).

(** [std::destroy_at(p)]: ends the life of the object at [p].  On a slot
    that holds no object a trivial destructor does nothing; running any
    other destructor there is undefined. *)
Definition destroy_at (p : ptr) : M T unit :=
  x <- load p ;;
  match x with
  | Obj v => store p Raw ;;; emit (EvDtor v)
  | Raw => if is_trivially_destructible then ret tt else undefined
  end.

(** ** The standard algorithms the container calls *)

(** [std::destroy_n(first, n)]. *)
Fixpoint destroy_loop (first : ptr) (n : nat) : M T unit :=
  match n with
  | O => ret tt
  | S n' => destroy_at first ;;; destroy_loop (ptr_add first 1) n'
  end.
Definition destroy_n (first : ptr) (n : Z) : M T unit := destroy_loop first (Z.to_nat n).

(** The loop shared by the [std::uninitialized_*_n] algorithms: [step i]
    constructs element [i] of the destination; when it throws, the
    elements constructed so far are destroyed and the exception goes on. *)
Fixpoint uninitialized_loop (step : Z → M T unit) (d_first : ptr) (i : Z) (n : nat) : M T unit :=
  match n with
  | O => ret tt
  | S n' =>
      unwind (destroy_n d_first i) (step i) ;;;
      uninitialized_loop step d_first (i + 1) n'
  end.

(** [std::uninitialized_value_construct_n(first, n)]. *)
Definition uninitialized_value_construct_n (first : ptr) (n : Z) : M T unit :=
  uninitialized_loop (λ i, construct_at (ptr_add first i) DefaultCtor value_init)
    first 0 (Z.to_nat n).

(** [std::uninitialized_copy_n(first, n, d_first)]. *)
Definition uninitialized_copy_n (first : ptr) (n : Z) (d_first : ptr) : M T unit :=
  uninitialized_loop (λ i, copy_construct (ptr_add first i) (ptr_add d_first i))
    d_first 0 (Z.to_nat n).

(** [std::uninitialized_move_n(first, n, d_first)]. *)
Definition uninitialized_move_n (first : ptr) (n : Z) (d_first : ptr) : M T unit :=
  uninitialized_loop (λ i, move_construct (ptr_add first i) (ptr_add d_first i))
    d_first 0 (Z.to_nat n).

(** The distance [last - first] of two pointers into one block, as the
    iteration count of a range algorithm; a reversed range is undefined. *)
Definition range_length (first last : ptr) : M T nat :=
  assert_ (bool_decide (first.1 = last.1) && (first.2 <=? last.2)) ;;;
  ret (Z.to_nat (last.2 - first.2)).

(** Forward element-by-element transfer from [first] to [d_first]. *)
Fixpoint forward_loop (step : ptr → ptr → M T unit) (first d_first : ptr) (n : nat) : M T unit :=
  match n with
  | O => ret tt
  | S n' =>
      step first d_first ;;;
      forward_loop step (ptr_add first 1) (ptr_add d_first 1) n'
  end.

(** [std::copy(first, last, d_first)]. *)
Definition std_copy (first last d_first : ptr) : M T unit :=
  n <- range_length first last ;;
  forward_loop copy_assign_elem first d_first n.

(** [std::move(first, last, d_first)], the algorithm. *)
Definition std_move (first last d_first : ptr) : M T unit :=
  n <- range_length first last ;;
  forward_loop move_assign_elem first d_first n.

(** [std::move_backward(first, last, d_last)]: the last element first. *)
Fixpoint backward_loop (last d_last : ptr) (n : nat) : M T unit :=
  match n with
  | O => ret tt
  | S n' =>
      move_assign_elem (ptr_add last (-1)) (ptr_add d_last (-1)) ;;;
      backward_loop (ptr_add last (-1)) (ptr_add d_last (-1)) n'
  end.
Definition std_move_backward (first last d_last : ptr) : M T unit :=
  n <- range_length first last ;;
  backward_loop last d_last n.

End Memory.

(** ** [Vector<T>] *)

Section VectorOps.
Context {T : Type} `{Element T}.

Notation "p +ₚ k" := (ptr_add p k) (at level 50, left associativity).

(** Access to a [Vector] object through its address; an address that
    holds no object cannot be used. *)
Definition get (a : addr) : M T Vector := λ s,
  match vecs s !! a with
  | Some v => Ret v s
  | None => UB
  end.
Definition put (a : addr) (v : Vector) : M T unit := λ s,
  Ret tt (with_vecs (<[a := v]> (vecs s)) s).

Definition get_data (this : addr) : M T RawMemory := v <- get this ;; ret (data_ v).
Definition get_size (this : addr) : M T Z := v <- get this ;; ret (size_ v).
Definition set_data (this : addr) (d : RawMemory) : M T unit :=
  v <- get this ;; put this {| data_ := d; size_ := size_ v |}.
Definition set_size (this : addr) (n : Z) : M T unit :=
  v <- get this ;; put this {| data_ := data_ v; size_ := n |}.

(** An object comes into existence once its constructor has completed,
    at an address that holds no other object; it ceases to exist at the
    end of its destructor. *)
Definition create (this : addr) (v : Vector) : M T unit := λ s,
  match vecs s !! this with
  | None => Ret tt (with_vecs (<[this := v]> (vecs s)) s)
  | Some _ => UB
  end.
Definition remove (this : addr) : M T unit := λ s,
  Ret tt (with_vecs (delete this (vecs s)) s).

(** The address of a local variable of type [Vector]. *)
Definition local_addr : M T addr := λ s, Ret (fresh (dom (vecs s))) s.

(** [RawMemory::GetAddress], lines 66-72. *)
Definition GetAddress (m : RawMemory) : ptr := (buffer_ m, 0).

(** [begin], [end], [cbegin], [cend]: lines 125-147. *)
Definition begin (this : addr) : M T ptr := d <- get_data this ;; ret (GetAddress d).
Definition end_ (this : addr) : M T ptr :=
  d <- get_data this ;; sz <- get_size this ;; ret (GetAddress d +ₚ sz).
Definition cbegin (this : addr) : M T ptr := d <- get_data this ;; ret (GetAddress d).
Definition cend (this : addr) : M T ptr :=
  d <- get_data this ;; sz <- get_size this ;; ret (GetAddress d +ₚ sz).

(** [Size] and [Capacity], lines 194-200. *)
Definition Size (this : addr) : M T Z := get_size this.
Definition Capacity (this : addr) : M T Z := d <- get_data this ;; ret (capacity_ d).

(** [RawMemory::operator[]], lines 56-59. *)
Definition RawMemory_index (m : RawMemory) (index : Z) : M T ptr :=
  assert_ (index <? capacity_ m) ;;;
  ret (GetAddress m +ₚ index).

(** [Vector::operator[]], lines 184-187. *)
Definition Vector_index (this : addr) (index : Z) : M T ptr :=
  sz <- get_size this ;;
  assert_ (index <? sz) ;;;
  d <- get_data this ;;
  RawMemory_index d index.

(** [RawMemory::Swap] (lines 61-64) between the [data_] members of two
    vectors, and between a [data_] member and a local [RawMemory], whose
    new value is returned. *)
Definition RawMemory_Swap (this other : addr) : M T unit :=
  a <- get_data this ;;
  b <- get_data other ;;
  set_data this b ;;;
  set_data other a.
Definition RawMemory_Swap_local (this : addr) (other : RawMemory) : M T RawMemory :=
  a <- get_data this ;;
  set_data this other ;;;
  ret a.

(** [Vector()], line 97. *)
Definition Vector_default (this : addr) : M T unit :=
  create this {| data_ := {| buffer_ := nullptr; capacity_ := 0 |}; size_ := 0 |}.

(** [Vector(size_t size)], lines 99-104.  When the body throws, the
    already constructed member [data_] is destroyed. *)
Definition Vector_sized (this : addr) (size : Z) : M T unit :=
  d <- RawMemory_new size ;;
  unwind (RawMemory_delete d)
    (uninitialized_value_construct_n (GetAddress d) size) ;;;
  create this {| data_ := d; size_ := size |}.

(** [Vector(const Vector& other)], lines 106-111. *)
Definition Vector_copy (this other : addr) : M T unit :=
  o <- get other ;;
  d <- RawMemory_new (size_ o) ;;
  unwind (RawMemory_delete d)
    (ob <- begin other ;;
     uninitialized_copy_n ob (size_ o) (GetAddress d)) ;;;
  create this {| data_ := d; size_ := size_ o |}.

(** [Vector(Vector&& other)], lines 113-116. *)
Definition Vector_move (this other : addr) : M T unit :=
  o <- get other ;;
  let '(d, od) := RawMemory_move (data_ o) in
  create this {| data_ := d; size_ := size_ o |} ;;;
  set_data other od ;;;
  set_size other 0.

(** [~Vector()], lines 118-120, followed by the destructor of [data_]. *)
Definition Vector_delete (this : addr) : M T unit :=
  b <- begin this ;;
  sz <- get_size this ;;
  destroy_n b sz ;;;
  d <- get_data this ;;
  RawMemory_delete d ;;;
  remove this.

(** [Vector::Swap], lines 189-192. *)
Definition Swap (this other : addr) : M T unit :=
  RawMemory_Swap this other ;;;
  a <- get_size other ;;
  b <- get_size this ;;
  set_size other b ;;;
  set_size this a.

(** [Vector::operator=(const Vector&)], lines 149-169. *)
Definition copy_assign (this rhs : addr) : M T addr :=
  (if bool_decide (this ≠ rhs) then
     r <- get rhs ;;
     cap <- Capacity this ;;
     if cap <? size_ r then
       rhs_copy <- local_addr ;;
       Vector_copy rhs_copy rhs ;;;
       Swap this rhs_copy ;;;
       Vector_delete rhs_copy
     else
       sz <- get_size this ;;
       rb <- begin rhs ;;
       b <- begin this ;;
       (if size_ r <? sz then
          std_copy rb (rb +ₚ size_ r) b ;;;
          destroy_n (b +ₚ size_ r) (wrap (sz - size_ r))
        else
          std_copy rb (rb +ₚ sz) b ;;;
          uninitialized_copy_n (rb +ₚ sz) (wrap (size_ r - sz)) (b +ₚ sz)) ;;;
       set_size this (size_ r)
   else ret tt) ;;;
  ret this.

(** [RawMemory::operator=(RawMemory&&)] (lines 28-36) from the [data_]
    member of [rhs] to the [data_] member of [this]. *)
Definition RawMemory_move_assign (this rhs : addr) : M T unit :=
  if bool_decide (this ≠ rhs) then
    other <- get_data rhs ;;
    set_data this {| buffer_ := buffer_ other; capacity_ := capacity_ other |} ;;;
    set_data rhs {| buffer_ := nullptr; capacity_ := 0 |}
  else ret tt.

(** [Vector::operator=(Vector&&)], lines 171-178. *)
Definition move_assign (this rhs : addr) : M T addr :=
  (if bool_decide (this ≠ rhs) then
     RawMemory_move_assign this rhs ;;;
     sz <- get_size rhs ;;
     set_size this sz ;;;
     set_size rhs 0
   else ret tt) ;;;
  ret this.

(** The relocation of [n] elements into a fresh block, by move or by
    copy: the [if constexpr] of lines 217, 235, 261, 284 and 333. *)
Definition relocate_by_move : bool :=
  is_nothrow_move_constructible || negb is_copy_constructible.
Definition relocate_n (first : ptr) (n : Z) (d_first : ptr) : M T unit :=
  if relocate_by_move then uninitialized_move_n first n d_first
  else uninitialized_copy_n first n d_first.

(** [Vector::Reserve], lines 328-340. *)
Definition Reserve (this : addr) (new_capacity : Z) : M T unit :=
  cap <- Capacity this ;;
  if new_capacity <=? cap then ret tt
  else
    new_data <- RawMemory_new new_capacity ;;
    unwind (RawMemory_delete new_data)
      (b <- begin this ;;
       sz <- get_size this ;;
       relocate_n b sz (GetAddress new_data) ;;;
       destroy_n b sz) ;;;
    old <- RawMemory_Swap_local this new_data ;;
    RawMemory_delete old.

(** [Vector::Resize], lines 202-211. *)
Definition Resize (this : addr) (new_size : Z) : M T unit :=
  sz <- get_size this ;;
  (if new_size <? sz then
     b <- begin this ;;
     destroy_n (b +ₚ new_size) (wrap (sz - new_size))
   else ret tt) ;;;
  (if sz <? new_size then
     Reserve this new_size ;;;
     b <- begin this ;;
     uninitialized_value_construct_n b (wrap (new_size - sz))
   else ret tt) ;;;
  set_size this new_size.

(** [Vector::PushBack(const T&)], lines 213-229. *)
Definition PushBack (this : addr) (value : T) : M T unit :=
  sz <- get_size this ;;
  cap <- Capacity this ;;
  (if sz =? cap then
     new_data <- RawMemory_new (if sz =? 0 then 1 else wrap (sz * 2)) ;;
     unwind (RawMemory_delete new_data)
       (construct_at (GetAddress new_data +ₚ sz) CopyCtor value ;;;
        b <- begin this ;;
        relocate_n b sz (GetAddress new_data) ;;;
        destroy_n b sz) ;;;
     old <- RawMemory_Swap_local this new_data ;;
     RawMemory_delete old
   else
     b <- begin this ;;
     construct_at (b +ₚ sz) CopyCtor value) ;;;
  set_size this (wrap (sz + 1)).

(** [Vector::PushBack(T&&)], lines 231-247. *)
Definition PushBack_move (this : addr) (value : T) : M T unit :=
  sz <- get_size this ;;
  cap <- Capacity this ;;
  (if sz =? cap then
     new_data <- RawMemory_new (if sz =? 0 then 1 else wrap (sz * 2)) ;;
     unwind (RawMemory_delete new_data)
       (construct_at (GetAddress new_data +ₚ sz) MoveCtor value ;;;
        b <- begin this ;;
        relocate_n b sz (GetAddress new_data) ;;;
        destroy_n b sz) ;;;
     old <- RawMemory_Swap_local this new_data ;;
     RawMemory_delete old
   else
     b <- begin this ;;
     construct_at (b +ₚ sz) MoveCtor value) ;;;
  set_size this (wrap (sz + 1)).

(** [Vector::EmplaceBack], lines 256-274; the arguments are summarized
    by the constructor they select and the value it produces. *)
Definition EmplaceBack (this : addr) (op : elem_op) (v : T) : M T ptr :=
  sz <- get_size this ;;
  cap <- Capacity this ;;
  (if sz =? cap then
     new_data <- RawMemory_new (if sz =? 0 then 1 else wrap (sz * 2)) ;;
     unwind (RawMemory_delete new_data)
       (construct_at (GetAddress new_data +ₚ sz) op v ;;;
        b <- begin this ;;
        relocate_n b sz (GetAddress new_data) ;;;
        destroy_n b sz) ;;;
     old <- RawMemory_Swap_local this new_data ;;
     RawMemory_delete old
   else
     b <- begin this ;;
     construct_at (b +ₚ sz) op v) ;;;
  set_size this (wrap (sz + 1)) ;;;
  e <- end_ this ;;
  ret (e +ₚ (-1)).

(** [Vector::PopBack], lines 249-254. *)
Definition PopBack (this : addr) : M T unit :=
  sz <- get_size this ;;
  if 0 <? sz then
    e <- end_ this ;;
    destroy_n (e +ₚ (-1)) 1 ;;;
    set_size this (wrap (sz - 1))
  else ret tt.

(** [std::distance(cbegin(), pos)] converted to [size_t]. *)
Definition index_of (this : addr) (pos : ptr) : M T Z :=
  cb <- cbegin this ;;
  assert_ (bool_decide (cb.1 = pos.1)) ;;;
  ret (wrap (pos.2 - cb.2)).

(** [Vector::Emplace], lines 276-309. *)
Definition Emplace (this : addr) (pos : ptr) (op : elem_op) (v : T) : M T ptr :=
  ind <- index_of this pos ;;
  sz <- get_size this ;;
  cap <- Capacity this ;;
  (if sz =? cap then
     new_data <- RawMemory_new (if sz =? 0 then 1 else wrap (sz * 2)) ;;
     unwind (RawMemory_delete new_data)
       (construct_at (GetAddress new_data +ₚ ind) op v ;;;
        b <- begin this ;;
        (if relocate_by_move then
           uninitialized_move_n b ind (GetAddress new_data) ;;;
           uninitialized_move_n (b +ₚ ind) (wrap (sz - ind)) (GetAddress new_data +ₚ ind +ₚ 1)
         else
           uninitialized_copy_n b ind (GetAddress new_data) ;;;
           uninitialized_copy_n (b +ₚ ind) (wrap (sz - ind)) (GetAddress new_data +ₚ ind +ₚ 1)) ;;;
        destroy_n b sz) ;;;
     old <- RawMemory_Swap_local this new_data ;;
     RawMemory_delete old
   else
     e <- end_ this ;;
     b <- begin this ;;
     if bool_decide (pos = e) then construct_at (b +ₚ sz) op v
     else
       (* T tmp(args...) *)
       (if throws op v then throw (elem_exn op) else emit (EvOp op v)) ;;;
       unwind (emit (EvDtor v))
         (move_construct (e +ₚ (-1)) (b +ₚ sz) ;;;
          std_move_backward (b +ₚ ind) (e +ₚ (-1)) e ;;;
          d <- get_data this ;;
          slot_ind <- RawMemory_index d ind ;;
          assign_at slot_ind MoveAssign v) ;;;
       emit (EvDtor (moved_from v))) ;;;
  set_size this (wrap (sz + 1)) ;;;
  b <- begin this ;;
  ret (b +ₚ ind).

(** [Vector::Insert], lines 311-317. *)
Definition Insert (this : addr) (pos : ptr) (value : T) : M T ptr :=
  Emplace this pos CopyCtor value.
Definition Insert_move (this : addr) (pos : ptr) (value : T) : M T ptr :=
  Emplace this pos MoveCtor value.

(** [Vector::Erase], lines 319-326. *)
Definition Erase (this : addr) (pos : ptr) : M T ptr :=
  sz <- get_size this ;;
  assert_ (0 <? sz) ;;;
  ind <- index_of this pos ;;
  b <- begin this ;;
  e <- end_ this ;;
  std_move (b +ₚ ind +ₚ 1) e (b +ₚ ind) ;;;
  destroy_n (e +ₚ (-1)) 1 ;;;
  set_size this (wrap (sz - 1)) ;;;
  ret (b +ₚ ind).

End VectorOps.

(** ** What a state says about a vector *)

Section Abstraction.
Context {T : Type} `{Element T}.

(** The block of a vector with elements [xs] and capacity [cap]: live
    objects in the first [length xs] slots, raw memory in the rest. *)
Definition block_of (xs : list T) (cap : Z) : list (slot T) :=
  (Obj <$> xs) ++ replicate (Z.to_nat cap - length xs) Raw.

(** The storage described by [m] holds exactly the elements [xs]. *)
Definition storage_holds (h : gmap loc (list (slot T))) (m : RawMemory) (xs : list T) : Prop :=
  match buffer_ m with
  | Some b => h !! b = Some (block_of xs (capacity_ m))
  | None => capacity_ m = 0
  end.

(** In state [s] the vector at address [a] has the elements [xs] and the
    capacity [cap], and satisfies the invariant of the class:
    [size_ <= capacity_], slots [0, size_) live and slots
    [size_, capacity_) uninitialized; the block fits the address space,
    as every block that [operator new] returned does. *)
Definition holds (s : state T) (a : addr) (xs : list T) (cap : Z) : Prop :=
  ∃ v, vecs s !! a = Some v
     ∧ size_ v = Z.of_nat (length xs)
     ∧ capacity_ (data_ v) = cap
     ∧ Z.of_nat (length xs) ≤ cap
     ∧ cap * sizeof < SIZE_MOD
     ∧ storage_holds (heap s) (data_ v) xs.

(** The element sequence of the vector at [a], read slot by slot; [None]
    when one of the slots [0, size_) is not a live object. *)
Definition slot_value (x : slot T) : option T :=
  match x with Obj v => Some v | Raw => None end.
Definition contents (s : state T) (a : addr) : option (list T) :=
  v ← vecs s !! a;
  match buffer_ (data_ v) with
  | Some b =>
      blk ← heap s !! b;
      if decide (Z.to_nat (size_ v) ≤ length blk)%nat
      then mapM slot_value (take (Z.to_nat (size_ v)) blk)
      else None
  | None => if decide (size_ v = 0) then Some [] else None
  end.

(** The next [operator new] of [n] elements succeeds: the oracle does
    not refuse it and [n * sizeof(T)] does not wrap. *)
Definition alloc_ok (s : state T) (n : Z) : Prop :=
  head (oom s) ≠ Some true ∧ n * sizeof < SIZE_MOD.

(** No element of [xs] makes the operation [op] throw. *)
Definition nothrow (op : elem_op) (xs : list T) : Prop :=
  Forall (λ x, throws op x = false) xs.

(** The constructor that relocation uses. *)
Definition relocate_op : elem_op := if relocate_by_move then MoveCtor else CopyCtor.

(** What relocation leaves in the old block: moved-from objects when it
    moves, the objects themselves when it copies. *)
Definition relocated (xs : list T) : list T :=
  if relocate_by_move then moved_from <$> xs else xs.

(** What placement new of the value [v] logs on a slot: the object it
    overwrites, if the slot held one, and the construction. *)
Definition construct_events (op : elem_op) (v : T) (x : slot T) : list (event T) :=
  match x with
  | Obj w => [EvLost w; EvOp op v]
  | Raw => [EvOp op v]
  end.

(** The value left in the slot that a run of move assignments vacates
    last: [z] when nothing moved, else the moved-from state of the last
    element moved. *)
Definition hole_forward (z : T) (ys : list T) : T := fold_left (λ _ y, moved_from y) ys z.
Definition hole_backward (z : T) (ys : list T) : T := fold_right (λ y _, moved_from y) z ys.

(** Two vector objects share no block. *)
Definition separate (s : state T) (a b : addr) : Prop :=
  ∀ va vb l, vecs s !! a = Some va → vecs s !! b = Some vb →
    buffer_ (data_ va) = Some l → buffer_ (data_ vb) ≠ Some l.

(** What an operation on the vector at [a] leaves alone: every other
    vector object, and every block that the vector at [a] did not hold. *)
Definition frame (s s' : state T) (a : addr) : Prop :=
  (∀ a', a' ≠ a → vecs s' !! a' = vecs s !! a')
  ∧ (∀ b blk, heap s !! b = Some blk →
       (∀ v, vecs s !! a = Some v → buffer_ (data_ v) ≠ Some b) →
       heap s' !! b = Some blk).

End Abstraction.

(** ** Sequences of calls on one vector *)

Section Calls.
Context {T : Type} `{Element T}.

(** A call that a client makes on a vector [v]; a position is given by
    its index [k], as in [v.begin() + k]. *)
Inductive call :=
| CallPushBack (x : T)                    (* v.PushBack(x) *)
| CallPushBackMove (x : T)                (* v.PushBack(std::move(x)) *)
| CallEmplaceBack (op : elem_op) (x : T)  (* v.EmplaceBack(args...) *)
| CallPopBack                             (* v.PopBack() *)
| CallReserve (n : Z)                     (* v.Reserve(n) *)
| CallInsert (k : nat) (x : T)            (* v.Insert(v.begin() + k, x) *)
| CallInsertMove (k : nat) (x : T)        (* v.Insert(v.begin() + k, std::move(x)) *)
| CallErase (k : nat)                     (* v.Erase(v.begin() + k) *)
| CallResize (n : nat).                   (* v.Resize(n) *)

Definition run_call (v : addr) (c : call) : M T unit :=
  match c with
  | CallPushBack x => PushBack v x
  | CallPushBackMove x => PushBack_move v x
  | CallEmplaceBack op x => _ <- EmplaceBack v op x ;; ret tt
  | CallPopBack => PopBack v
  | CallReserve n => Reserve v n
  | CallInsert k x => b <- begin v ;; _ <- Insert v (ptr_add b (Z.of_nat k)) x ;; ret tt
  | CallInsertMove k x => b <- begin v ;; _ <- Insert_move v (ptr_add b (Z.of_nat k)) x ;; ret tt
  | CallErase k => b <- begin v ;; _ <- Erase v (ptr_add b (Z.of_nat k)) ;; ret tt
  | CallResize n => Resize v (Z.of_nat n)
  end.

Fixpoint run_calls (v : addr) (cs : list call) : M T unit :=
  match cs with
  | [] => ret tt
  | c :: cs' => run_call v c ;;; run_calls v cs'
  end.

(** The reference for these calls: a list of elements with a capacity.
    A call has no reference result ([None]) when its position is out of
    range, when the capacity it asks for is not representable, and when
    it is a [Resize] that grows a non-empty vector. *)
Definition fits (cap : Z) : bool := cap * sizeof <? SIZE_MOD.
Definition grown (xs : list T) (cap : Z) : Z :=
  if Z.of_nat (length xs) =? cap then Z.max 1 (2 * cap) else cap.

Definition list_call (c : call) (m : list T * Z) : option (list T * Z) :=
  let '(xs, cap) := m in
  match c with
  | CallPushBack x | CallPushBackMove x | CallEmplaceBack _ x =>
      if fits (grown xs cap) then Some (xs ++ [x], grown xs cap) else None
  | CallPopBack => Some (take (length xs - 1) xs, cap)
  | CallReserve n =>
      if fits (Z.max cap n) then Some (xs, Z.max cap n) else None
  | CallInsert k x | CallInsertMove k x =>
      if bool_decide (k ≤ length xs)%nat && fits (grown xs cap)
      then Some (take k xs ++ x :: drop k xs, grown xs cap) else None
  | CallErase k =>
      if bool_decide (k < length xs)%nat then Some (take k xs ++ drop (S k) xs, cap) else None
  | CallResize n =>
      if bool_decide (n ≤ length xs)%nat then Some (take n xs, cap)
      else match xs with
           | [] => if fits (Z.max cap (Z.of_nat n))
                   then Some (replicate n value_init, Z.max cap (Z.of_nat n)) else None
           | _ :: _ => None
           end
  end.

Fixpoint list_calls (cs : list call) (m : list T * Z) : option (list T * Z) :=
  match cs with
  | [] => Some m
  | c :: cs' => m' ← list_call c m; list_calls cs' m'
  end.

(** A computation only ever consumes the future of the allocator. *)
Definition oom_mono {A} (m : M T A) : Prop :=
  ∀ s, match m s with
       | Ret _ s' | Throw _ s' => oom s' `suffix_of` oom s
       | UB => True
       end.

(** The allocator grants every request from now on. *)
Definition never_refuses (s : state T) : Prop := Forall (λ b, b = false) (oom s).

End Calls.

(** ** Concrete runs on [Vector<int>] *)

(** The machine before anything was allocated. *)
Definition s0 : state Z := mkState ∅ ∅ [] [].

(** [Vector<int> v; v.PushBack(1); v.PushBack(2); v.PushBack(3);] with
    [v] at address 0. *)
Definition push_1 : M Z unit := Vector_default 0%nat ;;; PushBack 0%nat 1.
Definition push_12 : M Z unit := push_1 ;;; PushBack 0%nat 2.
Definition push_123 : M Z unit := push_12 ;;; PushBack 0%nat 3.

(** The vector [1, 2, 3] of capacity 4 that [push_123] builds. *)
Definition st123 : state Z :=
  mkState {[ 2%nat := [Obj 1; Obj 2; Obj 3; Raw] ]}
    {[ 0%nat := {| data_ := {| buffer_ := Some 2%nat; capacity_ := 4 |}; size_ := 3 |} ]}
    []
    [EvAlloc 0%nat 1; EvOp CopyCtor 1; EvAlloc 1%nat 2; EvOp CopyCtor 2; EvOp MoveCtor 1;
     EvDtor 1; EvFree 0%nat; EvAlloc 2%nat 4; EvOp CopyCtor 3; EvOp MoveCtor 1;
     EvOp MoveCtor 2; EvDtor 1; EvDtor 2; EvFree 1%nat].

(** Two vectors: [1, 2] at address 0 and [3] at address 1. *)
Definition two_vectors : M Z unit :=
  Vector_default 0%nat ;;; PushBack 0%nat 1 ;;; PushBack 0%nat 2 ;;;
  Vector_default 1%nat ;;; PushBack 1%nat 3.
Definition st_two : state Z :=
  mkState {[ 1%nat := [Obj 1; Obj 2]; 2%nat := [Obj 3] ]}
    {[ 0%nat := {| data_ := {| buffer_ := Some 1%nat; capacity_ := 2 |}; size_ := 2 |};
       1%nat := {| data_ := {| buffer_ := Some 2%nat; capacity_ := 1 |}; size_ := 1 |} ]}
    []
    [EvAlloc 0%nat 1; EvOp CopyCtor 1; EvAlloc 1%nat 2; EvOp CopyCtor 2; EvOp MoveCtor 1;
     EvDtor 1; EvFree 0%nat; EvAlloc 2%nat 1; EvOp CopyCtor 3].

(** [st_two] after [v0 = std::move(v1)]. *)
Definition st_moved : state Z :=
  mkState (heap st_two)
    {[ 0%nat := {| data_ := {| buffer_ := Some 2%nat; capacity_ := 1 |}; size_ := 1 |};
       1%nat := {| data_ := {| buffer_ := nullptr; capacity_ := 0 |}; size_ := 0 |} ]}
    [] (log st_two).

(** [st123] after [v.Resize(5)]. *)
Definition st_resized : state Z :=
  mkState {[ 3%nat := [Obj 0; Obj 0; Obj 3; Raw; Raw] ]}
    {[ 0%nat := {| data_ := {| buffer_ := Some 3%nat; capacity_ := 5 |}; size_ := 5 |} ]}
    []
    (log st123 ++ [EvAlloc 3%nat 5; EvOp MoveCtor 1; EvOp MoveCtor 2; EvOp MoveCtor 3;
                   EvDtor 1; EvDtor 2; EvDtor 3; EvFree 2%nat;
                   EvLost 1; EvOp DefaultCtor 0; EvLost 2; EvOp DefaultCtor 0]).

(** [st_resized] after [v.Resize(3)]. *)
Definition st_resized_back : state Z :=
  mkState (heap st_resized)
    {[ 0%nat := {| data_ := {| buffer_ := Some 3%nat; capacity_ := 5 |}; size_ := 3 |} ]}
    [] (log st_resized).

(** [1, 2, 3] built by three pushes, then grown by [Resize(4)] within
    the capacity 4. *)
Definition grow_in_place : M Z unit := push_123 ;;; Resize 0%nat 4.

(** An element type whose copy constructor throws on the value 13 and
    whose move constructor is not [noexcept], so that the growth paths
    relocate by copy. *)
Definition fragile_element : Element Z := {|
  sizeof := 4;
  sizeof_pos := eq_refl;
  value_init := 0;
  moved_from := λ v, v;
  throws := λ op v, match op with CopyCtor => v =? 13 | _ => false end;
  is_nothrow_move_constructible := false;
  is_copy_constructible := true;
  is_trivially_destructible := false;
|}.

(** [Vector<Fragile> v; v.PushBack(std::move(x));] with [x] holding 13. *)
Definition push_fragile : M Z unit :=
  @Vector_default Z 0%nat ;;; @PushBack_move Z fragile_element 0%nat 13.

(** The vector [13] of capacity 1 that [push_fragile] builds. *)
Definition st_fragile : state Z :=
  mkState {[ 0%nat := [Obj 13] ]}
    {[ 0%nat := {| data_ := {| buffer_ := Some 0%nat; capacity_ := 1 |}; size_ := 1 |} ]}
    []
    [EvAlloc 0%nat 1; EvOp MoveCtor 13].


(** A default-constructed [Vector<int>] at address 0. *)
Definition st_empty : state Z :=
  mkState ∅ {[ 0%nat := {| data_ := {| buffer_ := nullptr; capacity_ := 0 |}; size_ := 0 |} ]}
    [] [].

(** * Properties *)

(** ** Lists and offsets *)

Lemma of_nat_length_snoc {A} (pre : list A) (x : A) (k : Z) :
  k = Z.of_nat (length pre) → k + 1 = Z.of_nat (length (pre ++ [x])).
Proof. intros ->. rewrite length_app. simpl. lia. Qed.

Lemma lookup_mid {A} (pre : list A) x post :
  (pre ++ x :: post) !! length pre = Some x.
Proof. by rewrite list_lookup_middle. Qed.

Lemma insert_mid {A} (pre : list A) x y post :
  <[length pre := y]> (pre ++ x :: post) = pre ++ y :: post.
Proof. by rewrite insert_app_r_alt, Nat.sub_diag by lia. Qed.

(** ** Running the monad *)

Section Monad.
Context {T : Type} `{Element T}.
Implicit Types (s : state T).

Lemma bind_Ret {A B} (m : M T A) (k : A → M T B) s a s' :
  m s = Ret a s' → bind m k s = k a s'.
Proof. unfold bind. by intros ->. Qed.

Lemma bind_Throw {A B} (m : M T A) (k : A → M T B) s e s' :
  m s = Throw e s' → bind m k s = Throw e s'.
Proof. unfold bind. by intros ->. Qed.

Lemma bind_assoc {A B C} (m : M T A) (k : A → M T B) (k' : B → M T C) s :
  bind (bind m k) k' s = bind m (λ a, bind (k a) k') s.
Proof. unfold bind. by destruct (m s). Qed.

Lemma unwind_Ret {A} (c : M T unit) (m : M T A) s a s' :
  m s = Ret a s' → unwind c m s = Ret a s'.
Proof. unfold unwind. by intros ->. Qed.

Lemma unwind_Throw {A} (c : M T unit) (m : M T A) s e s' s'' :
  m s = Throw e s' → c s' = Ret tt s'' → unwind c m s = Throw e s''.
Proof. unfold unwind. by intros -> ->. Qed.

End Monad.

(** One step of symbolic execution: the head of a sequence returns. *)
Ltac mstep tac := rewrite ?bind_assoc; erewrite bind_Ret; [| solve [tac]].

(** ** Single slots and the loops *)

Section Basics.
Context {T : Type} `{Element T}.
Implicit Types (s : state T) (h : gmap loc (list (slot T))) (vs : gmap addr Vector)
  (o : list bool) (l : list (event T)) (b : loc) (xs ys : list T)
  (pre post : list (slot T)).

Lemma load_mid h vs o l b k pre x post :
  h !! b = Some (pre ++ x :: post) → k = Z.of_nat (length pre) →
  load (Some b, k) (mkState h vs o l) = Ret x (mkState h vs o l).
Proof.
  intros Hb ->. unfold load. simpl. rewrite Hb.
  destruct (Z.leb_spec 0 (Z.of_nat (length pre))); [|lia].
  by rewrite Nat2Z.id, lookup_mid.
Qed.

Lemma store_mid h vs o l b k pre x y post :
  h !! b = Some (pre ++ x :: post) → k = Z.of_nat (length pre) →
  store (Some b, k) y (mkState h vs o l)
  = Ret tt (mkState (<[b := pre ++ y :: post]> h) vs o l).
Proof.
  intros Hb ->. unfold store. simpl. rewrite Hb.
  rewrite length_app. simpl.
  destruct (Z.leb_spec 0 (Z.of_nat (length pre))); [|lia].
  destruct (Z.ltb_spec (Z.of_nat (length pre)) (Z.of_nat (length pre + S (length post)))); [|lia].
  simpl. by rewrite Nat2Z.id, insert_mid.
Qed.

Lemma read_mid h vs o l b k pre v post :
  h !! b = Some (pre ++ Obj v :: post) → k = Z.of_nat (length pre) →
  read (Some b, k) (mkState h vs o l) = Ret v (mkState h vs o l).
Proof.
  intros Hb Hk. unfold read. by rewrite (bind_Ret _ _ _ _ _ (load_mid _ _ _ _ _ _ _ _ _ Hb Hk)).
Qed.

Lemma destroy_at_mid h vs o l b k pre v post :
  h !! b = Some (pre ++ Obj v :: post) → k = Z.of_nat (length pre) →
  destroy_at (Some b, k) (mkState h vs o l)
  = Ret tt (mkState (<[b := pre ++ Raw :: post]> h) vs o (l ++ [EvDtor v])).
Proof.
  intros Hb Hk. unfold destroy_at.
  rewrite (bind_Ret _ _ _ _ _ (load_mid _ _ _ _ _ _ _ _ _ Hb Hk)).
  by rewrite (bind_Ret _ _ _ _ _ (store_mid _ _ _ _ _ _ _ _ _ _ Hb Hk)).
Qed.

Lemma destroy_loop_ok xs : ∀ h vs o l b k pre post,
  h !! b = Some (pre ++ (Obj <$> xs) ++ post) → k = Z.of_nat (length pre) →
  destroy_loop (Some b, k) (length xs) (mkState h vs o l)
  = Ret tt (mkState (<[b := pre ++ replicate (length xs) Raw ++ post]> h) vs o
              (l ++ (EvDtor <$> xs))).
Proof.
  induction xs as [|x xs IH]; intros h vs o l b k pre post Hb Hk; simpl.
  - unfold ret. by rewrite insert_id, app_nil_r.
  - simpl in Hb.
    rewrite (bind_Ret _ _ _ _ _ (destroy_at_mid _ _ _ _ _ _ _ _ _ Hb Hk)).
    unfold ptr_add; simpl.
    rewrite (IH _ _ _ _ _ _ (pre ++ [Raw]) post).
    + by rewrite insert_insert_eq, <- !app_assoc.
    + by rewrite lookup_insert_eq, <- app_assoc.
    + by apply of_nat_length_snoc.
Qed.


Lemma emit_eq h vs o l (e : event T) :
  emit e (mkState h vs o l) = Ret tt (mkState h vs o (l ++ [e])).
Proof. done. Qed.

Lemma construct_at_mid h vs o l b k pre post op v :
  h !! b = Some (pre ++ Raw :: post) → k = Z.of_nat (length pre) →
  throws op v = false →
  construct_at (Some b, k) op v (mkState h vs o l)
  = Ret tt (mkState (<[b := pre ++ Obj v :: post]> h) vs o (l ++ [EvOp op v])).
Proof.
  intros Hb Hk Hv. unfold construct_at. rewrite Hv.
  mstep ltac:(by eapply load_mid).
  mstep ltac:(reflexivity).
  mstep ltac:(by eapply store_mid).
  done.
Qed.

Lemma construct_at_throws p op v s :
  throws op v = true → construct_at p op v s = Throw (elem_exn op) s.
Proof. intros Hv. unfold construct_at. by rewrite Hv. Qed.

Lemma assign_at_mid h vs o l b k pre w post op v :
  h !! b = Some (pre ++ Obj w :: post) → k = Z.of_nat (length pre) →
  throws op v = false →
  assign_at (Some b, k) op v (mkState h vs o l)
  = Ret tt (mkState (<[b := pre ++ Obj v :: post]> h) vs o (l ++ [EvOp op v])).
Proof.
  intros Hb Hk Hv. unfold assign_at.
  mstep ltac:(by eapply read_mid).
  rewrite Hv.
  mstep ltac:(by eapply store_mid).
  done.
Qed.


Lemma of_nat_length_app {A B} (pre : list A) (done : list B) (f : B → A) (k : Z) :
  k = Z.of_nat (length pre) →
  k + Z.of_nat (length done) = Z.of_nat (length (pre ++ (f <$> done))).
Proof. intros ->. rewrite length_app, length_fmap. lia. Qed.

Lemma copy_construct_mid h vs o l bs bd ks kd spre v spost dpre dpost :
  bs ≠ bd →
  h !! bs = Some (spre ++ Obj v :: spost) → ks = Z.of_nat (length spre) →
  h !! bd = Some (dpre ++ Raw :: dpost) → kd = Z.of_nat (length dpre) →
  throws CopyCtor v = false →
  copy_construct (Some bs, ks) (Some bd, kd) (mkState h vs o l)
  = Ret tt (mkState (<[bd := dpre ++ Obj v :: dpost]> h) vs o (l ++ [EvOp CopyCtor v])).
Proof.
  intros Hne Hs Hks Hd Hkd Hv. unfold copy_construct.
  mstep ltac:(by eapply read_mid).
  by eapply construct_at_mid.
Qed.

Lemma uninitialized_copy_loop_ok xs : ∀ done h vs o l bs bd ks kd spre spost dpre dpost,
  bs ≠ bd →
  h !! bs = Some (spre ++ (Obj <$> done ++ xs) ++ spost) → ks = Z.of_nat (length spre) →
  h !! bd = Some (dpre ++ (Obj <$> done) ++ replicate (length xs) Raw ++ dpost) →
  kd = Z.of_nat (length dpre) →
  nothrow CopyCtor xs →
  uninitialized_loop (λ i, copy_construct (ptr_add (Some bs, ks) i) (ptr_add (Some bd, kd) i))
    (Some bd, kd) (Z.of_nat (length done)) (length xs) (mkState h vs o l)
  = Ret tt (mkState (<[bd := dpre ++ (Obj <$> done ++ xs) ++ dpost]> h) vs o
              (l ++ (EvOp CopyCtor <$> xs))).
Proof.
  induction xs as [|x xs IH]; intros done h vs o l bs bd ks kd spre spost dpre dpost
    Hne Hs Hks Hd Hkd Hxs; simpl.
  - simpl in Hd. rewrite !app_nil_r. by rewrite insert_id.
  - apply Forall_cons in Hxs as [Hx Hxs].
    erewrite bind_Ret; cycle 1.
    { apply unwind_Ret. unfold ptr_add; simpl.
      eapply (copy_construct_mid _ _ _ _ _ _ _ _ (spre ++ (Obj <$> done)) x ((Obj <$> xs) ++ spost)
                (dpre ++ (Obj <$> done)) (replicate (length xs) Raw ++ dpost)); eauto.
      - rewrite Hs. rewrite fmap_app, <- !app_assoc. done.
      - by apply of_nat_length_app.
      - rewrite Hd, <- !app_assoc. done.
      - by apply of_nat_length_app. }
    replace (Z.of_nat (length done) + 1) with (Z.of_nat (length (done ++ [x])))
      by (rewrite length_app; simpl; lia).
    erewrite (IH (done ++ [x]) _ _ _ _ bs bd ks kd spre spost dpre dpost); eauto.
    + by rewrite insert_insert_eq, <- !app_assoc.
    + rewrite lookup_insert_ne by done. by rewrite <- app_assoc.
    + rewrite lookup_insert_eq. by rewrite fmap_app, <- !app_assoc.
Qed.


Lemma insert2_twice h bs bd (S1 S2 D1 D2 : list (slot T)) :
  bs ≠ bd →
  <[bd := D2]> (<[bs := S2]> (<[bd := D1]> (<[bs := S1]> h))) = <[bd := D2]> (<[bs := S2]> h).
Proof.
  intros Hne. rewrite (insert_insert_ne (<[bs:=S1]> h) bs bd) by done.
  by rewrite insert_insert_eq, insert_insert_eq.
Qed.

Lemma move_construct_mid h vs o l bs bd ks kd spre v spost dpre dpost :
  bs ≠ bd →
  h !! bs = Some (spre ++ Obj v :: spost) → ks = Z.of_nat (length spre) →
  h !! bd = Some (dpre ++ Raw :: dpost) → kd = Z.of_nat (length dpre) →
  throws MoveCtor v = false →
  move_construct (Some bs, ks) (Some bd, kd) (mkState h vs o l)
  = Ret tt (mkState (<[bd := dpre ++ Obj v :: dpost]>
                       (<[bs := spre ++ Obj (moved_from v) :: spost]> h))
              vs o (l ++ [EvOp MoveCtor v])).
Proof.
  intros Hne Hs Hks Hd Hkd Hv. unfold move_construct.
  mstep ltac:(by eapply read_mid).
  rewrite Hv.
  mstep ltac:(by eapply store_mid).
  eapply construct_at_mid; eauto. by rewrite lookup_insert_ne.
Qed.

Lemma uninitialized_move_loop_ok xs : ∀ done h vs o l bs bd ks kd spre spost dpre dpost,
  bs ≠ bd →
  h !! bs = Some (spre ++ (Obj <$> (moved_from <$> done)) ++ (Obj <$> xs) ++ spost) →
  ks = Z.of_nat (length spre) →
  h !! bd = Some (dpre ++ (Obj <$> done) ++ replicate (length xs) Raw ++ dpost) →
  kd = Z.of_nat (length dpre) →
  nothrow MoveCtor xs →
  uninitialized_loop (λ i, move_construct (ptr_add (Some bs, ks) i) (ptr_add (Some bd, kd) i))
    (Some bd, kd) (Z.of_nat (length done)) (length xs) (mkState h vs o l)
  = Ret tt (mkState (<[bd := dpre ++ (Obj <$> done ++ xs) ++ dpost]>
                       (<[bs := spre ++ (Obj <$> (moved_from <$> done ++ xs)) ++ spost]> h))
              vs o (l ++ (EvOp MoveCtor <$> xs))).
Proof.
  induction xs as [|x xs IH]; intros done h vs o l bs bd ks kd spre spost dpre dpost
    Hne Hs Hks Hd Hkd Hxs; simpl.
  - simpl in Hd. rewrite !app_nil_r. simpl in Hs. by rewrite (insert_id h bs), insert_id.
  - apply Forall_cons in Hxs as [Hx Hxs].
    erewrite bind_Ret; cycle 1.
    { apply unwind_Ret. unfold ptr_add; simpl.
      eapply (move_construct_mid _ _ _ _ _ _ _ _ (spre ++ (Obj <$> (moved_from <$> done))) x
                ((Obj <$> xs) ++ spost)
                (dpre ++ (Obj <$> done)) (replicate (length xs) Raw ++ dpost)); eauto.
      - rewrite Hs. by rewrite <- !app_assoc.
      - rewrite <- list_fmap_compose. by apply of_nat_length_app.
      - rewrite Hd, <- !app_assoc. done.
      - by apply of_nat_length_app. }
    replace (Z.of_nat (length done) + 1) with (Z.of_nat (length (done ++ [x])))
      by (rewrite length_app; simpl; lia).
    erewrite (IH (done ++ [x]) _ _ _ _ bs bd ks kd spre spost dpre dpost); eauto.
    + by rewrite insert2_twice, <- !app_assoc.
    + rewrite lookup_insert_ne, lookup_insert_eq by done.
      by rewrite !fmap_app, <- !app_assoc.
    + rewrite lookup_insert_eq. by rewrite fmap_app, <- !app_assoc.
Qed.

Lemma uninitialized_copy_loop_throws xs1 : ∀ x xs2 done h vs o l bs bd ks kd spre spost dpre dpost,
  bs ≠ bd →
  h !! bs = Some (spre ++ (Obj <$> done ++ xs1 ++ x :: xs2) ++ spost) →
  ks = Z.of_nat (length spre) →
  h !! bd = Some (dpre ++ (Obj <$> done) ++ replicate (length (xs1 ++ x :: xs2)) Raw ++ dpost) →
  kd = Z.of_nat (length dpre) →
  nothrow CopyCtor xs1 → throws CopyCtor x = true →
  uninitialized_loop (λ i, copy_construct (ptr_add (Some bs, ks) i) (ptr_add (Some bd, kd) i))
    (Some bd, kd) (Z.of_nat (length done)) (length (xs1 ++ x :: xs2)) (mkState h vs o l)
  = Throw (elem_exn CopyCtor)
      (mkState (<[bd := dpre ++ replicate (length (done ++ xs1 ++ x :: xs2)) Raw ++ dpost]> h)
         vs o (l ++ (EvOp CopyCtor <$> xs1) ++ (EvDtor <$> done ++ xs1))).
Proof.
  induction xs1 as [|y xs1 IH]; intros x xs2 done h vs o l bs bd ks kd spre spost dpre dpost
    Hne Hs Hks Hd Hkd Hxs Hx; simpl.
  - erewrite bind_Throw; [done|].
    eapply unwind_Throw.
    + unfold copy_construct, ptr_add; simpl.
      mstep ltac:(eapply (read_mid _ _ _ _ _ _ (spre ++ (Obj <$> done)) x ((Obj <$> xs2) ++ spost));
                  [by rewrite Hs, fmap_app, <- !app_assoc | by apply of_nat_length_app]).
      by apply construct_at_throws.
    + unfold destroy_n. rewrite Nat2Z.id.
      erewrite destroy_loop_ok; [|done..].
      rewrite app_nil_r, (length_app done). simpl.
      by rewrite replicate_add, <- !app_assoc.
  - apply Forall_cons in Hxs as [Hy Hxs].
    erewrite bind_Ret; cycle 1.
    { apply unwind_Ret. unfold ptr_add; simpl.
      eapply (copy_construct_mid _ _ _ _ _ _ _ _ (spre ++ (Obj <$> done)) y
                ((Obj <$> xs1 ++ x :: xs2) ++ spost)
                (dpre ++ (Obj <$> done)) (replicate (length (xs1 ++ x :: xs2)) Raw ++ dpost)); eauto.
      - rewrite Hs. rewrite fmap_app, <- !app_assoc. done.
      - by apply of_nat_length_app.
      - rewrite Hd, <- !app_assoc. done.
      - by apply of_nat_length_app. }
    replace (Z.of_nat (length done) + 1) with (Z.of_nat (length (done ++ [y])))
      by (rewrite length_app; simpl; lia).
    erewrite (IH x xs2 (done ++ [y]) _ _ _ _ bs bd ks kd spre spost dpre dpost); eauto.
    + by rewrite insert_insert_eq, <- !app_assoc.
    + rewrite lookup_insert_ne by done. by rewrite <- app_assoc.
    + rewrite lookup_insert_eq. by rewrite fmap_app, <- !app_assoc.
Qed.


Lemma copy_assign_elem_mid h vs o l bs bd ks kd spre v spost dpre w dpost :
  bs ≠ bd →
  h !! bs = Some (spre ++ Obj v :: spost) → ks = Z.of_nat (length spre) →
  h !! bd = Some (dpre ++ Obj w :: dpost) → kd = Z.of_nat (length dpre) →
  throws CopyAssign v = false →
  copy_assign_elem (Some bs, ks) (Some bd, kd) (mkState h vs o l)
  = Ret tt (mkState (<[bd := dpre ++ Obj v :: dpost]> h) vs o (l ++ [EvOp CopyAssign v])).
Proof.
  intros Hne Hs Hks Hd Hkd Hv. unfold copy_assign_elem.
  mstep ltac:(by eapply read_mid).
  by eapply assign_at_mid.
Qed.

Lemma copy_loop_ok xs : ∀ olds h vs o l bs bd ks kd spre spost dpre dpost,
  bs ≠ bd → length olds = length xs →
  h !! bs = Some (spre ++ (Obj <$> xs) ++ spost) → ks = Z.of_nat (length spre) →
  h !! bd = Some (dpre ++ (Obj <$> olds) ++ dpost) → kd = Z.of_nat (length dpre) →
  nothrow CopyAssign xs →
  forward_loop copy_assign_elem (Some bs, ks) (Some bd, kd) (length xs) (mkState h vs o l)
  = Ret tt (mkState (<[bd := dpre ++ (Obj <$> xs) ++ dpost]> h) vs o
              (l ++ (EvOp CopyAssign <$> xs))).
Proof.
  induction xs as [|x xs IH]; intros [|w olds] h vs o l bs bd ks kd spre spost dpre dpost
    Hne Hlen Hs Hks Hd Hkd Hxs; simplify_eq/=.
  - rewrite !app_nil_r. by rewrite insert_id.
  - apply Forall_cons in Hxs as [Hx Hxs].
    mstep ltac:(by eapply copy_assign_elem_mid).
    unfold ptr_add; simpl.
    erewrite (IH olds _ _ _ _ bs bd _ _ (spre ++ [Obj x]) spost (dpre ++ [Obj x]) dpost); eauto.
    + by rewrite insert_insert_eq, <- !app_assoc.
    + rewrite lookup_insert_ne by done. by rewrite <- app_assoc.
    + by apply of_nat_length_snoc.
    + rewrite lookup_insert_eq. by rewrite <- !app_assoc.
    + by apply of_nat_length_snoc.
Qed.

Lemma move_assign_elem_next h vs o l b k pre z y post :
  h !! b = Some (pre ++ Obj z :: Obj y :: post) → k = Z.of_nat (length pre) →
  throws MoveAssign y = false →
  move_assign_elem (Some b, k + 1) (Some b, k) (mkState h vs o l)
  = Ret tt (mkState (<[b := pre ++ Obj y :: Obj (moved_from y) :: post]> h) vs o
              (l ++ [EvOp MoveAssign y])).
Proof.
  intros Hb Hk Hy. unfold move_assign_elem.
  mstep ltac:(eapply (read_mid _ _ _ _ _ _ (pre ++ [Obj z]) y post);
              [by rewrite <- app_assoc | by apply of_nat_length_snoc]).
  mstep ltac:(by eapply read_mid).
  rewrite Hy.
  mstep ltac:(eapply (store_mid _ _ _ _ _ _ (pre ++ [Obj z]) (Obj y) _ post);
              [by rewrite <- app_assoc | by apply of_nat_length_snoc]).
  mstep ltac:(eapply (store_mid _ _ _ _ _ _ pre (Obj z) _ (Obj (moved_from y) :: post));
              [by rewrite lookup_insert_eq, <- app_assoc | done]).
  by rewrite insert_insert_eq.
Qed.

Lemma move_loop_ok ys : ∀ z h vs o l b k pre post,
  h !! b = Some (pre ++ Obj z :: (Obj <$> ys) ++ post) → k = Z.of_nat (length pre) →
  nothrow MoveAssign ys →
  forward_loop move_assign_elem (Some b, k + 1) (Some b, k) (length ys) (mkState h vs o l)
  = Ret tt (mkState (<[b := pre ++ (Obj <$> ys) ++ Obj (hole_forward z ys) :: post]> h) vs o
              (l ++ (EvOp MoveAssign <$> ys))).
Proof.
  induction ys as [|y ys IH]; intros z h vs o l b k pre post Hb Hk Hys; simpl.
  - rewrite !app_nil_r. by rewrite insert_id.
  - apply Forall_cons in Hys as [Hy Hys]. simpl in Hb.
    mstep ltac:(by eapply move_assign_elem_next).
    unfold ptr_add; simpl.
    erewrite (IH (moved_from y) _ _ _ _ b (k + 1) (pre ++ [Obj y]) post); eauto.
    + by rewrite insert_insert_eq, <- !app_assoc.
    + rewrite lookup_insert_eq. by rewrite <- !app_assoc.
    + by apply of_nat_length_snoc.
Qed.

Lemma move_assign_elem_prev h vs o l b k pre y z post :
  h !! b = Some (pre ++ Obj y :: Obj z :: post) → k = Z.of_nat (length pre) →
  throws MoveAssign y = false →
  move_assign_elem (Some b, k) (Some b, k + 1) (mkState h vs o l)
  = Ret tt (mkState (<[b := pre ++ Obj (moved_from y) :: Obj y :: post]> h) vs o
              (l ++ [EvOp MoveAssign y])).
Proof.
  intros Hb Hk Hy. unfold move_assign_elem.
  mstep ltac:(by eapply read_mid).
  mstep ltac:(eapply (read_mid _ _ _ _ _ _ (pre ++ [Obj y]) z post);
              [by rewrite <- app_assoc | by apply of_nat_length_snoc]).
  rewrite Hy.
  mstep ltac:(by eapply store_mid).
  mstep ltac:(eapply (store_mid _ _ _ _ _ _ (pre ++ [Obj (moved_from y)]) (Obj z) _ post);
              [by rewrite lookup_insert_eq, <- app_assoc | by apply of_nat_length_snoc]).
  by rewrite insert_insert_eq, <- app_assoc.
Qed.

Lemma backward_loop_ok ys : ∀ z h vs o l b k pre post,
  h !! b = Some (pre ++ (Obj <$> ys) ++ Obj z :: post) →
  k = Z.of_nat (length pre) + Z.of_nat (length ys) →
  nothrow MoveAssign ys →
  backward_loop (Some b, k) (Some b, k + 1) (length ys) (mkState h vs o l)
  = Ret tt (mkState (<[b := pre ++ Obj (hole_backward z ys) :: (Obj <$> ys) ++ post]> h) vs o
              (l ++ (EvOp MoveAssign <$> rev ys))).
Proof.
  induction ys as [|y ys IH] using rev_ind; intros z h vs o l b k pre post Hb Hk Hys.
  - simpl. rewrite !app_nil_r. by rewrite insert_id.
  - apply Forall_app in Hys as [Hys Hy]. rewrite Forall_singleton in Hy.
    rewrite length_app, Nat.add_1_r. simpl.
    rewrite length_app in Hk. simpl in Hk.
    unfold ptr_add; simpl.
    replace (k + 1 + -1) with (k + -1 + 1) by lia.
    mstep ltac:(eapply (move_assign_elem_prev _ _ _ _ _ _ (pre ++ (Obj <$> ys)) y z post);
                [by rewrite Hb, fmap_app, <- !app_assoc
                |rewrite length_app, length_fmap; lia | done]).
    erewrite (IH (moved_from y) _ _ _ _ b (k + -1) pre (Obj y :: post)); eauto.
    + rewrite insert_insert_eq. unfold hole_backward. rewrite foldr_app. simpl.
      by rewrite rev_app_distr, fmap_app, <- !app_assoc.
    + rewrite lookup_insert_eq. by rewrite <- !app_assoc.
    + lia.
Qed.

Lemma move_construct_next h vs o l b k pre z post :
  h !! b = Some (pre ++ Obj z :: Raw :: post) → k = Z.of_nat (length pre) →
  throws MoveCtor z = false →
  move_construct (Some b, k) (Some b, k + 1) (mkState h vs o l)
  = Ret tt (mkState (<[b := pre ++ Obj (moved_from z) :: Obj z :: post]> h) vs o
              (l ++ [EvOp MoveCtor z])).
Proof.
  intros Hb Hk Hz. unfold move_construct.
  mstep ltac:(by eapply read_mid).
  rewrite Hz.
  mstep ltac:(by eapply store_mid).
  erewrite (construct_at_mid _ _ _ _ _ _ (pre ++ [Obj (moved_from z)]) post); eauto.
  - by rewrite insert_insert_eq, <- app_assoc.
  - by rewrite lookup_insert_eq, <- app_assoc.
  - by apply of_nat_length_snoc.
Qed.


End Basics.

(** ** The range algorithms *)

Section Ranges.
Context {T : Type} `{Element T}.
Implicit Types (s : state T) (h : gmap loc (list (slot T))) (vs : gmap addr Vector)
  (o : list bool) (l : list (event T)) (b : loc) (xs ys : list T)
  (pre post : list (slot T)).

Lemma destroy_n_ok h vs o l b k n pre xs post :
  h !! b = Some (pre ++ (Obj <$> xs) ++ post) → k = Z.of_nat (length pre) →
  n = Z.of_nat (length xs) →
  destroy_n (Some b, k) n (mkState h vs o l)
  = Ret tt (mkState (<[b := pre ++ replicate (length xs) Raw ++ post]> h) vs o
              (l ++ (EvDtor <$> xs))).
Proof.
  intros Hb Hk ->. unfold destroy_n. rewrite Nat2Z.id. by apply destroy_loop_ok.
Qed.

Lemma destroy_n_zero (p : ptr) s : destroy_n p 0 s = Ret tt s.
Proof. done. Qed.

Lemma uninitialized_copy_n_ok h vs o l bs bd ks kd n xs spre spost dpre dpost :
  bs ≠ bd →
  h !! bs = Some (spre ++ (Obj <$> xs) ++ spost) → ks = Z.of_nat (length spre) →
  h !! bd = Some (dpre ++ replicate (length xs) Raw ++ dpost) →
  kd = Z.of_nat (length dpre) → n = Z.of_nat (length xs) →
  nothrow CopyCtor xs →
  uninitialized_copy_n (Some bs, ks) n (Some bd, kd) (mkState h vs o l)
  = Ret tt (mkState (<[bd := dpre ++ (Obj <$> xs) ++ dpost]> h) vs o
              (l ++ (EvOp CopyCtor <$> xs))).
Proof.
  intros Hne Hs Hks Hd Hkd -> Hxs. unfold uninitialized_copy_n. rewrite Nat2Z.id.
  by eapply (uninitialized_copy_loop_ok xs []).
Qed.

Lemma uninitialized_copy_n_throws h vs o l bs bd ks kd n xs1 x xs2 spre spost dpre dpost :
  bs ≠ bd →
  h !! bs = Some (spre ++ (Obj <$> xs1 ++ x :: xs2) ++ spost) → ks = Z.of_nat (length spre) →
  h !! bd = Some (dpre ++ replicate (length (xs1 ++ x :: xs2)) Raw ++ dpost) →
  kd = Z.of_nat (length dpre) → n = Z.of_nat (length (xs1 ++ x :: xs2)) →
  nothrow CopyCtor xs1 → throws CopyCtor x = true →
  uninitialized_copy_n (Some bs, ks) n (Some bd, kd) (mkState h vs o l)
  = Throw (elem_exn CopyCtor)
      (mkState h vs o (l ++ (EvOp CopyCtor <$> xs1) ++ (EvDtor <$> xs1))).
Proof.
  intros Hne Hs Hks Hd Hkd -> Hxs Hx. unfold uninitialized_copy_n. rewrite Nat2Z.id.
  erewrite (uninitialized_copy_loop_throws xs1 x xs2 [] _ _ _ _ _ _ _ _ spre spost dpre dpost);
    eauto.
  simpl. by rewrite insert_id.
Qed.

Lemma uninitialized_move_n_ok h vs o l bs bd ks kd n xs spre spost dpre dpost :
  bs ≠ bd →
  h !! bs = Some (spre ++ (Obj <$> xs) ++ spost) → ks = Z.of_nat (length spre) →
  h !! bd = Some (dpre ++ replicate (length xs) Raw ++ dpost) →
  kd = Z.of_nat (length dpre) → n = Z.of_nat (length xs) →
  nothrow MoveCtor xs →
  uninitialized_move_n (Some bs, ks) n (Some bd, kd) (mkState h vs o l)
  = Ret tt (mkState (<[bd := dpre ++ (Obj <$> xs) ++ dpost]>
                       (<[bs := spre ++ (Obj <$> (moved_from <$> xs)) ++ spost]> h))
              vs o (l ++ (EvOp MoveCtor <$> xs))).
Proof.
  intros Hne Hs Hks Hd Hkd -> Hxs. unfold uninitialized_move_n. rewrite Nat2Z.id.
  by eapply (uninitialized_move_loop_ok xs []).
Qed.

Lemma relocate_n_ok h vs o l bs bd ks kd n xs spre spost dpre dpost :
  bs ≠ bd →
  h !! bs = Some (spre ++ (Obj <$> xs) ++ spost) → ks = Z.of_nat (length spre) →
  h !! bd = Some (dpre ++ replicate (length xs) Raw ++ dpost) →
  kd = Z.of_nat (length dpre) → n = Z.of_nat (length xs) →
  nothrow relocate_op xs →
  relocate_n (Some bs, ks) n (Some bd, kd) (mkState h vs o l)
  = Ret tt (mkState (<[bd := dpre ++ (Obj <$> xs) ++ dpost]>
                       (<[bs := spre ++ (Obj <$> relocated xs) ++ spost]> h))
              vs o (l ++ (EvOp relocate_op <$> xs))).
Proof.
  unfold relocate_n, relocate_op, relocated. intros Hne Hs Hks Hd Hkd Hn Hxs.
  destruct relocate_by_move.
  - by eapply uninitialized_move_n_ok.
  - rewrite (insert_id h bs _ Hs). by eapply uninitialized_copy_n_ok.
Qed.

Lemma relocate_n_zero (p q : ptr) s : relocate_n p 0 q s = Ret tt s.
Proof. unfold relocate_n. by destruct relocate_by_move. Qed.

Lemma length_relocated xs : length (relocated xs) = length xs.
Proof. unfold relocated. destruct relocate_by_move; [apply length_fmap | done]. Qed.

Lemma range_length_ok bo k1 k2 s :
  k1 ≤ k2 → range_length (bo, k1) (bo, k2) s = Ret (Z.to_nat (k2 - k1)) s.
Proof.
  intros Hk. unfold range_length. simpl.
  rewrite bool_decide_eq_true_2 by done.
  by destruct (Z.leb_spec k1 k2); [|lia].
Qed.

Lemma std_copy_ok h vs o l bs bd ks ke kd xs olds spre spost dpre dpost :
  bs ≠ bd → length olds = length xs →
  h !! bs = Some (spre ++ (Obj <$> xs) ++ spost) → ks = Z.of_nat (length spre) →
  ke = ks + Z.of_nat (length xs) →
  h !! bd = Some (dpre ++ (Obj <$> olds) ++ dpost) → kd = Z.of_nat (length dpre) →
  nothrow CopyAssign xs →
  std_copy (Some bs, ks) (Some bs, ke) (Some bd, kd) (mkState h vs o l)
  = Ret tt (mkState (<[bd := dpre ++ (Obj <$> xs) ++ dpost]> h) vs o
              (l ++ (EvOp CopyAssign <$> xs))).
Proof.
  intros Hne Hlen Hs Hks -> Hd Hkd Hxs. unfold std_copy.
  mstep ltac:(apply range_length_ok; lia).
  replace (Z.to_nat (ks + Z.of_nat (length xs) - ks)) with (length xs) by lia.
  by eapply copy_loop_ok.
Qed.

Lemma std_move_ok h vs o l b k ke z ys pre post :
  h !! b = Some (pre ++ Obj z :: (Obj <$> ys) ++ post) → k = Z.of_nat (length pre) →
  ke = k + 1 + Z.of_nat (length ys) →
  nothrow MoveAssign ys →
  std_move (Some b, k + 1) (Some b, ke) (Some b, k) (mkState h vs o l)
  = Ret tt (mkState (<[b := pre ++ (Obj <$> ys) ++ Obj (hole_forward z ys) :: post]> h) vs o
              (l ++ (EvOp MoveAssign <$> ys))).
Proof.
  intros Hb Hk -> Hys. unfold std_move.
  mstep ltac:(apply range_length_ok; lia).
  replace (Z.to_nat (k + 1 + Z.of_nat (length ys) - (k + 1))) with (length ys) by lia.
  by eapply move_loop_ok.
Qed.

Lemma std_move_backward_ok h vs o l b k ke z ys pre post :
  h !! b = Some (pre ++ (Obj <$> ys) ++ Obj z :: post) → k = Z.of_nat (length pre) →
  ke = k + Z.of_nat (length ys) →
  nothrow MoveAssign ys →
  std_move_backward (Some b, k) (Some b, ke) (Some b, ke + 1) (mkState h vs o l)
  = Ret tt (mkState (<[b := pre ++ Obj (hole_backward z ys) :: (Obj <$> ys) ++ post]> h) vs o
              (l ++ (EvOp MoveAssign <$> rev ys))).
Proof.
  intros Hb -> -> Hys. unfold std_move_backward.
  mstep ltac:(apply range_length_ok; lia).
  replace (Z.to_nat (Z.of_nat (length pre) + Z.of_nat (length ys) - Z.of_nat (length pre)))
    with (length ys) by lia.
  by eapply backward_loop_ok.
Qed.

End Ranges.

(** ** The object store and the allocator *)

Section Store.
Context {T : Type} `{Element T}.
Implicit Types (s : state T) (h : gmap loc (list (slot T))) (vs : gmap addr Vector)
  (o : list bool) (l : list (event T)) (b : loc) (xs ys : list T) (v : Vector)
  (pre post : list (slot T)).

Lemma get_eq h vs o l a v :
  vs !! a = Some v → get a (mkState h vs o l) = Ret v (mkState h vs o l).
Proof. intros Hv. unfold get. simpl. by rewrite Hv. Qed.

Lemma get_size_eq h vs o l a v :
  vs !! a = Some v → get_size a (mkState h vs o l) = Ret (size_ v) (mkState h vs o l).
Proof. intros Hv. unfold get_size. by mstep ltac:(by apply get_eq). Qed.

Lemma get_data_eq h vs o l a v :
  vs !! a = Some v → get_data a (mkState h vs o l) = Ret (data_ v) (mkState h vs o l).
Proof. intros Hv. unfold get_data. by mstep ltac:(by apply get_eq). Qed.

Lemma Capacity_eq h vs o l a v :
  vs !! a = Some v →
  Capacity a (mkState h vs o l) = Ret (capacity_ (data_ v)) (mkState h vs o l).
Proof. intros Hv. unfold Capacity. by mstep ltac:(by apply get_data_eq). Qed.

Lemma begin_eq h vs o l a v :
  vs !! a = Some v →
  begin a (mkState h vs o l) = Ret (buffer_ (data_ v), 0) (mkState h vs o l).
Proof. intros Hv. unfold begin. by mstep ltac:(by apply get_data_eq). Qed.

Lemma cbegin_eq h vs o l a v :
  vs !! a = Some v →
  cbegin a (mkState h vs o l) = Ret (buffer_ (data_ v), 0) (mkState h vs o l).
Proof. intros Hv. unfold cbegin. by mstep ltac:(by apply get_data_eq). Qed.

Lemma end_eq h vs o l a v :
  vs !! a = Some v →
  end_ a (mkState h vs o l) = Ret (buffer_ (data_ v), size_ v) (mkState h vs o l).
Proof.
  intros Hv. unfold end_.
  mstep ltac:(by apply get_data_eq). by mstep ltac:(by apply get_size_eq).
Qed.

Lemma set_size_eq h vs o l a v n :
  vs !! a = Some v →
  set_size a n (mkState h vs o l)
  = Ret tt (mkState h (<[a := {| data_ := data_ v; size_ := n |}]> vs) o l).
Proof. intros Hv. unfold set_size. by mstep ltac:(by apply get_eq). Qed.

Lemma set_data_eq h vs o l a v d :
  vs !! a = Some v →
  set_data a d (mkState h vs o l)
  = Ret tt (mkState h (<[a := {| data_ := d; size_ := size_ v |}]> vs) o l).
Proof. intros Hv. unfold set_data. by mstep ltac:(by apply get_eq). Qed.

Lemma RawMemory_Swap_local_eq h vs o l a v d :
  vs !! a = Some v →
  RawMemory_Swap_local a d (mkState h vs o l)
  = Ret (data_ v) (mkState h (<[a := {| data_ := d; size_ := size_ v |}]> vs) o l).
Proof.
  intros Hv. unfold RawMemory_Swap_local.
  mstep ltac:(by apply get_data_eq). by mstep ltac:(by apply set_data_eq).
Qed.

Lemma wrap_small z : 0 ≤ z < SIZE_MOD → wrap z = z.
Proof. intros. unfold wrap. by apply Z.mod_small. Qed.

Lemma heap_fresh h : h !! fresh (dom h) = None.
Proof. apply not_elem_of_dom, is_fresh. Qed.

Lemma RawMemory_new_ok h vs o l n :
  0 < n → head o ≠ Some true → n * sizeof < SIZE_MOD →
  RawMemory_new n (mkState h vs o l)
  = Ret {| buffer_ := Some (fresh (dom h)); capacity_ := n |}
      (mkState (<[fresh (dom h) := replicate (Z.to_nat n) Raw]> h) vs (tail o)
         (l ++ [EvAlloc (fresh (dom h)) n])).
Proof.
  intros Hn Ho Hsz. unfold RawMemory_new, Allocate.
  destruct (Z.eqb_spec n 0) as [|_]; [lia|]. simpl.
  pose proof sizeof_pos.
  rewrite wrap_small by nia.
  unfold bind, operator_new. simpl.
  rewrite Z.div_mul by lia.
  destruct o as [|[] o]; done.
Qed.

Lemma RawMemory_new_throws h vs o l n :
  n ≠ 0 → head o = Some true →
  RawMemory_new n (mkState h vs o l) = Throw bad_alloc (mkState h vs (tail o) l).
Proof.
  intros Hn Ho. unfold RawMemory_new, Allocate.
  destruct (Z.eqb_spec n 0) as [|_]; [lia|]. simpl.
  unfold bind, operator_new. simpl.
  destruct o as [|[] o]; done.
Qed.

Lemma RawMemory_new_zero s :
  RawMemory_new 0 s = Ret {| buffer_ := nullptr; capacity_ := 0 |} s.
Proof. done. Qed.

Lemma RawMemory_delete_ok h vs o l b c blk :
  h !! b = Some blk →
  RawMemory_delete {| buffer_ := Some b; capacity_ := c |} (mkState h vs o l)
  = Ret tt (mkState (delete b h) vs o (l ++ [EvFree b])).
Proof.
  intros Hb. unfold RawMemory_delete, Deallocate, operator_delete. simpl. by rewrite Hb.
Qed.

Lemma RawMemory_delete_null c s :
  RawMemory_delete {| buffer_ := nullptr; capacity_ := c |} s = Ret tt s.
Proof. done. Qed.

End Store.

(** ** Appending: [PushBack] and [EmplaceBack] *)

Section Blocks.
Context {T : Type} `{Element T}.
Implicit Types (xs ys : list T).

Lemma block_of_full xs cap : cap = Z.of_nat (length xs) → block_of xs cap = (Obj <$> xs) ++ [].
Proof. intros ->. unfold block_of. by rewrite Nat2Z.id, Nat.sub_diag. Qed.

Lemma block_of_room xs cap :
  Z.of_nat (length xs) < cap →
  block_of xs cap = (Obj <$> xs) ++ Raw :: replicate (Z.to_nat cap - length xs - 1) Raw.
Proof.
  intros Hlt. unfold block_of.
  destruct (Z.to_nat cap - length xs)%nat eqn:E; [lia|].
  simpl. by rewrite Nat.sub_0_r.
Qed.

Lemma block_of_snoc xs x cap :
  block_of (xs ++ [x]) cap = (Obj <$> xs) ++ Obj x :: replicate (Z.to_nat cap - length xs - 1) Raw.
Proof.
  unfold block_of. rewrite fmap_app, length_app, <- app_assoc. simpl.
  by rewrite Nat.sub_add_distr.
Qed.

Lemma block_of_nil cap : block_of [] cap = replicate (Z.to_nat cap) (@Raw T).
Proof. unfold block_of. simpl. by rewrite Nat.sub_0_r. Qed.

Lemma replicate_split (n k : nat) :
  (k < n)%nat → replicate n (@Raw T) = replicate k Raw ++ Raw :: replicate (n - k - 1) Raw.
Proof.
  intros Hk. replace n with (k + S (n - k - 1))%nat at 1 by lia.
  by rewrite replicate_add.
Qed.

Lemma length_block_of xs cap :
  Z.of_nat (length xs) ≤ cap → length (block_of xs cap) = Z.to_nat cap.
Proof. intros. unfold block_of. rewrite length_app, length_fmap, length_replicate. lia. Qed.

End Blocks.

(** Appending when [size_ == capacity_] and a block is held. *)
Ltac append_grow_tac xs ob nb Hob :=
  mstep ltac:(by apply get_size_eq);
  mstep ltac:(by apply Capacity_eq);
  simpl; rewrite Z.eqb_refl;
  match goal with
  | |- context [if ?n =? 0 then 1 else wrap (?n * 2)] =>
      replace (if n =? 0 then 1 else wrap (n * 2)) with (Z.max 1 (2 * n))
        by (destruct (Z.eqb_spec n 0); [lia | rewrite wrap_small; nia])
  end;
  mstep ltac:(apply RawMemory_new_ok; [lia|done|done]);
  rewrite ?bind_assoc;
  erewrite bind_Ret;
  [| apply unwind_Ret; unfold GetAddress, ptr_add; simpl;
     mstep ltac:(eapply (construct_at_mid _ _ _ _ _ _ (replicate (length xs) Raw)
                           (replicate (Z.to_nat (Z.max 1 (2 * Z.of_nat (length xs)))
                                       - length xs - 1) Raw));
                 [rewrite lookup_insert_eq; f_equal; apply replicate_split; lia
                 |rewrite length_replicate; lia | done]);
     mstep ltac:(by apply begin_eq);
     simpl;
     mstep ltac:(eapply (relocate_n_ok _ _ _ _ ob nb _ _ _ xs [] [] []);
                 [done | rewrite lookup_insert_ne, lookup_insert_ne by done;
                         rewrite Hob; f_equal; by apply block_of_full
                 | done | by rewrite lookup_insert_eq | done | done | done]);
     eapply (destroy_n_ok _ _ _ _ ob _ _ [] (relocated xs) []);
     [ rewrite lookup_insert_ne, lookup_insert_eq by done; done
     | done
     | by rewrite length_relocated ] ];
  rewrite length_relocated;
  mstep ltac:(by apply RawMemory_Swap_local_eq);
  simpl;
  mstep ltac:(eapply RawMemory_delete_ok; by rewrite lookup_insert_eq).

Ltac append_grow_finish ob nb :=
  simpl; unfold ret, ptr_add; simpl;
  rewrite wrap_small by nia;
  f_equal; [try (f_equal; lia)..|];
  f_equal;
  [ rewrite block_of_snoc; apply map_eq; intros i;
    destruct (decide (i = ob)) as [->|]; [by simplify_map_eq|];
    destruct (decide (i = nb)) as [->|]; by simplify_map_eq
  | by rewrite !insert_insert_eq
  | by rewrite <- !app_assoc ].

(** Appending into a free tail slot. *)
Ltac append_room_tac xs Hb :=
  mstep ltac:(by apply get_size_eq);
  mstep ltac:(by apply Capacity_eq);
  simpl;
  match goal with
  | |- context [?n =? ?c] => destruct (Z.eqb_spec n c); [lia|]
  end;
  mstep ltac:(by apply begin_eq);
  unfold ptr_add; simpl;
  mstep ltac:(eapply (construct_at_mid _ _ _ _ _ _ (Obj <$> xs));
              [rewrite Hb; f_equal; apply block_of_room; lia
              |rewrite length_fmap; lia | done]);
  rewrite wrap_small by lia.

(** Appending to a vector that holds no block. *)
Ltac append_first_tac :=
  mstep ltac:(by apply get_size_eq);
  mstep ltac:(by apply Capacity_eq);
  simpl;
  mstep ltac:(apply RawMemory_new_ok; [lia|done|lia]);
  rewrite ?bind_assoc;
  erewrite bind_Ret;
  [| apply unwind_Ret; unfold GetAddress, ptr_add; simpl;
     mstep ltac:(eapply (construct_at_mid _ _ _ _ _ _ [] []);
                 [by rewrite lookup_insert_eq | done | done]);
     mstep ltac:(by apply begin_eq);
     mstep ltac:(apply relocate_n_zero);
     apply destroy_n_zero ];
  mstep ltac:(by apply RawMemory_Swap_local_eq);
  simpl;
  mstep ltac:(apply RawMemory_delete_null).

Section Append.
Context {T : Type} `{Element T}.
Implicit Types (s : state T) (h : gmap loc (list (slot T))) (vs : gmap addr Vector)
  (o : list bool) (l : list (event T)) (b : loc) (xs ys : list T) (v : Vector)
  (pre post : list (slot T)).

Lemma EmplaceBack_grow h vs o l a ob xs op x :
  let n := Z.of_nat (length xs) in
  let cap' := Z.max 1 (2 * n) in
  let nb := fresh (dom h) in
  vs !! a = Some {| data_ := {| buffer_ := Some ob; capacity_ := n |}; size_ := n |} →
  h !! ob = Some (block_of xs n) →
  head o ≠ Some true → cap' * sizeof < SIZE_MOD →
  throws op x = false → nothrow relocate_op xs →
  EmplaceBack a op x (mkState h vs o l)
  = Ret (Some nb, n)
      (mkState (<[nb := block_of (xs ++ [x]) cap']> (delete ob h))
         (<[a := {| data_ := {| buffer_ := Some nb; capacity_ := cap' |}; size_ := n + 1 |}]> vs)
         (tail o)
         (l ++ [EvAlloc nb cap'; EvOp op x] ++ (EvOp relocate_op <$> xs)
            ++ (EvDtor <$> relocated xs) ++ [EvFree ob])).
Proof.
  intros n cap' nb Hv Hob Ho Hsz Hx Hxs.
  pose proof sizeof_pos as Hpos.
  assert (Hnb : h !! nb = None) by apply heap_fresh.
  assert (Hne : ob ≠ nb) by (intros ->; congruence).
  unfold EmplaceBack. subst n cap'.
  append_grow_tac xs ob nb Hob.
  mstep ltac:(apply set_size_eq; by rewrite lookup_insert_eq).
  mstep ltac:(apply end_eq; by rewrite lookup_insert_eq).
  append_grow_finish ob nb.
Qed.

Lemma PushBack_grow h vs o l a ob xs x :
  let n := Z.of_nat (length xs) in
  let cap' := Z.max 1 (2 * n) in
  let nb := fresh (dom h) in
  vs !! a = Some {| data_ := {| buffer_ := Some ob; capacity_ := n |}; size_ := n |} →
  h !! ob = Some (block_of xs n) →
  head o ≠ Some true → cap' * sizeof < SIZE_MOD →
  throws CopyCtor x = false → nothrow relocate_op xs →
  PushBack a x (mkState h vs o l)
  = Ret tt
      (mkState (<[nb := block_of (xs ++ [x]) cap']> (delete ob h))
         (<[a := {| data_ := {| buffer_ := Some nb; capacity_ := cap' |}; size_ := n + 1 |}]> vs)
         (tail o)
         (l ++ [EvAlloc nb cap'; EvOp CopyCtor x] ++ (EvOp relocate_op <$> xs)
            ++ (EvDtor <$> relocated xs) ++ [EvFree ob])).
Proof.
  intros n cap' nb Hv Hob Ho Hsz Hx Hxs.
  pose proof sizeof_pos as Hpos.
  assert (Hnb : h !! nb = None) by apply heap_fresh.
  assert (Hne : ob ≠ nb) by (intros ->; congruence).
  unfold PushBack. subst n cap'.
  append_grow_tac xs ob nb Hob.
  erewrite set_size_eq by (by rewrite lookup_insert_eq).
  append_grow_finish ob nb.
Qed.

Lemma PushBack_move_grow h vs o l a ob xs x :
  let n := Z.of_nat (length xs) in
  let cap' := Z.max 1 (2 * n) in
  let nb := fresh (dom h) in
  vs !! a = Some {| data_ := {| buffer_ := Some ob; capacity_ := n |}; size_ := n |} →
  h !! ob = Some (block_of xs n) →
  head o ≠ Some true → cap' * sizeof < SIZE_MOD →
  throws MoveCtor x = false → nothrow relocate_op xs →
  PushBack_move a x (mkState h vs o l)
  = Ret tt
      (mkState (<[nb := block_of (xs ++ [x]) cap']> (delete ob h))
         (<[a := {| data_ := {| buffer_ := Some nb; capacity_ := cap' |}; size_ := n + 1 |}]> vs)
         (tail o)
         (l ++ [EvAlloc nb cap'; EvOp MoveCtor x] ++ (EvOp relocate_op <$> xs)
            ++ (EvDtor <$> relocated xs) ++ [EvFree ob])).
Proof.
  intros n cap' nb Hv Hob Ho Hsz Hx Hxs.
  pose proof sizeof_pos as Hpos.
  assert (Hnb : h !! nb = None) by apply heap_fresh.
  assert (Hne : ob ≠ nb) by (intros ->; congruence).
  unfold PushBack_move. subst n cap'.
  append_grow_tac xs ob nb Hob.
  erewrite set_size_eq by (by rewrite lookup_insert_eq).
  append_grow_finish ob nb.
Qed.


Lemma EmplaceBack_room h vs o l a b cap xs op x :
  let n := Z.of_nat (length xs) in
  vs !! a = Some {| data_ := {| buffer_ := Some b; capacity_ := cap |}; size_ := n |} →
  h !! b = Some (block_of xs cap) →
  n < cap → cap < SIZE_MOD →
  throws op x = false →
  EmplaceBack a op x (mkState h vs o l)
  = Ret (Some b, n)
      (mkState (<[b := block_of (xs ++ [x]) cap]> h)
         (<[a := {| data_ := {| buffer_ := Some b; capacity_ := cap |}; size_ := n + 1 |}]> vs)
         o (l ++ [EvOp op x])).
Proof.
  intros n Hv Hb Hn Hcap Hx. unfold EmplaceBack. subst n.
  append_room_tac xs Hb.
  mstep ltac:(by apply set_size_eq).
  mstep ltac:(apply end_eq; by rewrite lookup_insert_eq).
  simpl. unfold ret, ptr_add. simpl. rewrite block_of_snoc.
  f_equal. f_equal. lia.
Qed.

Lemma PushBack_room h vs o l a b cap xs x :
  let n := Z.of_nat (length xs) in
  vs !! a = Some {| data_ := {| buffer_ := Some b; capacity_ := cap |}; size_ := n |} →
  h !! b = Some (block_of xs cap) →
  n < cap → cap < SIZE_MOD →
  throws CopyCtor x = false →
  PushBack a x (mkState h vs o l)
  = Ret tt
      (mkState (<[b := block_of (xs ++ [x]) cap]> h)
         (<[a := {| data_ := {| buffer_ := Some b; capacity_ := cap |}; size_ := n + 1 |}]> vs)
         o (l ++ [EvOp CopyCtor x])).
Proof.
  intros n Hv Hb Hn Hcap Hx. unfold PushBack. subst n.
  append_room_tac xs Hb.
  erewrite set_size_eq by done.
  simpl. by rewrite block_of_snoc.
Qed.

Lemma PushBack_move_room h vs o l a b cap xs x :
  let n := Z.of_nat (length xs) in
  vs !! a = Some {| data_ := {| buffer_ := Some b; capacity_ := cap |}; size_ := n |} →
  h !! b = Some (block_of xs cap) →
  n < cap → cap < SIZE_MOD →
  throws MoveCtor x = false →
  PushBack_move a x (mkState h vs o l)
  = Ret tt
      (mkState (<[b := block_of (xs ++ [x]) cap]> h)
         (<[a := {| data_ := {| buffer_ := Some b; capacity_ := cap |}; size_ := n + 1 |}]> vs)
         o (l ++ [EvOp MoveCtor x])).
Proof.
  intros n Hv Hb Hn Hcap Hx. unfold PushBack_move. subst n.
  append_room_tac xs Hb.
  erewrite set_size_eq by done.
  simpl. by rewrite block_of_snoc.
Qed.

Lemma EmplaceBack_first h vs o l a op x :
  let nb := fresh (dom h) in
  vs !! a = Some {| data_ := {| buffer_ := nullptr; capacity_ := 0 |}; size_ := 0 |} →
  head o ≠ Some true → sizeof < SIZE_MOD →
  throws op x = false →
  EmplaceBack a op x (mkState h vs o l)
  = Ret (Some nb, 0)
      (mkState (<[nb := block_of [x] 1]> h)
         (<[a := {| data_ := {| buffer_ := Some nb; capacity_ := 1 |}; size_ := 1 |}]> vs)
         (tail o) (l ++ [EvAlloc nb 1; EvOp op x])).
Proof.
  intros nb Hv Ho Hsz Hx. unfold EmplaceBack.
  append_first_tac.
  mstep ltac:(apply set_size_eq; by rewrite lookup_insert_eq).
  mstep ltac:(apply end_eq; by rewrite lookup_insert_eq).
  simpl. unfold ret. by rewrite !insert_insert_eq, <- !app_assoc.
Qed.

Lemma PushBack_first h vs o l a x :
  let nb := fresh (dom h) in
  vs !! a = Some {| data_ := {| buffer_ := nullptr; capacity_ := 0 |}; size_ := 0 |} →
  head o ≠ Some true → sizeof < SIZE_MOD →
  throws CopyCtor x = false →
  PushBack a x (mkState h vs o l)
  = Ret tt
      (mkState (<[nb := block_of [x] 1]> h)
         (<[a := {| data_ := {| buffer_ := Some nb; capacity_ := 1 |}; size_ := 1 |}]> vs)
         (tail o) (l ++ [EvAlloc nb 1; EvOp CopyCtor x])).
Proof.
  intros nb Hv Ho Hsz Hx. unfold PushBack.
  append_first_tac.
  erewrite set_size_eq by (by rewrite lookup_insert_eq).
  simpl. by rewrite !insert_insert_eq, <- !app_assoc.
Qed.

Lemma PushBack_move_first h vs o l a x :
  let nb := fresh (dom h) in
  vs !! a = Some {| data_ := {| buffer_ := nullptr; capacity_ := 0 |}; size_ := 0 |} →
  head o ≠ Some true → sizeof < SIZE_MOD →
  throws MoveCtor x = false →
  PushBack_move a x (mkState h vs o l)
  = Ret tt
      (mkState (<[nb := block_of [x] 1]> h)
         (<[a := {| data_ := {| buffer_ := Some nb; capacity_ := 1 |}; size_ := 1 |}]> vs)
         (tail o) (l ++ [EvAlloc nb 1; EvOp MoveCtor x])).
Proof.
  intros nb Hv Ho Hsz Hx. unfold PushBack_move.
  append_first_tac.
  erewrite set_size_eq by (by rewrite lookup_insert_eq).
  simpl. by rewrite !insert_insert_eq, <- !app_assoc.
Qed.

End Append.

(** ** Specifications of the append operations *)

Section Holds.
Context {T : Type} `{Element T}.
Implicit Types (s : state T) (h : gmap loc (list (slot T))) (vs : gmap addr Vector)
  (o : list bool) (l : list (event T)) (b : loc) (xs ys : list T) (v : Vector).

Lemma holds_frame s s' a a' ys c :
  frame s s' a → a' ≠ a → separate s a' a → is_Some (vecs s !! a) →
  holds s a' ys c → holds s' a' ys c.
Proof.
  intros [Hvecs Hheap] Hne Hsep [v Hv] (v' & Hv' & Hsz & Hcap & Hle & Hfit & Hst).
  exists v'. rewrite Hvecs by done. repeat split; try done.
  unfold storage_holds in *. destruct (buffer_ (data_ v')) as [b|] eqn:Hb; [|done].
  apply Hheap; [done|]. intros w Hw. eapply Hsep; eauto.
Qed.

Lemma holds_size s a xs cap :
  holds s a xs cap → Size a s = Ret (Z.of_nat (length xs)) s.
Proof.
  intros (v & Hv & Hsz & _). destruct s as [h vs o l]. simpl in *.
  unfold Size. rewrite <- Hsz. by apply get_size_eq.
Qed.

Lemma holds_capacity s a xs cap :
  holds s a xs cap → Capacity a s = Ret cap s.
Proof.
  intros (v & Hv & _ & Hcap & _). destruct s as [h vs o l]. simpl in *.
  rewrite <- Hcap. by apply Capacity_eq.
Qed.

Lemma cap_lt_mod cap : cap * sizeof < SIZE_MOD → cap < SIZE_MOD.
Proof. pose proof sizeof_pos. assert (0 < SIZE_MOD) by done. nia. Qed.

End Holds.

(** From the three explicit results of an append to its specification. *)
Ltac append_spec_tac Hh Hg ex grow room first :=
  let Hpos := fresh "Hpos" in
  pose proof sizeof_pos as Hpos;
  match type of Hh with
  | holds ?s ?a ?xs ?cap =>
      let h := fresh "h" in let vs := fresh "vs" in
      let o := fresh "o" in let l := fresh "l" in
      let b := fresh "b" in let c := fresh "c" in let n := fresh "n" in
      let Hv := fresh "Hv" in let Hsz := fresh "Hsz" in let Hcap := fresh "Hcap" in
      let Hle := fresh "Hle" in let Hfit := fresh "Hfit" in let Hst := fresh "Hst" in
      destruct s as [h vs o l];
      destruct Hh as ([[[b|] c] n] & Hv & Hsz & Hcap & Hle & Hfit & Hst);
      unfold alloc_ok, storage_holds in *; simpl in *; subst c n;
      [ destruct (Z.eqb_spec (Z.of_nat (length xs)) cap) as [Heq|Hneq];
        [ subst cap; destruct (Hg eq_refl) as [[? ?] ?];
          ex; split; [by apply grow|];
          split;
          [ eexists; simpl; rewrite lookup_insert_eq; split; [done|];
            simpl; rewrite length_app; simpl;
            repeat split;
            [lia | lia | done | unfold storage_holds; simpl; by rewrite lookup_insert_eq]
          | split; simpl;
            [ intros ? ?; by rewrite lookup_insert_ne
            | let b' := fresh "b'" in let Hb' := fresh "Hb'" in let Hown := fresh "Hown" in
              intros b' ? Hb' Hown;
              assert (b' ≠ b) by (intros ->; by eapply Hown);
              assert (b' ≠ fresh (dom h)) by (intros ->; rewrite heap_fresh in Hb'; done);
              by rewrite lookup_insert_ne, lookup_delete_ne ] ]
        | ex; split; [apply room; [done | done | lia | by apply cap_lt_mod | done]|];
          split;
          [ eexists; simpl; rewrite lookup_insert_eq; split; [done|];
            simpl; rewrite length_app; simpl;
            repeat split;
            [lia | lia | done | unfold storage_holds; simpl; by rewrite lookup_insert_eq]
          | split; simpl;
            [ intros ? ?; by rewrite lookup_insert_ne
            | let b' := fresh "b'" in let Hb' := fresh "Hb'" in let Hown := fresh "Hown" in
              intros b' ? Hb' Hown;
              assert (b' ≠ b) by (intros ->; by eapply Hown);
              by rewrite lookup_insert_ne ] ] ]
      | subst cap; destruct xs; [|simpl in *; lia];
        destruct (Hg eq_refl) as [[? ?] ?];
        ex; split; [apply first; [done | done | simpl in *; lia | done]|];
        split;
        [ eexists; simpl; rewrite lookup_insert_eq; split; [done|];
          simpl; repeat split;
          [lia | done | unfold storage_holds; simpl; by rewrite lookup_insert_eq]
        | split; simpl;
          [ intros ? ?; by rewrite lookup_insert_ne
          | let b' := fresh "b'" in let Hb' := fresh "Hb'" in let Hown := fresh "Hown" in
            intros b' ? Hb' Hown;
            assert (b' ≠ fresh (dom h)) by (intros ->; rewrite heap_fresh in Hb'; done);
            by rewrite lookup_insert_ne ] ] ]
  end.

Section AppendSpec.
Context {T : Type} `{Element T}.
Implicit Types (s : state T) (xs ys : list T).

Lemma PushBack_spec s a xs cap x :
  holds s a xs cap → throws CopyCtor x = false →
  (Z.of_nat (length xs) = cap → alloc_ok s (Z.max 1 (2 * cap)) ∧ nothrow relocate_op xs) →
  ∃ s', PushBack a x s = Ret tt s'
      ∧ holds s' a (xs ++ [x]) (if Z.of_nat (length xs) =? cap then Z.max 1 (2 * cap) else cap)
      ∧ frame s s' a.
Proof.
  intros Hh Hx Hg.
  append_spec_tac Hh Hg ltac:(eexists) PushBack_grow PushBack_room PushBack_first.
Qed.

Lemma PushBack_move_spec s a xs cap x :
  holds s a xs cap → throws MoveCtor x = false →
  (Z.of_nat (length xs) = cap → alloc_ok s (Z.max 1 (2 * cap)) ∧ nothrow relocate_op xs) →
  ∃ s', PushBack_move a x s = Ret tt s'
      ∧ holds s' a (xs ++ [x]) (if Z.of_nat (length xs) =? cap then Z.max 1 (2 * cap) else cap)
      ∧ frame s s' a.
Proof.
  intros Hh Hx Hg.
  append_spec_tac Hh Hg ltac:(eexists) PushBack_move_grow PushBack_move_room PushBack_move_first.
Qed.

Lemma EmplaceBack_spec s a xs cap op x :
  holds s a xs cap → throws op x = false →
  (Z.of_nat (length xs) = cap → alloc_ok s (Z.max 1 (2 * cap)) ∧ nothrow relocate_op xs) →
  ∃ s' p, EmplaceBack a op x s = Ret p s'
      ∧ holds s' a (xs ++ [x]) (if Z.of_nat (length xs) =? cap then Z.max 1 (2 * cap) else cap)
      ∧ frame s s' a.
Proof.
  intros Hh Hx Hg.
  append_spec_tac Hh Hg ltac:(do 2 eexists) EmplaceBack_grow EmplaceBack_room EmplaceBack_first.
Qed.

End AppendSpec.

(** ** Reading a vector back *)

Section Reading.
Context {T : Type} `{Element T}.
Implicit Types (s : state T) (xs ys : list T).

Lemma holds_contents s a xs cap : holds s a xs cap → contents s a = Some xs.
Proof.
  intros (v & Hv & Hsz & Hcap & Hle & Hfit & Hst).
  unfold contents. rewrite Hv. simpl. unfold storage_holds in Hst.
  destruct (buffer_ (data_ v)) as [b|].
  - rewrite Hst. simpl. rewrite Hsz, Nat2Z.id.
    rewrite decide_True by (rewrite length_block_of; lia).
    unfold block_of. rewrite take_app_length' by (by rewrite length_fmap).
    by apply mapM_fmap_Some.
  - rewrite Hcap in Hst. subst cap. destruct xs; [|simpl in *; lia].
    by rewrite decide_True.
Qed.

Lemma holds_index s a xs cap i x :
  holds s a xs cap → xs !! i = Some x →
  (p <- Vector_index a (Z.of_nat i) ;; read p) s = Ret x s.
Proof.
  intros (v & Hv & Hsz & Hcap & Hle & Hfit & Hst) Hi.
  pose proof (lookup_lt_Some _ _ _ Hi) as Hlt.
  destruct s as [h vs o l]. simpl in *. unfold Vector_index, RawMemory_index.
  mstep ltac:(by apply get_size_eq).
  rewrite Hsz. destruct (Z.ltb_spec (Z.of_nat i) (Z.of_nat (length xs))); [|lia].
  simpl.
  mstep ltac:(reflexivity).
  mstep ltac:(by apply get_data_eq).
  rewrite Hcap. destruct (Z.ltb_spec (Z.of_nat i) cap); [|lia].
  simpl.
  mstep ltac:(reflexivity).
  mstep ltac:(reflexivity).
  unfold GetAddress, ptr_add, storage_holds in *. simpl.
  destruct (buffer_ (data_ v)) as [b|]; [|lia].
  eapply (read_mid _ _ _ _ _ _ (Obj <$> take i xs) x
            ((Obj <$> drop (S i) xs) ++ replicate (Z.to_nat cap - length xs) Raw)).
  - rewrite Hst, Hcap. unfold block_of.
    rewrite <- (take_drop_middle xs i x Hi) at 1.
    by rewrite fmap_app, <- app_assoc.
  - rewrite length_fmap, length_take. lia.
Qed.

End Reading.


(** ** Swap, move, copy assignment, construction and destruction *)

(** Lookups in a map built by insertions. *)
Ltac lk := repeat first [rewrite lookup_insert_eq | rewrite lookup_insert_ne by done
                          | rewrite lookup_delete_ne by done]; done.

Section Transfer.
Context {T : Type} `{Element T}.
Implicit Types (s : state T) (h : gmap loc (list (slot T))) (vs : gmap addr Vector)
  (o : list bool) (l : list (event T)) (xs ys : list T) (v : Vector).

Lemma copy_assign_self a s : copy_assign a a s = Ret a s.
Proof. unfold copy_assign. by rewrite bool_decide_eq_false_2 by (intros ?; done). Qed.

Lemma move_assign_self a s : move_assign a a s = Ret a s.
Proof. unfold move_assign. by rewrite bool_decide_eq_false_2 by (intros ?; done). Qed.

Lemma Vector_eta v : {| data_ := {| buffer_ := buffer_ (data_ v); capacity_ := capacity_ (data_ v) |};
                        size_ := size_ v |} = v.
Proof. by destruct v as [[] ?]. Qed.

Lemma Swap_eq h vs o l a b va vb :
  vs !! a = Some va → vs !! b = Some vb →
  Swap a b (mkState h vs o l) = Ret tt (mkState h (<[a := vb]> (<[b := va]> vs)) o l).
Proof.
  intros Ha Hb. unfold Swap, RawMemory_Swap.
  destruct va as [da sa], vb as [db sb].
  mstep ltac:(by apply get_data_eq).
  mstep ltac:(by apply get_data_eq).
  mstep ltac:(by apply set_data_eq).
  destruct (decide (a = b)) as [->|Hne].
  - simplify_eq.
    mstep ltac:(apply set_data_eq; lk).
    mstep ltac:(apply get_size_eq; lk).
    mstep ltac:(apply get_size_eq; lk).
    mstep ltac:(apply set_size_eq; lk).
    erewrite set_size_eq by (lk).
    simpl. by rewrite !insert_insert_eq.
  - mstep ltac:(apply set_data_eq; lk).
    mstep ltac:(apply get_size_eq; lk).
    mstep ltac:(apply get_size_eq; lk).
    mstep ltac:(apply set_size_eq; lk).
    erewrite set_size_eq by (lk).
    simpl. f_equal. f_equal.
    rewrite insert_insert_eq.
    rewrite (insert_insert_ne _ b a) by done.
    by rewrite insert_insert_eq.
Qed.

Lemma Vector_move_eq h vs o l this other vo :
  vs !! this = None → vs !! other = Some vo →
  Vector_move this other (mkState h vs o l)
  = Ret tt (mkState h
              (<[other := {| data_ := {| buffer_ := nullptr; capacity_ := 0 |}; size_ := 0 |}]>
                 (<[this := vo]> vs)) o l).
Proof.
  intros Ht Ho. assert (this ≠ other) by (intros ->; congruence).
  unfold Vector_move. destruct vo as [[bo co] so].
  mstep ltac:(by apply get_eq).
  simpl.
  mstep ltac:(unfold create; simpl; by rewrite Ht).
  simpl.
  mstep ltac:(apply set_data_eq; lk).
  erewrite set_size_eq by (lk).
  simpl. by rewrite insert_insert_eq.
Qed.

Lemma move_assign_eq h vs o l this rhs vt vr :
  this ≠ rhs → vs !! this = Some vt → vs !! rhs = Some vr →
  move_assign this rhs (mkState h vs o l)
  = Ret this (mkState h
                (<[rhs := {| data_ := {| buffer_ := nullptr; capacity_ := 0 |}; size_ := 0 |}]>
                   (<[this := vr]> vs)) o l).
Proof.
  intros Hne Ht Hr. unfold move_assign, RawMemory_move_assign.
  rewrite bool_decide_eq_true_2 by done.
  destruct vr as [[br cr] sr].
  mstep ltac:(by apply get_data_eq).
  mstep ltac:(by apply set_data_eq).
  mstep ltac:(apply set_data_eq; lk).
  mstep ltac:(apply get_size_eq; lk).
  mstep ltac:(apply set_size_eq; lk).
  mstep ltac:(apply set_size_eq; lk).
  simpl. unfold ret. f_equal. f_equal.
  apply map_eq. intros i.
  destruct (decide (i = this)) as [->|]; [by simplify_map_eq|].
  destruct (decide (i = rhs)) as [->|]; by simplify_map_eq.
Qed.

Lemma holds_moved_from s a :
  vecs s !! a = Some {| data_ := {| buffer_ := nullptr; capacity_ := 0 |}; size_ := 0 |} →
  holds s a [] 0.
Proof. intros Hv. eexists. split; [done|]. by repeat split. Qed.


Lemma std_copy_zero (p q : ptr) s : std_copy p (ptr_add p 0) q s = Ret tt s.
Proof.
  unfold std_copy, ptr_add. destruct p as [bo k]. simpl.
  mstep ltac:(apply range_length_ok; lia).
  by replace (Z.to_nat (k + 0 - k)) with O by lia.
Qed.

Lemma uninitialized_copy_n_zero (p q : ptr) s : uninitialized_copy_n p 0 q s = Ret tt s.
Proof. done. Qed.

Lemma copy_assign_shrink h vs o l this rhs b rbo cap rcap xs ys :
  this ≠ rhs → rbo ≠ Some b →
  vs !! this = Some {| data_ := {| buffer_ := Some b; capacity_ := cap |};
                       size_ := Z.of_nat (length xs) |} →
  vs !! rhs = Some {| data_ := {| buffer_ := rbo; capacity_ := rcap |};
                      size_ := Z.of_nat (length ys) |} →
  h !! b = Some (block_of xs cap) →
  storage_holds h {| buffer_ := rbo; capacity_ := rcap |} ys →
  (length ys < length xs)%nat → Z.of_nat (length xs) ≤ cap < SIZE_MOD →
  Z.of_nat (length ys) ≤ rcap →
  nothrow CopyAssign ys →
  copy_assign this rhs (mkState h vs o l)
  = Ret this
      (mkState (<[b := block_of ys cap]> h)
         (<[this := {| data_ := {| buffer_ := Some b; capacity_ := cap |};
                       size_ := Z.of_nat (length ys) |}]> vs)
         o (l ++ (EvOp CopyAssign <$> ys) ++ (EvDtor <$> drop (length ys) xs))).
Proof.
  intros Hne Hnb Ht Hr Hb Hrb Hlen Hcap Hrcap Hys.
  unfold copy_assign. rewrite bool_decide_eq_true_2 by done.
  mstep ltac:(by apply get_eq).
  mstep ltac:(by apply Capacity_eq).
  simpl. destruct (Z.ltb_spec cap (Z.of_nat (length ys))); [lia|].
  mstep ltac:(by apply get_size_eq).
  mstep ltac:(by apply begin_eq).
  mstep ltac:(by apply begin_eq).
  simpl. destruct (Z.ltb_spec (Z.of_nat (length ys)) (Z.of_nat (length xs))); [|lia].
  assert (Hsplit : block_of xs cap
                   = [] ++ (Obj <$> take (length ys) xs)
                     ++ ((Obj <$> drop (length ys) xs) ++ replicate (Z.to_nat cap - length xs) Raw)).
  { unfold block_of. rewrite <- (take_drop (length ys) xs) at 1.
    by rewrite fmap_app, <- app_assoc. }
  assert (Hcopy : std_copy (rbo, 0) (ptr_add (rbo, 0) (Z.of_nat (length ys))) (Some b, 0)
                    (mkState h vs o l)
                  = Ret tt (mkState
                      (<[b := [] ++ (Obj <$> ys)
                              ++ ((Obj <$> drop (length ys) xs)
                                  ++ replicate (Z.to_nat cap - length xs) Raw)]> h)
                      vs o (l ++ (EvOp CopyAssign <$> ys)))).
  { destruct ys as [|y ys'].
    - rewrite std_copy_zero. simpl. rewrite app_nil_r. f_equal.
      rewrite insert_id; [done|]. by rewrite Hb, Hsplit.
    - destruct rbo as [rb|]; [|unfold storage_holds in Hrb; simpl in *; lia].
      unfold ptr_add. simpl fst. simpl snd.
      eapply (std_copy_ok _ _ _ _ rb b _ _ _ (y :: ys') (take (length (y :: ys')) xs) []
                (replicate (Z.to_nat rcap - length (y :: ys')) Raw) []).
      + congruence.
      + rewrite length_take. lia.
      + done.
      + done.
      + done.
      + by rewrite Hb, Hsplit.
      + done.
      + done. }
  mstep ltac:(exact Hcopy).
  mstep ltac:(eapply (destroy_n_ok _ _ _ _ b _ _ (Obj <$> ys) (drop (length ys) xs)
                        (replicate (Z.to_nat cap - length xs) Raw));
              [ by rewrite lookup_insert_eq
              | unfold ptr_add; simpl; rewrite length_fmap; lia
              | rewrite length_drop, wrap_small; lia ]).
  mstep ltac:(by apply set_size_eq).
  simpl. unfold ret. f_equal. f_equal.
  - rewrite insert_insert_eq. f_equal. unfold block_of.
    rewrite length_drop, <- replicate_add. do 2 f_equal. lia.
  - by rewrite <- app_assoc.
Qed.


Lemma copy_assign_extend h vs o l this rhs b rb cap rcap xs ys :
  this ≠ rhs → rb ≠ b →
  vs !! this = Some {| data_ := {| buffer_ := Some b; capacity_ := cap |};
                       size_ := Z.of_nat (length xs) |} →
  vs !! rhs = Some {| data_ := {| buffer_ := Some rb; capacity_ := rcap |};
                      size_ := Z.of_nat (length ys) |} →
  h !! b = Some (block_of xs cap) →
  h !! rb = Some (block_of ys rcap) →
  (length xs ≤ length ys)%nat → Z.of_nat (length ys) ≤ cap < SIZE_MOD →
  Z.of_nat (length ys) ≤ rcap →
  nothrow CopyAssign (take (length xs) ys) → nothrow CopyCtor (drop (length xs) ys) →
  copy_assign this rhs (mkState h vs o l)
  = Ret this
      (mkState (<[b := block_of ys cap]> h)
         (<[this := {| data_ := {| buffer_ := Some b; capacity_ := cap |};
                       size_ := Z.of_nat (length ys) |}]> vs)
         o (l ++ (EvOp CopyAssign <$> take (length xs) ys)
              ++ (EvOp CopyCtor <$> drop (length xs) ys))).
Proof.
  intros Hne Hnb Ht Hr Hb Hrb Hlen Hcap Hrcap Hys1 Hys2.
  unfold copy_assign. rewrite bool_decide_eq_true_2 by done.
  mstep ltac:(by apply get_eq).
  mstep ltac:(by apply Capacity_eq).
  simpl. destruct (Z.ltb_spec cap (Z.of_nat (length ys))); [lia|].
  mstep ltac:(by apply get_size_eq).
  mstep ltac:(by apply begin_eq).
  mstep ltac:(by apply begin_eq).
  simpl. destruct (Z.ltb_spec (Z.of_nat (length ys)) (Z.of_nat (length xs))); [lia|].
  set (ys1 := take (length xs) ys) in *. set (ys2 := drop (length xs) ys) in *.
  assert (Hl1 : length ys1 = length xs) by (subst ys1; rewrite length_take; lia).
  assert (Hl2 : length ys2 = (length ys - length xs)%nat) by (subst ys2; by rewrite length_drop).
  assert (Hsrc : block_of ys rcap
                 = (Obj <$> ys1) ++ (Obj <$> ys2) ++ replicate (Z.to_nat rcap - length ys) Raw).
  { unfold block_of. rewrite <- (take_drop (length xs) ys) at 1.
    by rewrite fmap_app, <- app_assoc. }
  assert (Hdst : block_of xs cap
                 = (Obj <$> xs) ++ replicate (length ys2) Raw
                   ++ replicate (Z.to_nat cap - length ys) Raw).
  { unfold block_of. rewrite <- replicate_add. do 2 f_equal. lia. }
  unfold ptr_add. simpl fst. simpl snd.
  mstep ltac:(eapply (std_copy_ok _ _ _ _ rb b _ _ _ ys1 xs []
                        ((Obj <$> ys2) ++ replicate (Z.to_nat rcap - length ys) Raw) []);
              [ done | done | by rewrite Hrb, Hsrc | done | simpl; lia
              | by rewrite Hb, Hdst | done | done ]).
  mstep ltac:(eapply (uninitialized_copy_n_ok _ _ _ _ rb b _ _ _ ys2 (Obj <$> ys1)
                        (replicate (Z.to_nat rcap - length ys) Raw) (Obj <$> ys1)
                        (replicate (Z.to_nat cap - length ys) Raw));
              [ done | rewrite lookup_insert_ne by done; by rewrite Hrb, Hsrc
              | rewrite length_fmap; lia
              | by rewrite lookup_insert_eq
              | rewrite length_fmap; lia
              | rewrite wrap_small; lia
              | done ]).
  mstep ltac:(by apply set_size_eq).
  simpl. unfold ret. f_equal. f_equal.
  - rewrite insert_insert_eq. f_equal. unfold block_of.
    rewrite app_assoc, <- fmap_app. subst ys1 ys2. by rewrite take_drop.
  - by rewrite <- app_assoc.
Qed.

Lemma copy_assign_empty h vs o l this rhs tbo rbo rcap cap :
  this ≠ rhs →
  vs !! this = Some {| data_ := {| buffer_ := tbo; capacity_ := cap |}; size_ := 0 |} →
  vs !! rhs = Some {| data_ := {| buffer_ := rbo; capacity_ := rcap |}; size_ := 0 |} →
  0 ≤ cap →
  copy_assign this rhs (mkState h vs o l) = Ret this (mkState h vs o l).
Proof.
  intros Hne Ht Hr Hcap.
  unfold copy_assign. rewrite bool_decide_eq_true_2 by done.
  mstep ltac:(by apply get_eq).
  mstep ltac:(by apply Capacity_eq).
  simpl. destruct (Z.ltb_spec cap 0); [lia|].
  mstep ltac:(by apply get_size_eq).
  mstep ltac:(by apply begin_eq).
  mstep ltac:(by apply begin_eq).
  simpl.
  mstep ltac:(apply std_copy_zero).
  mstep ltac:(apply uninitialized_copy_n_zero).
  mstep ltac:(by apply set_size_eq).
  simpl. unfold ret. by rewrite insert_id.
Qed.


Lemma create_eq h vs o l a v :
  vs !! a = None → create a v (mkState h vs o l) = Ret tt (mkState h (<[a := v]> vs) o l).
Proof. intros Ha. unfold create. simpl. by rewrite Ha. Qed.

Lemma Vector_copy_ok h vs o l this other rb rcap ys :
  let n := Z.of_nat (length ys) in
  let nb := fresh (dom h) in
  vs !! this = None →
  vs !! other = Some {| data_ := {| buffer_ := Some rb; capacity_ := rcap |}; size_ := n |} →
  h !! rb = Some (block_of ys rcap) →
  0 < n → head o ≠ Some true → n * sizeof < SIZE_MOD →
  nothrow CopyCtor ys →
  Vector_copy this other (mkState h vs o l)
  = Ret tt
      (mkState (<[nb := block_of ys n]> h)
         (<[this := {| data_ := {| buffer_ := Some nb; capacity_ := n |}; size_ := n |}]> vs)
         (tail o) (l ++ [EvAlloc nb n] ++ (EvOp CopyCtor <$> ys))).
Proof.
  intros n nb Ht Ho Hrb Hn Hoom Hsz Hys.
  assert (Hnb : h !! nb = None) by apply heap_fresh.
  assert (Hne : rb ≠ nb) by (intros ->; congruence).
  unfold Vector_copy.
  mstep ltac:(by apply get_eq).
  simpl.
  mstep ltac:(by apply RawMemory_new_ok).
  rewrite ?bind_assoc.
  erewrite bind_Ret; cycle 1.
  { apply unwind_Ret.
    mstep ltac:(by apply begin_eq).
    unfold GetAddress. simpl.
    eapply (uninitialized_copy_n_ok _ _ _ _ rb nb _ _ _ ys []
              (replicate (Z.to_nat rcap - length ys) Raw) [] []).
    - done.
    - by rewrite lookup_insert_ne.
    - done.
    - rewrite lookup_insert_eq. subst n. by rewrite Nat2Z.id, app_nil_r.
    - done.
    - done.
    - done. }
  erewrite create_eq by done.
  rewrite insert_insert_eq. unfold block_of. subst n.
  by rewrite Nat2Z.id, Nat.sub_diag, <- app_assoc.
Qed.

Lemma Vector_copy_bad_alloc h vs o l this other vo :
  vs !! other = Some vo → size_ vo ≠ 0 → head o = Some true →
  Vector_copy this other (mkState h vs o l) = Throw bad_alloc (mkState h vs (tail o) l).
Proof.
  intros Ho Hn Hoom. unfold Vector_copy.
  mstep ltac:(by apply get_eq).
  erewrite bind_Throw; [done|]. by apply RawMemory_new_throws.
Qed.

Lemma Vector_copy_throws h vs o l this other rb rcap ys1 y ys2 :
  let n := Z.of_nat (length (ys1 ++ y :: ys2)) in
  let nb := fresh (dom h) in
  vs !! other = Some {| data_ := {| buffer_ := Some rb; capacity_ := rcap |}; size_ := n |} →
  h !! rb = Some (block_of (ys1 ++ y :: ys2) rcap) →
  head o ≠ Some true → n * sizeof < SIZE_MOD →
  nothrow CopyCtor ys1 → throws CopyCtor y = true →
  Vector_copy this other (mkState h vs o l)
  = Throw (elem_exn CopyCtor)
      (mkState h vs (tail o)
         (l ++ [EvAlloc nb n] ++ (EvOp CopyCtor <$> ys1) ++ (EvDtor <$> ys1) ++ [EvFree nb])).
Proof.
  intros n nb Ho Hrb Hoom Hsz Hys Hy.
  assert (Hnb : h !! nb = None) by apply heap_fresh.
  assert (Hne : rb ≠ nb) by (intros ->; congruence).
  assert (0 < n) by (subst n; rewrite length_app; simpl; lia).
  unfold Vector_copy.
  mstep ltac:(by apply get_eq).
  simpl.
  mstep ltac:(by apply RawMemory_new_ok).
  rewrite ?bind_assoc.
  erewrite bind_Throw; [done|].
  eapply unwind_Throw.
  - mstep ltac:(by apply begin_eq).
    unfold GetAddress. simpl.
    eapply (uninitialized_copy_n_throws _ _ _ _ rb nb _ _ _ ys1 y ys2 []
              (replicate (Z.to_nat rcap - length (ys1 ++ y :: ys2)) Raw) [] []).
    + done.
    + by rewrite lookup_insert_ne.
    + done.
    + rewrite lookup_insert_eq. subst n. by rewrite Nat2Z.id, app_nil_r.
    + done.
    + done.
    + done.
    + done.
  - erewrite RawMemory_delete_ok by (by rewrite lookup_insert_eq).
    rewrite delete_insert_eq, delete_id by done.
    by rewrite <- !app_assoc.
Qed.

Lemma Vector_delete_block h vs o l a b cap xs :
  vs !! a = Some {| data_ := {| buffer_ := Some b; capacity_ := cap |};
                    size_ := Z.of_nat (length xs) |} →
  h !! b = Some (block_of xs cap) →
  Vector_delete a (mkState h vs o l)
  = Ret tt (mkState (delete b h) (delete a vs) o (l ++ (EvDtor <$> xs) ++ [EvFree b])).
Proof.
  intros Ha Hb. unfold Vector_delete.
  mstep ltac:(by apply begin_eq).
  mstep ltac:(by apply get_size_eq).
  simpl.
  mstep ltac:(by eapply (destroy_n_ok _ _ _ _ b _ _ [] xs)).
  mstep ltac:(by apply get_data_eq).
  simpl.
  mstep ltac:(eapply RawMemory_delete_ok; by rewrite lookup_insert_eq).
  unfold remove. simpl. by rewrite delete_insert_eq, <- app_assoc.
Qed.

Lemma Vector_delete_null h vs o l a cap :
  vs !! a = Some {| data_ := {| buffer_ := nullptr; capacity_ := cap |}; size_ := 0 |} →
  Vector_delete a (mkState h vs o l) = Ret tt (mkState h (delete a vs) o l).
Proof.
  intros Ha. unfold Vector_delete.
  mstep ltac:(by apply begin_eq).
  mstep ltac:(by apply get_size_eq).
  simpl.
  mstep ltac:(apply destroy_n_zero).
  mstep ltac:(by apply get_data_eq).
  done.
Qed.


Lemma vecs_fresh vs : vs !! fresh (dom vs) = None.
Proof. apply not_elem_of_dom, is_fresh. Qed.

Lemma local_addr_eq h vs o l :
  local_addr (mkState h vs o l) = Ret (fresh (dom vs)) (mkState h vs o l).
Proof. done. Qed.

Lemma copy_assign_grow_block h vs o l this rhs b cap xs rb rcap ys :
  let n := Z.of_nat (length ys) in
  let nb := fresh (dom h) in
  this ≠ rhs → b ≠ rb →
  vs !! this = Some {| data_ := {| buffer_ := Some b; capacity_ := cap |};
                       size_ := Z.of_nat (length xs) |} →
  vs !! rhs = Some {| data_ := {| buffer_ := Some rb; capacity_ := rcap |}; size_ := n |} →
  h !! b = Some (block_of xs cap) → h !! rb = Some (block_of ys rcap) →
  0 ≤ cap < n → head o ≠ Some true → n * sizeof < SIZE_MOD →
  nothrow CopyCtor ys →
  copy_assign this rhs (mkState h vs o l)
  = Ret this
      (mkState (delete b (<[nb := block_of ys n]> h))
         (<[this := {| data_ := {| buffer_ := Some nb; capacity_ := n |}; size_ := n |}]> vs)
         (tail o)
         (l ++ [EvAlloc nb n] ++ (EvOp CopyCtor <$> ys) ++ (EvDtor <$> xs) ++ [EvFree b])).
Proof.
  intros n nb Hne Hnb Ht Hr Hb Hrb Hcap Hoom Hsz Hys.
  pose proof (vecs_fresh vs) as Htmp. set (tmp := fresh (dom vs)) in *.
  assert (tmp ≠ this) by (intros ->; congruence).
  assert (tmp ≠ rhs) by (intros ->; congruence).
  assert (b ≠ nb) by (intros ->; subst nb; rewrite heap_fresh in Hb; done).
  unfold copy_assign. rewrite bool_decide_eq_true_2 by done.
  mstep ltac:(by apply get_eq).
  mstep ltac:(by apply Capacity_eq).
  simpl. destruct (Z.ltb_spec cap n); [|lia].
  mstep ltac:(apply local_addr_eq).
  mstep ltac:(eapply Vector_copy_ok; [done | done | done | lia | done | done | done]).
  mstep ltac:(apply Swap_eq; [by rewrite lookup_insert_ne | by rewrite lookup_insert_eq]).
  mstep ltac:(eapply (Vector_delete_block _ _ _ _ _ b cap xs);
              [by rewrite lookup_insert_ne, lookup_insert_eq | by rewrite lookup_insert_ne]).
  unfold ret. f_equal. f_equal.
  - apply map_eq. intros i.
    destruct (decide (i = tmp)) as [->|]; [by simplify_map_eq|].
    destruct (decide (i = this)) as [->|]; by simplify_map_eq.
  - by rewrite <- !app_assoc.
Qed.

Lemma copy_assign_grow_null h vs o l this rhs rb rcap ys :
  let n := Z.of_nat (length ys) in
  let nb := fresh (dom h) in
  this ≠ rhs →
  vs !! this = Some {| data_ := {| buffer_ := nullptr; capacity_ := 0 |}; size_ := 0 |} →
  vs !! rhs = Some {| data_ := {| buffer_ := Some rb; capacity_ := rcap |}; size_ := n |} →
  h !! rb = Some (block_of ys rcap) →
  0 < n → head o ≠ Some true → n * sizeof < SIZE_MOD →
  nothrow CopyCtor ys →
  copy_assign this rhs (mkState h vs o l)
  = Ret this
      (mkState (<[nb := block_of ys n]> h)
         (<[this := {| data_ := {| buffer_ := Some nb; capacity_ := n |}; size_ := n |}]> vs)
         (tail o) (l ++ [EvAlloc nb n] ++ (EvOp CopyCtor <$> ys))).
Proof.
  intros n nb Hne Ht Hr Hrb Hn Hoom Hsz Hys.
  pose proof (vecs_fresh vs) as Htmp. set (tmp := fresh (dom vs)) in *.
  assert (tmp ≠ this) by (intros ->; congruence).
  assert (tmp ≠ rhs) by (intros ->; congruence).
  unfold copy_assign. rewrite bool_decide_eq_true_2 by done.
  mstep ltac:(by apply get_eq).
  mstep ltac:(by apply Capacity_eq).
  simpl. destruct (Z.ltb_spec 0 n); [|lia].
  mstep ltac:(apply local_addr_eq).
  mstep ltac:(eapply Vector_copy_ok; [done | done | done | lia | done | done | done]).
  mstep ltac:(apply Swap_eq; [by rewrite lookup_insert_ne | by rewrite lookup_insert_eq]).
  mstep ltac:(eapply (Vector_delete_null _ _ _ _ _ 0);
              by rewrite lookup_insert_ne, lookup_insert_eq).
  unfold ret. f_equal. f_equal.
  apply map_eq. intros i.
  destruct (decide (i = tmp)) as [->|]; [by simplify_map_eq|].
  destruct (decide (i = this)) as [->|]; by simplify_map_eq.
Qed.

Lemma copy_assign_grow_bad_alloc h vs o l this rhs vt vr :
  this ≠ rhs → vs !! this = Some vt → vs !! rhs = Some vr →
  0 ≤ capacity_ (data_ vt) < size_ vr → head o = Some true →
  copy_assign this rhs (mkState h vs o l) = Throw bad_alloc (mkState h vs (tail o) l).
Proof.
  intros Hne Ht Hr Hcap Hoom.
  unfold copy_assign. rewrite bool_decide_eq_true_2 by done.
  mstep ltac:(by apply get_eq).
  mstep ltac:(by apply Capacity_eq).
  simpl. destruct (Z.ltb_spec (capacity_ (data_ vt)) (size_ vr)); [|lia].
  mstep ltac:(apply local_addr_eq).
  rewrite ?bind_assoc.
  erewrite bind_Throw; [done|].
  eapply Vector_copy_bad_alloc; [done | lia | done].
Qed.

Lemma copy_assign_grow_throws h vs o l this rhs vt rb rcap ys1 y ys2 :
  let n := Z.of_nat (length (ys1 ++ y :: ys2)) in
  let nb := fresh (dom h) in
  this ≠ rhs → vs !! this = Some vt →
  vs !! rhs = Some {| data_ := {| buffer_ := Some rb; capacity_ := rcap |}; size_ := n |} →
  h !! rb = Some (block_of (ys1 ++ y :: ys2) rcap) →
  capacity_ (data_ vt) < n → head o ≠ Some true → n * sizeof < SIZE_MOD →
  nothrow CopyCtor ys1 → throws CopyCtor y = true →
  copy_assign this rhs (mkState h vs o l)
  = Throw (elem_exn CopyCtor)
      (mkState h vs (tail o)
         (l ++ [EvAlloc nb n] ++ (EvOp CopyCtor <$> ys1) ++ (EvDtor <$> ys1) ++ [EvFree nb])).
Proof.
  intros n nb Hne Ht Hr Hrb Hcap Hoom Hsz Hys Hy.
  unfold copy_assign. rewrite bool_decide_eq_true_2 by done.
  mstep ltac:(by apply get_eq).
  mstep ltac:(by apply Capacity_eq).
  simpl. destruct (Z.ltb_spec (capacity_ (data_ vt)) n); [|lia].
  mstep ltac:(apply local_addr_eq).
  rewrite ?bind_assoc.
  erewrite bind_Throw; [done|].
  by eapply Vector_copy_throws.
Qed.

Lemma nothrow_split op xs :
  nothrow op xs
  ∨ ∃ xs1 x xs2, xs = xs1 ++ x :: xs2 ∧ nothrow op xs1 ∧ throws op x = true.
Proof.
  induction xs as [|x xs IH].
  - left. constructor.
  - destruct (throws op x) eqn:Hx.
    + right. exists [], x, xs. repeat split; [constructor | done].
    + destruct IH as [Hxs | (xs1 & y & xs2 & -> & Hxs1 & Hy)].
      * left. by constructor.
      * right. exists (x :: xs1), y, xs2. repeat split; [by constructor | done].
Qed.

Lemma nothrow_not_split op xs1 x xs2 :
  throws op x = true → ¬ nothrow op (xs1 ++ x :: xs2).
Proof.
  intros Hx Hall. apply Forall_app in Hall as [_ Hall].
  apply Forall_cons in Hall as [Hx' _]. congruence.
Qed.

End Transfer.

(** ** [Emplace] and [Erase] *)

Section InsertErase.
Context {T : Type} `{Element T}.
Implicit Types (s : state T) (h : gmap loc (list (slot T))) (vs : gmap addr Vector)
  (o : list bool) (l : list (event T)) (xs ys : list T) (v : Vector).

Lemma index_of_eq h vs o l a v k :
  vs !! a = Some v → 0 ≤ k < SIZE_MOD →
  index_of a (buffer_ (data_ v), k) (mkState h vs o l) = Ret k (mkState h vs o l).
Proof.
  intros Hv Hk. unfold index_of.
  mstep ltac:(by apply cbegin_eq).
  simpl. rewrite bool_decide_eq_true_2 by done. simpl.
  mstep ltac:(reflexivity).
  unfold ret. by rewrite Z.sub_0_r, wrap_small.
Qed.

Lemma std_move_at h vs o l b k k1 ke z ys pre post :
  h !! b = Some (pre ++ Obj z :: (Obj <$> ys) ++ post) → k = Z.of_nat (length pre) →
  k1 = k + 1 → ke = k + 1 + Z.of_nat (length ys) →
  nothrow MoveAssign ys →
  std_move (Some b, k1) (Some b, ke) (Some b, k) (mkState h vs o l)
  = Ret tt (mkState (<[b := pre ++ (Obj <$> ys) ++ Obj (hole_forward z ys) :: post]> h) vs o
              (l ++ (EvOp MoveAssign <$> ys))).
Proof. intros Hb Hk -> Hke Hys. by eapply std_move_ok. Qed.

Lemma std_move_backward_at h vs o l b k ke kl z ys pre post :
  h !! b = Some (pre ++ (Obj <$> ys) ++ Obj z :: post) → k = Z.of_nat (length pre) →
  ke = k + Z.of_nat (length ys) → kl = ke + 1 →
  nothrow MoveAssign ys →
  std_move_backward (Some b, k) (Some b, ke) (Some b, kl) (mkState h vs o l)
  = Ret tt (mkState (<[b := pre ++ Obj (hole_backward z ys) :: (Obj <$> ys) ++ post]> h) vs o
              (l ++ (EvOp MoveAssign <$> rev ys))).
Proof. intros Hb Hk Hke -> Hys. by eapply std_move_backward_ok. Qed.

Lemma move_construct_at h vs o l b k kd pre z post :
  h !! b = Some (pre ++ Obj z :: Raw :: post) → k = Z.of_nat (length pre) →
  kd = k + 1 →
  throws MoveCtor z = false →
  move_construct (Some b, k) (Some b, kd) (mkState h vs o l)
  = Ret tt (mkState (<[b := pre ++ Obj (moved_from z) :: Obj z :: post]> h) vs o
              (l ++ [EvOp MoveCtor z])).
Proof. intros Hb Hk -> Hz. by eapply move_construct_next. Qed.

Lemma Erase_eq h vs o l a b cap xs1 z ys :
  let n := Z.of_nat (length (xs1 ++ z :: ys)) in
  let k := Z.of_nat (length xs1) in
  vs !! a = Some {| data_ := {| buffer_ := Some b; capacity_ := cap |}; size_ := n |} →
  h !! b = Some (block_of (xs1 ++ z :: ys) cap) →
  n ≤ cap < SIZE_MOD →
  nothrow MoveAssign ys →
  Erase a (Some b, k) (mkState h vs o l)
  = Ret (Some b, k)
      (mkState (<[b := block_of (xs1 ++ ys) cap]> h)
         (<[a := {| data_ := {| buffer_ := Some b; capacity_ := cap |}; size_ := n - 1 |}]> vs)
         o (l ++ (EvOp MoveAssign <$> ys) ++ [EvDtor (hole_forward z ys)])).
Proof.
  intros n k Hv Hb Hcap Hys.
  assert (Hn : n = k + 1 + Z.of_nat (length ys)).
  { subst n k. rewrite length_app. simpl. lia. }
  unfold Erase.
  mstep ltac:(by apply get_size_eq).
  simpl. destruct (Z.ltb_spec 0 n); [|lia]. simpl.
  mstep ltac:(reflexivity).
  mstep ltac:(apply (index_of_eq _ _ _ _ _ _ k Hv); lia).
  mstep ltac:(by apply begin_eq).
  mstep ltac:(by apply end_eq).
  unfold ptr_add. simpl.
  set (rest := replicate (Z.to_nat cap - length (xs1 ++ z :: ys)) (@Raw T)).
  mstep ltac:(eapply (std_move_at _ _ _ _ b _ _ n z ys (Obj <$> xs1) rest);
              [ rewrite Hb; unfold block_of; by rewrite fmap_app, <- app_assoc
              | rewrite length_fmap; lia | lia | lia | done ]).
  mstep ltac:(eapply (destroy_n_ok _ _ _ _ b _ _ ((Obj <$> xs1) ++ (Obj <$> ys))
                        [hole_forward z ys] rest);
              [ rewrite lookup_insert_eq; by rewrite <- app_assoc
              | rewrite length_app, !length_fmap; lia | done ]).
  mstep ltac:(by apply set_size_eq).
  simpl. unfold ret. rewrite wrap_small by lia. f_equal. f_equal.
  - rewrite insert_insert_eq. f_equal. unfold block_of, rest.
    rewrite fmap_app, <- !app_assoc. do 2 f_equal. simpl.
    rewrite !length_app. simpl.
    replace (Z.to_nat cap - (length xs1 + length ys))%nat
      with (S (Z.to_nat cap - (length xs1 + S (length ys)))) by lia.
    done.
  - by rewrite <- !app_assoc.
Qed.


Lemma Emplace_middle h vs o l a b cap xs1 ys z op x :
  let n := Z.of_nat (length (xs1 ++ ys ++ [z])) in
  let k := Z.of_nat (length xs1) in
  vs !! a = Some {| data_ := {| buffer_ := Some b; capacity_ := cap |}; size_ := n |} →
  h !! b = Some (block_of (xs1 ++ ys ++ [z]) cap) →
  n < cap → cap < SIZE_MOD →
  throws op x = false → throws MoveCtor z = false →
  nothrow MoveAssign ys → throws MoveAssign x = false →
  Emplace a (Some b, k) op x (mkState h vs o l)
  = Ret (Some b, k)
      (mkState (<[b := block_of (xs1 ++ x :: ys ++ [z]) cap]> h)
         (<[a := {| data_ := {| buffer_ := Some b; capacity_ := cap |}; size_ := n + 1 |}]> vs)
         o (l ++ [EvOp op x; EvOp MoveCtor z] ++ (EvOp MoveAssign <$> rev ys)
              ++ [EvOp MoveAssign x; EvDtor (moved_from x)])).
Proof.
  intros n k Hv Hb Hn Hcap Hx Hz Hys Hx'.
  assert (Hnk : n = k + Z.of_nat (length ys) + 1).
  { subst n k. rewrite !length_app. simpl. lia. }
  set (rest := replicate (Z.to_nat cap - length (xs1 ++ ys ++ [z]) - 1) (@Raw T)).
  assert (Hblk : block_of (xs1 ++ ys ++ [z]) cap
                 = ((Obj <$> xs1) ++ (Obj <$> ys)) ++ Obj z :: Raw :: rest).
  { rewrite block_of_room by done. by rewrite !fmap_app, <- !app_assoc. }
  unfold Emplace.
  mstep ltac:(apply (index_of_eq _ _ _ _ _ _ k Hv); lia).
  mstep ltac:(by apply get_size_eq).
  mstep ltac:(by apply Capacity_eq).
  simpl. destruct (Z.eqb_spec n cap); [lia|].
  mstep ltac:(by apply end_eq).
  mstep ltac:(by apply begin_eq).
  simpl. rewrite bool_decide_eq_false_2 by (intros [=]; lia).
  rewrite Hx.
  mstep ltac:(apply emit_eq).
  rewrite ?bind_assoc.
  erewrite bind_Ret; cycle 1.
  { apply unwind_Ret. unfold ptr_add. simpl.
    mstep ltac:(eapply (move_construct_at _ _ _ _ b _ _ ((Obj <$> xs1) ++ (Obj <$> ys)) z rest);
                [ by rewrite Hb, Hblk
                | rewrite length_app, !length_fmap; lia | lia | done ]).
    mstep ltac:(eapply (std_move_backward_at _ _ _ _ b _ _ _ (moved_from z) ys (Obj <$> xs1)
                          (Obj z :: rest));
                [ rewrite lookup_insert_eq; by rewrite <- app_assoc
                | rewrite length_fmap; lia | lia | lia | done ]).
    mstep ltac:(apply get_data_eq; exact Hv).
    unfold RawMemory_index. simpl.
    destruct (Z.ltb_spec k cap); [|lia]. simpl.
    mstep ltac:(reflexivity).
    mstep ltac:(reflexivity).
    unfold GetAddress, ptr_add. simpl.
    eapply (assign_at_mid _ _ _ _ b _ (Obj <$> xs1) _ ((Obj <$> ys) ++ Obj z :: rest)).
    - by rewrite lookup_insert_eq.
    - rewrite length_fmap. lia.
    - done. }
  mstep ltac:(apply emit_eq).
  mstep ltac:(by apply set_size_eq).
  mstep ltac:(apply begin_eq; by rewrite lookup_insert_eq).
  simpl. unfold ret, ptr_add. simpl. rewrite Z.add_0_l, wrap_small by lia.
  f_equal. f_equal.
  - rewrite !insert_insert_eq. f_equal. unfold block_of, rest.
    rewrite !fmap_app, <- !app_assoc. simpl.
    change (list_fmap T (slot T) Obj (ys ++ [z])) with (Obj <$> ys ++ [z]).
    rewrite fmap_app, <- app_assoc. simpl.
    do 4 f_equal. rewrite !length_app. simpl. rewrite !length_app. simpl. f_equal.
    clear. lia.
  - by rewrite <- !app_assoc.
Qed.


Lemma Emplace_end h vs o l a b cap xs op x :
  let n := Z.of_nat (length xs) in
  vs !! a = Some {| data_ := {| buffer_ := Some b; capacity_ := cap |}; size_ := n |} →
  h !! b = Some (block_of xs cap) →
  n < cap → cap < SIZE_MOD →
  throws op x = false →
  Emplace a (Some b, n) op x (mkState h vs o l)
  = Ret (Some b, n)
      (mkState (<[b := block_of (xs ++ [x]) cap]> h)
         (<[a := {| data_ := {| buffer_ := Some b; capacity_ := cap |}; size_ := n + 1 |}]> vs)
         o (l ++ [EvOp op x])).
Proof.
  intros n Hv Hb Hn Hcap Hx.
  unfold Emplace.
  mstep ltac:(apply (index_of_eq _ _ _ _ _ _ n Hv); lia).
  mstep ltac:(by apply get_size_eq).
  mstep ltac:(by apply Capacity_eq).
  simpl. destruct (Z.eqb_spec n cap); [lia|].
  mstep ltac:(by apply end_eq).
  mstep ltac:(by apply begin_eq).
  simpl. rewrite bool_decide_eq_true_2 by done.
  unfold ptr_add. simpl.
  mstep ltac:(eapply (construct_at_mid _ _ _ _ _ _ (Obj <$> xs));
              [rewrite Hb; f_equal; apply block_of_room; lia
              |rewrite length_fmap; lia | done]).
  mstep ltac:(by apply set_size_eq).
  mstep ltac:(apply begin_eq; by rewrite lookup_insert_eq).
  simpl. unfold ret. rewrite wrap_small by lia. by rewrite block_of_snoc.
Qed.

Lemma relocate_pair {A} (p q p' q' : ptr) n n' (k : unit → M T A) s :
  bind (if relocate_by_move
        then uninitialized_move_n p n q ;;; uninitialized_move_n p' n' q'
        else uninitialized_copy_n p n q ;;; uninitialized_copy_n p' n' q') k s
  = (relocate_n p n q ;;; relocate_n p' n' q' ;;; k tt) s.
Proof.
  unfold relocate_n, bind.
  destruct relocate_by_move.
  - destruct (uninitialized_move_n p n q s) as [[] s1| |]; [|done..].
    by destruct (uninitialized_move_n p' n' q' s1) as [[] s2| |].
  - destruct (uninitialized_copy_n p n q s) as [[] s1| |]; [|done..].
    by destruct (uninitialized_copy_n p' n' q' s1) as [[] s2| |].
Qed.

Lemma relocated_app xs1 xs2 : relocated (xs1 ++ xs2) = relocated xs1 ++ relocated xs2.
Proof. unfold relocated. destruct relocate_by_move; [apply fmap_app | done]. Qed.

Lemma Emplace_grow h vs o l a ob xs1 xs2 op x :
  let n := Z.of_nat (length (xs1 ++ xs2)) in
  let k := Z.of_nat (length xs1) in
  let cap' := Z.max 1 (2 * n) in
  let nb := fresh (dom h) in
  vs !! a = Some {| data_ := {| buffer_ := Some ob; capacity_ := n |}; size_ := n |} →
  h !! ob = Some (block_of (xs1 ++ xs2) n) →
  head o ≠ Some true → cap' * sizeof < SIZE_MOD →
  throws op x = false → nothrow relocate_op (xs1 ++ xs2) →
  Emplace a (Some ob, k) op x (mkState h vs o l)
  = Ret (Some nb, k)
      (mkState (<[nb := block_of (xs1 ++ x :: xs2) cap']> (delete ob h))
         (<[a := {| data_ := {| buffer_ := Some nb; capacity_ := cap' |}; size_ := n + 1 |}]> vs)
         (tail o)
         (l ++ [EvAlloc nb cap'; EvOp op x] ++ (EvOp relocate_op <$> xs1 ++ xs2)
            ++ (EvDtor <$> relocated (xs1 ++ xs2)) ++ [EvFree ob])).
Proof.
  intros n k cap' nb Hv Hob Ho Hsz Hx Hxs.
  apply Forall_app in Hxs as [Hxs1 Hxs2].
  pose proof sizeof_pos as Hpos.
  assert (Hnb : h !! nb = None) by apply heap_fresh.
  assert (Hne : ob ≠ nb) by (intros ->; congruence).
  assert (Hnk : n = k + Z.of_nat (length xs2)).
  { subst n k. rewrite length_app. lia. }
  assert (Hcap : (if n =? 0 then 1 else wrap (n * 2)) = cap').
  { destruct (Z.eqb_spec n 0); [lia|]. rewrite wrap_small; nia. }
  assert (0 < SIZE_MOD) by done.
  assert (Hnlt : n < SIZE_MOD) by nia.
  assert (Hwrap : wrap (n - k) = Z.of_nat (length xs2)) by (rewrite wrap_small; lia).
  set (rest := replicate (Z.to_nat cap' - length (xs1 ++ xs2) - 1) (@Raw T)).
  assert (Hnew : replicate (Z.to_nat cap') (@Raw T)
                 = replicate (length xs1) Raw ++ Raw :: replicate (length xs2) Raw ++ rest).
  { subst rest. rewrite <- replicate_add, <- replicate_S, <- replicate_add. f_equal.
    rewrite length_app. clear -Hnk. subst cap' n k. rewrite length_app in *. lia. }
  unfold Emplace.
  mstep ltac:(apply (index_of_eq _ _ _ _ _ _ k Hv); nia).
  mstep ltac:(by apply get_size_eq).
  mstep ltac:(by apply Capacity_eq).
  simpl. rewrite Z.eqb_refl, Hcap.
  mstep ltac:(apply RawMemory_new_ok; [lia|done|done]).
  fold nb.
  rewrite ?bind_assoc.
  erewrite bind_Ret; cycle 1.
  { apply unwind_Ret. unfold GetAddress, ptr_add. simpl.
    mstep ltac:(eapply (construct_at_mid _ _ _ _ _ _ (replicate (length xs1) Raw)
                          (replicate (length xs2) Raw ++ rest));
                [ by rewrite lookup_insert_eq, Hnew
                | rewrite length_replicate; lia | done]).
    mstep ltac:(by apply begin_eq).
    simpl.
    rewrite relocate_pair.
    mstep ltac:(eapply (relocate_n_ok _ _ _ _ ob nb _ _ _ xs1 [] (Obj <$> xs2) []
                          (Obj x :: replicate (length xs2) Raw ++ rest));
                [ done
                | rewrite !lookup_insert_ne by done;
                  rewrite Hob, block_of_full by done; by rewrite fmap_app, <- app_assoc, app_nil_r
                | done | by rewrite lookup_insert_eq | done | done | done ]).
    mstep ltac:(eapply (relocate_n_ok _ _ _ _ ob nb _ _ _ xs2 (Obj <$> relocated xs1) []
                          ((Obj <$> xs1) ++ [Obj x]) rest);
                [ done
                | rewrite lookup_insert_ne, lookup_insert_eq by done; by rewrite app_nil_r
                | unfold ptr_add; simpl; rewrite length_fmap, length_relocated; lia
                | rewrite lookup_insert_eq; simpl; by rewrite <- app_assoc
                | unfold ptr_add; simpl; rewrite length_app, length_fmap; simpl; lia
                | done
                | done ]).
    eapply (destroy_n_ok _ _ _ _ ob _ _ [] (relocated (xs1 ++ xs2)) []).
    - rewrite lookup_insert_ne, lookup_insert_eq by done.
      by rewrite relocated_app, fmap_app, <- app_assoc.
    - done.
    - by rewrite length_relocated. }
  rewrite length_relocated.
  mstep ltac:(by apply RawMemory_Swap_local_eq).
  simpl.
  mstep ltac:(eapply RawMemory_delete_ok; by rewrite lookup_insert_eq).
  mstep ltac:(apply set_size_eq; by rewrite lookup_insert_eq).
  mstep ltac:(apply begin_eq; by rewrite lookup_insert_eq).
  simpl. unfold ret, ptr_add. simpl.
  rewrite wrap_small by nia.
  f_equal. f_equal.
  - assert (Hfin : ((Obj <$> xs1) ++ [Obj x]) ++ (Obj <$> xs2) ++ rest
                   = block_of (xs1 ++ x :: xs2) cap').
    { unfold block_of, rest. rewrite fmap_app, <- !app_assoc. simpl. do 3 f_equal.
      rewrite !length_app. simpl. f_equal. clear. lia. }
    rewrite <- Hfin.
    apply map_eq. intros i.
    destruct (decide (i = ob)) as [->|]; [by simplify_map_eq|].
    destruct (decide (i = nb)) as [->|]; by simplify_map_eq.
  - by rewrite !insert_insert_eq.
  - rewrite fmap_app. by rewrite <- !app_assoc.
Qed.

Lemma Emplace_first h vs o l a op x :
  let nb := fresh (dom h) in
  vs !! a = Some {| data_ := {| buffer_ := nullptr; capacity_ := 0 |}; size_ := 0 |} →
  head o ≠ Some true → sizeof < SIZE_MOD →
  throws op x = false →
  Emplace a (nullptr, 0) op x (mkState h vs o l)
  = Ret (Some nb, 0)
      (mkState (<[nb := block_of [x] 1]> h)
         (<[a := {| data_ := {| buffer_ := Some nb; capacity_ := 1 |}; size_ := 1 |}]> vs)
         (tail o) (l ++ [EvAlloc nb 1; EvOp op x])).
Proof.
  intros nb Hv Ho Hsz Hx. unfold Emplace.
  mstep ltac:(apply (index_of_eq _ _ _ _ _ _ 0 Hv); done).
  mstep ltac:(by apply get_size_eq).
  mstep ltac:(by apply Capacity_eq).
  simpl.
  mstep ltac:(apply RawMemory_new_ok; [lia|done|lia]).
  rewrite ?bind_assoc.
  erewrite bind_Ret; cycle 1.
  { apply unwind_Ret. unfold GetAddress, ptr_add. simpl.
    mstep ltac:(eapply (construct_at_mid _ _ _ _ _ _ [] []);
                [by rewrite lookup_insert_eq | done | done]).
    mstep ltac:(by apply begin_eq).
    rewrite relocate_pair.
    mstep ltac:(apply relocate_n_zero).
    mstep ltac:(apply relocate_n_zero).
    apply destroy_n_zero. }
  mstep ltac:(by apply RawMemory_Swap_local_eq).
  simpl.
  mstep ltac:(apply RawMemory_delete_null).
  mstep ltac:(apply set_size_eq; by rewrite lookup_insert_eq).
  mstep ltac:(apply begin_eq; by rewrite lookup_insert_eq).
  simpl. unfold ret. by rewrite !insert_insert_eq, <- !app_assoc.
Qed.

End InsertErase.

Section InsertEraseSpec.
Context {T : Type} `{Element T}.
Implicit Types (s : state T) (h : gmap loc (list (slot T))) (vs : gmap addr Vector)
  (o : list bool) (l : list (event T)) (xs ys : list T) (v : Vector).

Lemma holds_intro h vs o l a bo cap xs :
  vs !! a = Some {| data_ := {| buffer_ := bo; capacity_ := cap |};
                    size_ := Z.of_nat (length xs) |} →
  Z.of_nat (length xs) ≤ cap → cap * sizeof < SIZE_MOD →
  storage_holds h {| buffer_ := bo; capacity_ := cap |} xs →
  holds (mkState h vs o l) a xs cap.
Proof. intros Hv Hle Hfit Hst. eexists. by repeat split. Qed.

Lemma frame_same_block h vs o l h' vs' o' l' a b blk' v v' :
  vs !! a = Some v → buffer_ (data_ v) = Some b →
  h' = <[b := blk']> h → vs' = <[a := v']> vs →
  frame (mkState h vs o l) (mkState h' vs' o' l') a.
Proof.
  intros Hv Hb -> ->. split; simpl.
  - intros a' Hne. by rewrite lookup_insert_ne.
  - intros b' blk Hb' Hown.
    assert (b' ≠ b) by (intros ->; by eapply Hown).
    by rewrite lookup_insert_ne.
Qed.

Lemma frame_new_block h vs o l h' vs' o' l' a b blk' v v' :
  vs !! a = Some v → buffer_ (data_ v) = Some b →
  h' = <[fresh (dom h) := blk']> (delete b h) → vs' = <[a := v']> vs →
  frame (mkState h vs o l) (mkState h' vs' o' l') a.
Proof.
  intros Hv Hb -> ->. split; simpl.
  - intros a' Hne. by rewrite lookup_insert_ne.
  - intros b' blk Hb' Hown.
    assert (b' ≠ b) by (intros ->; by eapply Hown).
    assert (b' ≠ fresh (dom h)) by (intros ->; rewrite heap_fresh in Hb'; done).
    by rewrite lookup_insert_ne, lookup_delete_ne.
Qed.

Lemma frame_first_block h vs o l h' vs' o' l' a blk' v' :
  h' = <[fresh (dom h) := blk']> h → vs' = <[a := v']> vs →
  frame (mkState h vs o l) (mkState h' vs' o' l') a.
Proof.
  intros -> ->. split; simpl.
  - intros a' Hne. by rewrite lookup_insert_ne.
  - intros b' blk Hb' Hown.
    assert (b' ≠ fresh (dom h)) by (intros ->; rewrite heap_fresh in Hb'; done).
    by rewrite lookup_insert_ne.
Qed.

Lemma Emplace_spec s a v xs1 xs2 cap op x :
  let n := Z.of_nat (length (xs1 ++ xs2)) in
  holds s a (xs1 ++ xs2) cap → vecs s !! a = Some v →
  throws op x = false →
  (n = cap → alloc_ok s (Z.max 1 (2 * cap)) ∧ nothrow relocate_op (xs1 ++ xs2)) →
  (n < cap → xs2 ≠ [] → nothrow MoveCtor xs2 ∧ nothrow MoveAssign (x :: xs2)) →
  ∃ s' bo',
    Emplace a (buffer_ (data_ v), Z.of_nat (length xs1)) op x s
    = Ret (bo', Z.of_nat (length xs1)) s'
    ∧ buffer_ ∘ data_ <$> vecs s' !! a = Some bo'
    ∧ holds s' a (xs1 ++ x :: xs2) (if n =? cap then Z.max 1 (2 * cap) else cap)
    ∧ frame s s' a.
Proof.
  intros n Hh Hv Hx Hgrow Hmid. subst n.
  pose proof sizeof_pos as Hpos.
  destruct s as [h vs o l].
  destruct Hh as (v0 & Hv0 & Hsz & Hcap & Hle & Hfit & Hst).
  simpl in Hv, Hv0. rewrite Hv in Hv0. injection Hv0 as <-.
  destruct v as [[bo c] sz]. unfold alloc_ok, storage_holds in *. simpl in *. subst c sz.
  pose proof (cap_lt_mod _ Hfit) as Hcaplt.
  assert (Hlen' : Z.of_nat (length (xs1 ++ x :: xs2)) = Z.of_nat (length (xs1 ++ xs2)) + 1).
  { rewrite !length_app. simpl. lia. }
  destruct bo as [b|].
  - destruct (Z.eqb_spec (Z.of_nat (length (xs1 ++ xs2))) cap) as [Heq|Hneq].
    + destruct (Hgrow Heq) as [[Ho Hfit'] Hxs]. subst cap.
      do 2 eexists. split; [by apply Emplace_grow|].
      split; [simpl; by rewrite lookup_insert_eq|].
      split.
      * eapply holds_intro; [simpl; by rewrite lookup_insert_eq, Hlen' | lia | done |].
        unfold storage_holds. simpl. by rewrite lookup_insert_eq.
      * by eapply frame_new_block.
    + destruct xs2 as [|z ys _] using rev_ind.
      * rewrite app_nil_r in *.
        do 2 eexists. split; [apply Emplace_end; [done | done | lia | done | done]|].
        split; [simpl; by rewrite lookup_insert_eq|].
        split.
        -- eapply holds_intro;
             [simpl; rewrite lookup_insert_eq, length_app; simpl; do 3 f_equal; lia
             | rewrite length_app; simpl; lia | done |].
           unfold storage_holds. simpl. by rewrite lookup_insert_eq.
        -- by eapply frame_same_block.
      * destruct Hmid as [Hmc Hma]; [lia | by destruct ys |].
        apply Forall_app in Hmc as [_ Hz]. rewrite Forall_singleton in Hz.
        apply Forall_cons in Hma as [Hxa Hma]. apply Forall_app in Hma as [Hys _].
        do 2 eexists. split; [apply Emplace_middle; [done | done | lia | done ..]|].
        split; [simpl; by rewrite lookup_insert_eq|].
        split.
        -- eapply holds_intro; [simpl; by rewrite lookup_insert_eq, Hlen' | lia | done |].
           unfold storage_holds. simpl. by rewrite lookup_insert_eq.
        -- by eapply frame_same_block.
  - subst cap. assert (xs1 = [] ∧ xs2 = []) as [-> ->].
    { destruct xs1, xs2; simpl in *; try lia; done. }
    destruct (Hgrow eq_refl) as [[Ho Hfit'] _]. simpl in *.
    do 2 eexists. split; [apply Emplace_first; [done | done | lia | done]|].
    split; [simpl; by rewrite lookup_insert_eq|].
    split.
    + eapply holds_intro; [simpl; by rewrite lookup_insert_eq | simpl; lia | done |].
      unfold storage_holds. simpl. by rewrite lookup_insert_eq.
    + by eapply frame_first_block.
Qed.

Lemma Erase_spec s a v xs1 z ys cap :
  holds s a (xs1 ++ z :: ys) cap → vecs s !! a = Some v →
  nothrow MoveAssign ys →
  ∃ s',
    Erase a (buffer_ (data_ v), Z.of_nat (length xs1)) s
    = Ret (buffer_ (data_ v), Z.of_nat (length xs1)) s'
    ∧ holds s' a (xs1 ++ ys) cap
    ∧ frame s s' a.
Proof.
  intros Hh Hv Hys.
  destruct s as [h vs o l].
  destruct Hh as (v0 & Hv0 & Hsz & Hcap & Hle & Hfit & Hst).
  simpl in Hv, Hv0. rewrite Hv in Hv0. injection Hv0 as <-.
  destruct v as [[bo c] sz]. unfold storage_holds in *. simpl in *. subst c sz.
  pose proof (cap_lt_mod _ Hfit) as Hcaplt.
  assert (Hlen : Z.of_nat (length (xs1 ++ z :: ys)) = Z.of_nat (length (xs1 ++ ys)) + 1).
  { rewrite !length_app. simpl. lia. }
  destruct bo as [b|]; [|subst cap; lia].
  eexists. split; [by apply Erase_eq|].
  split.
  - eapply holds_intro; [simpl; rewrite lookup_insert_eq; do 3 f_equal; lia | lia | done |].
    unfold storage_holds. simpl. by rewrite lookup_insert_eq.
  - by eapply frame_same_block.
Qed.

End InsertEraseSpec.

(** ** [Reserve], [PopBack], [Resize] and the constructors *)

Section ReserveResize.
Context {T : Type} `{Element T}.
Implicit Types (s : state T) (h : gmap loc (list (slot T))) (vs : gmap addr Vector)
  (o : list bool) (l : list (event T)) (xs ys : list T)
  (pre mid post : list (slot T)).

Lemma construct_at_any h vs o l b k pre x post op v :
  h !! b = Some (pre ++ x :: post) → k = Z.of_nat (length pre) →
  throws op v = false →
  construct_at (Some b, k) op v (mkState h vs o l)
  = Ret tt (mkState (<[b := pre ++ Obj v :: post]> h) vs o (l ++ construct_events op v x)).
Proof.
  intros Hb Hk Hv. unfold construct_at. rewrite Hv.
  mstep ltac:(by eapply load_mid).
  destruct x as [|w].
  - mstep ltac:(reflexivity).
    mstep ltac:(by eapply store_mid).
    done.
  - mstep ltac:(apply emit_eq).
    mstep ltac:(by eapply store_mid).
    unfold emit. simpl. by rewrite <- app_assoc.
Qed.

Lemma value_construct_loop_ok mid : ∀ k h vs o l b kp pre post,
  h !! b = Some (pre ++ replicate k (Obj value_init) ++ mid ++ post) →
  kp = Z.of_nat (length pre) →
  throws DefaultCtor value_init = false →
  uninitialized_loop (λ i, construct_at (ptr_add (Some b, kp) i) DefaultCtor value_init)
    (Some b, kp) (Z.of_nat k) (length mid) (mkState h vs o l)
  = Ret tt (mkState (<[b := pre ++ replicate (k + length mid) (Obj value_init) ++ post]> h)
              vs o (l ++ (mid ≫= construct_events DefaultCtor value_init))).
Proof.
  induction mid as [|x mid IH]; intros k h vs o l b kp pre post Hb Hkp Hv; simpl.
  - rewrite Nat.add_0_r, app_nil_r. simpl in Hb. by rewrite insert_id.
  - erewrite bind_Ret; cycle 1.
    { apply unwind_Ret. unfold ptr_add. simpl.
      eapply (construct_at_any _ _ _ _ _ _ (pre ++ replicate k (Obj value_init)) x (mid ++ post)).
      - by rewrite Hb, <- app_assoc.
      - rewrite length_app, length_replicate. clear -Hkp. lia.
      - done. }
    replace (Z.of_nat k + 1) with (Z.of_nat (S k)) by lia.
    erewrite (IH (S k) _ _ _ _ b kp pre post); [| |done|done].
    + rewrite insert_insert_eq.
      replace (S k + length mid)%nat with (k + S (length mid))%nat by lia.
      by rewrite <- app_assoc.
    + rewrite lookup_insert_eq. f_equal. rewrite <- app_assoc. f_equal.
      rewrite replicate_S_end, <- app_assoc. done.
Qed.

Lemma uninitialized_value_construct_n_ok h vs o l b kp n pre mid post :
  h !! b = Some (pre ++ mid ++ post) → kp = Z.of_nat (length pre) →
  n = Z.of_nat (length mid) →
  throws DefaultCtor value_init = false →
  uninitialized_value_construct_n (Some b, kp) n (mkState h vs o l)
  = Ret tt (mkState (<[b := pre ++ replicate (length mid) (Obj value_init) ++ post]> h)
              vs o (l ++ (mid ≫= construct_events DefaultCtor value_init))).
Proof.
  intros Hb Hkp -> Hv. unfold uninitialized_value_construct_n. rewrite Nat2Z.id.
  by eapply (value_construct_loop_ok mid 0).
Qed.

Lemma uninitialized_value_construct_n_zero (p : ptr) s :
  uninitialized_value_construct_n p 0 s = Ret tt s.
Proof. done. Qed.

(** *** [Reserve] *)

Lemma Reserve_enough h vs o l a (v : Vector) n :
  vs !! a = Some v → n ≤ capacity_ (data_ v) →
  Reserve a n (mkState h vs o l) = Ret tt (mkState h vs o l).
Proof.
  intros Hv Hn. unfold Reserve.
  mstep ltac:(by apply Capacity_eq).
  by destruct (Z.leb_spec n (capacity_ (data_ v))); [|lia].
Qed.

Lemma Reserve_grow_block h vs o l a ob cap xs n :
  let nb := fresh (dom h) in
  vs !! a = Some {| data_ := {| buffer_ := Some ob; capacity_ := cap |};
                    size_ := Z.of_nat (length xs) |} →
  h !! ob = Some (block_of xs cap) →
  Z.of_nat (length xs) ≤ cap → cap < n →
  head o ≠ Some true → n * sizeof < SIZE_MOD →
  nothrow relocate_op xs →
  Reserve a n (mkState h vs o l)
  = Ret tt
      (mkState (<[nb := block_of xs n]> (delete ob h))
         (<[a := {| data_ := {| buffer_ := Some nb; capacity_ := n |};
                    size_ := Z.of_nat (length xs) |}]> vs)
         (tail o)
         (l ++ [EvAlloc nb n] ++ (EvOp relocate_op <$> xs)
            ++ (EvDtor <$> relocated xs) ++ [EvFree ob])).
Proof.
  intros nb Hv Hob Hle Hn Ho Hsz Hxs.
  assert (Hnb : h !! nb = None) by apply heap_fresh.
  assert (Hne : ob ≠ nb) by (intros ->; congruence).
  set (rest := replicate (Z.to_nat cap - length xs) (@Raw T)).
  set (rest' := replicate (Z.to_nat n - length xs) (@Raw T)).
  assert (Hnew : replicate (Z.to_nat n) (@Raw T) = replicate (length xs) Raw ++ rest').
  { subst rest'. rewrite <- replicate_add. f_equal. lia. }
  unfold Reserve.
  mstep ltac:(by apply Capacity_eq).
  simpl. destruct (Z.leb_spec n cap); [lia|].
  mstep ltac:(apply RawMemory_new_ok; [lia|done|done]).
  fold nb.
  rewrite ?bind_assoc.
  erewrite bind_Ret; cycle 1.
  { apply unwind_Ret.
    mstep ltac:(by apply begin_eq).
    mstep ltac:(by apply get_size_eq).
    unfold GetAddress. simpl.
    mstep ltac:(eapply (relocate_n_ok _ _ _ _ ob nb _ _ _ xs [] rest [] rest');
                [ done | by rewrite lookup_insert_ne | done
                | by rewrite lookup_insert_eq, Hnew | done | done | done ]).
    eapply (destroy_n_ok _ _ _ _ ob _ _ [] (relocated xs) rest).
    - by rewrite lookup_insert_ne, lookup_insert_eq.
    - done.
    - by rewrite length_relocated. }
  rewrite length_relocated.
  mstep ltac:(by apply RawMemory_Swap_local_eq).
  simpl.
  erewrite RawMemory_delete_ok by (by rewrite lookup_insert_eq).
  f_equal. f_equal.
  - apply map_eq. intros i.
    destruct (decide (i = ob)) as [->|]; [by simplify_map_eq|].
    destruct (decide (i = nb)) as [->|]; by simplify_map_eq.
  - by rewrite <- !app_assoc.
Qed.

Lemma Reserve_grow_null h vs o l a n :
  let nb := fresh (dom h) in
  vs !! a = Some {| data_ := {| buffer_ := nullptr; capacity_ := 0 |}; size_ := 0 |} →
  0 < n → head o ≠ Some true → n * sizeof < SIZE_MOD →
  Reserve a n (mkState h vs o l)
  = Ret tt
      (mkState (<[nb := block_of [] n]> h)
         (<[a := {| data_ := {| buffer_ := Some nb; capacity_ := n |}; size_ := 0 |}]> vs)
         (tail o) (l ++ [EvAlloc nb n])).
Proof.
  intros nb Hv Hn Ho Hsz.
  unfold Reserve.
  mstep ltac:(by apply Capacity_eq).
  simpl. destruct (Z.leb_spec n 0); [lia|].
  mstep ltac:(apply RawMemory_new_ok; [lia|done|done]).
  rewrite ?bind_assoc.
  erewrite bind_Ret; cycle 1.
  { apply unwind_Ret.
    mstep ltac:(by apply begin_eq).
    mstep ltac:(by apply get_size_eq).
    mstep ltac:(apply relocate_n_zero).
    apply destroy_n_zero. }
  mstep ltac:(by apply RawMemory_Swap_local_eq).
  simpl. rewrite RawMemory_delete_null. by rewrite block_of_nil.
Qed.

Lemma Reserve_spec s a xs cap n :
  holds s a xs cap →
  (cap < n → alloc_ok s n ∧ nothrow relocate_op xs) →
  ∃ s', Reserve a n s = Ret tt s' ∧ holds s' a xs (Z.max cap n) ∧ frame s s' a.
Proof.
  intros Hh Hg. pose proof sizeof_pos as Hpos.
  destruct s as [h vs o l].
  pose proof Hh as ([[bo c] sz] & Hv & Hsz & Hcap & Hle & Hfit & Hst).
  unfold alloc_ok, storage_holds in *. simpl in *. subst c sz.
  destruct (Z.le_gt_cases n cap) as [Hn|Hn].
  - exists (mkState h vs o l). split; [by eapply Reserve_enough|].
    rewrite Z.max_l by done. split; [done|]. split; [done|]. intros ? ? ?. done.
  - destruct (Hg ltac:(lia)) as [[Ho Hfit'] Hxs]. rewrite Z.max_r by lia.
    destruct bo as [b|].
    + eexists. split; [by eapply Reserve_grow_block|].
      split.
      * eapply holds_intro; [simpl; by rewrite lookup_insert_eq | lia | done |].
        unfold storage_holds. simpl. by rewrite lookup_insert_eq.
      * by eapply frame_new_block.
    + subst cap. destruct xs; [|simpl in *; lia].
      eexists. split; [by apply Reserve_grow_null|].
      split.
      * eapply holds_intro; [simpl; by rewrite lookup_insert_eq | simpl; lia | done |].
        unfold storage_holds. simpl. by rewrite lookup_insert_eq.
      * by eapply frame_first_block.
Qed.


(** *** [PopBack] *)

Lemma PopBack_empty h vs o l a (v : Vector) :
  vs !! a = Some v → size_ v = 0 →
  PopBack a (mkState h vs o l) = Ret tt (mkState h vs o l).
Proof.
  intros Hv Hsz. unfold PopBack.
  mstep ltac:(by apply get_size_eq).
  rewrite Hsz. done.
Qed.

Lemma PopBack_last h vs o l a b cap xs z :
  let n := Z.of_nat (length (xs ++ [z])) in
  vs !! a = Some {| data_ := {| buffer_ := Some b; capacity_ := cap |}; size_ := n |} →
  h !! b = Some (block_of (xs ++ [z]) cap) →
  n ≤ cap < SIZE_MOD →
  PopBack a (mkState h vs o l)
  = Ret tt
      (mkState (<[b := block_of xs cap]> h)
         (<[a := {| data_ := {| buffer_ := Some b; capacity_ := cap |}; size_ := n - 1 |}]> vs)
         o (l ++ [EvDtor z])).
Proof.
  intros n Hv Hb Hcap.
  assert (Hn : n = Z.of_nat (length xs) + 1).
  { subst n. rewrite length_app. simpl. lia. }
  set (rest := replicate (Z.to_nat cap - length (xs ++ [z])) (@Raw T)).
  unfold PopBack.
  mstep ltac:(by apply get_size_eq).
  simpl. destruct (Z.ltb_spec 0 n); [|lia].
  mstep ltac:(by apply end_eq).
  unfold ptr_add. simpl.
  mstep ltac:(eapply (destroy_n_ok _ _ _ _ b _ _ (Obj <$> xs) [z] rest);
              [ rewrite Hb; unfold block_of; by rewrite fmap_app, <- app_assoc
              | rewrite length_fmap; lia | done ]).
  erewrite set_size_eq by done.
  simpl. rewrite wrap_small by lia. f_equal. f_equal. f_equal.
  unfold block_of, rest. simpl. f_equal. rewrite length_app. simpl.
  replace (Z.to_nat cap - length xs)%nat with (S (Z.to_nat cap - (length xs + 1))) by lia.
  done.
Qed.

Lemma PopBack_spec s a xs cap :
  holds s a xs cap →
  ∃ s', PopBack a s = Ret tt s' ∧ holds s' a (take (length xs - 1) xs) cap ∧ frame s s' a.
Proof.
  intros Hh. destruct s as [h vs o l].
  pose proof Hh as ([[bo c] sz] & Hv & Hsz & Hcap & Hle & Hfit & Hst).
  pose proof (cap_lt_mod _ Hfit) as Hcaplt.
  unfold storage_holds in *. simpl in *. subst c sz.
  destruct xs as [|z xs _] using rev_ind.
  - exists (mkState h vs o l). split; [by eapply PopBack_empty|].
    split; [done|]. split; [done|]. intros ? ? ?. done.
  - rewrite length_app. simpl. rewrite Nat.add_sub, take_app_length.
    destruct bo as [b|]; [|rewrite length_app in *; simpl in *; lia].
    eexists. split; [by apply PopBack_last|].
    assert (Hlen : Z.of_nat (length (xs ++ [z])) = Z.of_nat (length xs) + 1).
    { rewrite length_app. simpl. lia. }
    split.
    + eapply holds_intro; [simpl; rewrite lookup_insert_eq; do 3 f_equal; lia | lia | done |].
      unfold storage_holds. simpl. by rewrite lookup_insert_eq.
    + by eapply frame_same_block.
Qed.

(** *** [Resize] *)

Lemma Resize_shrink h vs o l a b cap xs (k : nat) :
  vs !! a = Some {| data_ := {| buffer_ := Some b; capacity_ := cap |};
                    size_ := Z.of_nat (length xs) |} →
  h !! b = Some (block_of xs cap) →
  (k < length xs)%nat → Z.of_nat (length xs) ≤ cap < SIZE_MOD →
  Resize a (Z.of_nat k) (mkState h vs o l)
  = Ret tt
      (mkState (<[b := block_of (take k xs) cap]> h)
         (<[a := {| data_ := {| buffer_ := Some b; capacity_ := cap |};
                    size_ := Z.of_nat k |}]> vs)
         o (l ++ (EvDtor <$> drop k xs))).
Proof.
  intros Hv Hb Hk Hcap.
  set (rest := replicate (Z.to_nat cap - length xs) (@Raw T)).
  unfold Resize.
  mstep ltac:(by apply get_size_eq).
  simpl. destruct (Z.ltb_spec (Z.of_nat k) (Z.of_nat (length xs))); [|lia].
  mstep ltac:(by apply begin_eq).
  unfold ptr_add. simpl.
  mstep ltac:(eapply (destroy_n_ok _ _ _ _ b _ _ (Obj <$> take k xs) (drop k xs) rest);
              [ rewrite Hb; unfold block_of;
                by rewrite <- (take_drop k xs) at 1; rewrite fmap_app, <- app_assoc
              | rewrite length_fmap, length_take; lia
              | rewrite length_drop, wrap_small; lia ]).
  destruct (Z.ltb_spec (Z.of_nat (length xs)) (Z.of_nat k)); [lia|].
  mstep ltac:(reflexivity).
  erewrite set_size_eq by done.
  simpl. f_equal. f_equal. f_equal.
  unfold block_of, rest. f_equal. rewrite <- replicate_add. f_equal.
  rewrite length_drop, length_take. lia.
Qed.

Lemma Resize_same h vs o l a (v : Vector) :
  vs !! a = Some v →
  Resize a (size_ v) (mkState h vs o l) = Ret tt (mkState h vs o l).
Proof.
  intros Hv. unfold Resize.
  mstep ltac:(by apply get_size_eq).
  rewrite Z.ltb_irrefl.
  mstep ltac:(reflexivity).
  mstep ltac:(reflexivity).
  erewrite set_size_eq by done.
  destruct v as [d sz]. simpl. by rewrite insert_id.
Qed.

(** What the growing branch of [Resize] does to a vector with elements
    [xs]: once the capacity is at least [n], the [n - size] new values
    are constructed over the front of the block. *)
Lemma Resize_grow s a xs cap (n : nat) :
  holds s a xs cap → (length xs < n)%nat →
  Z.of_nat n * sizeof < SIZE_MOD →
  (cap < Z.of_nat n → alloc_ok s (Z.of_nat n) ∧ nothrow relocate_op xs) →
  throws DefaultCtor value_init = false →
  ∃ s' b,
    Resize a (Z.of_nat n) s = Ret tt s'
    ∧ vecs s' !! a = Some {| data_ := {| buffer_ := Some b; capacity_ := Z.max cap (Z.of_nat n) |};
                             size_ := Z.of_nat n |}
    ∧ heap s' !! b
      = Some (replicate (n - length xs) (Obj value_init)
                ++ drop (n - length xs) (block_of xs (Z.max cap (Z.of_nat n)))).
Proof.
  intros Hh Hn Hfitn Hg Hvi. pose proof sizeof_pos as Hpos.
  pose proof (cap_lt_mod _ Hfitn) as Hnlt.
  destruct (Reserve_spec s a xs cap (Z.of_nat n) Hh Hg) as (s1 & Hres & Hh1 & _).
  pose proof Hh as (v & Hv & Hsz & _).
  set (cap1 := Z.max cap (Z.of_nat n)) in *.
  pose proof Hh1 as ([[bo c] sz] & Hv1 & Hsz1 & Hcap1 & Hle1 & Hfit1 & Hst1).
  unfold storage_holds in *. simpl in *. subst c sz.
  destruct bo as [b|]; [|lia].
  destruct s as [h vs o l]. destruct s1 as [h1 vs1 o1 l1]. simpl in *.
  exists (mkState
            (<[b := [] ++ replicate (length (take (n - length xs) (block_of xs cap1)))
                             (Obj value_init)
                      ++ drop (n - length xs) (block_of xs cap1)]> h1)
            (<[a := {| data_ := {| buffer_ := Some b; capacity_ := cap1 |};
                       size_ := Z.of_nat n |}]> vs1)
            o1 (l1 ++ (take (n - length xs) (block_of xs cap1)
                        ≫= construct_events DefaultCtor value_init))), b.
  assert (Hlt : (length (take (n - length xs) (block_of xs cap1)) = n - length xs)%nat).
  { rewrite length_take, length_block_of by lia. lia. }
  split; [|split].
  - unfold Resize.
    mstep ltac:(by apply get_size_eq).
    rewrite Hsz.
    destruct (Z.ltb_spec (Z.of_nat n) (Z.of_nat (length xs))); [lia|].
    mstep ltac:(reflexivity).
    destruct (Z.ltb_spec (Z.of_nat (length xs)) (Z.of_nat n)); [|lia].
    mstep ltac:(exact Hres).
    mstep ltac:(by apply begin_eq).
    simpl.
    mstep ltac:(eapply (uninitialized_value_construct_n_ok _ _ _ _ b _ _ []
                          (take (n - length xs) (block_of xs cap1))
                          (drop (n - length xs) (block_of xs cap1)));
                [ simpl; by rewrite take_drop | done
                | rewrite Hlt, wrap_small; lia | done ]).
    by erewrite set_size_eq by done.
  - simpl. by rewrite lookup_insert_eq.
  - simpl. by rewrite lookup_insert_eq, Hlt.
Qed.


(** [Resize] to at most the current size keeps the first [n] elements. *)
Lemma Resize_down_spec s a xs cap (n : nat) :
  holds s a xs cap → (n ≤ length xs)%nat →
  ∃ s', Resize a (Z.of_nat n) s = Ret tt s' ∧ holds s' a (take n xs) cap ∧ frame s s' a.
Proof.
  intros Hh Hn. destruct s as [h vs o l].
  pose proof Hh as ([[bo c] sz] & Hv & Hsz & Hcap & Hle & Hfit & Hst).
  pose proof (cap_lt_mod _ Hfit) as Hcaplt.
  unfold storage_holds in *. simpl in *. subst c sz.
  destruct (decide (n = length xs)) as [->|Hne].
  - exists (mkState h vs o l). split; [by apply (Resize_same _ _ _ _ _ _ Hv)|].
    rewrite take_ge by lia. split; [done|]. split; [done|]. intros ? ? ?. done.
  - destruct bo as [b|]; [|lia].
    eexists. split; [apply Resize_shrink; [done | done | lia | done]|].
    split.
    + eapply holds_intro;
        [ simpl; rewrite lookup_insert_eq, length_take; do 3 f_equal; lia
        | rewrite length_take; lia | done |].
      unfold storage_holds. simpl. by rewrite lookup_insert_eq.
    + by eapply frame_same_block.
Qed.

(** On an empty vector the growing branch is right: the new elements
    start at slot 0, which is where [begin()] points. *)
Lemma Resize_empty_spec s a cap (n : nat) :
  holds s a [] cap → (0 < n)%nat →
  Z.of_nat n * sizeof < SIZE_MOD →
  (cap < Z.of_nat n → alloc_ok s (Z.of_nat n)) →
  throws DefaultCtor value_init = false →
  ∃ s', Resize a (Z.of_nat n) s = Ret tt s'
      ∧ holds s' a (replicate n value_init) (Z.max cap (Z.of_nat n)).
Proof.
  intros Hh Hn Hfit Hg Hvi.
  destruct (Resize_grow s a [] cap n Hh) as (s' & b & Hrun & Hv' & Hb'); [done..| |done|].
  { intros Hlt. split; [by apply Hg | constructor]. }
  exists s'. split; [done|].
  pose proof Hh as (_ & _ & _ & _ & Hle & Hfit0 & _).
  destruct s' as [h' vs' o' l']. simpl in *.
  eapply holds_intro.
  - by rewrite Hv', length_replicate.
  - rewrite length_replicate. lia.
  - destruct (Z.max_spec cap (Z.of_nat n)) as [[_ ->]|[_ ->]]; done.
  - unfold storage_holds. simpl. rewrite Hb'. f_equal.
    rewrite Nat.sub_0_r, block_of_nil, drop_replicate.
    unfold block_of. by rewrite fmap_replicate, length_replicate.
Qed.

(** On a non-empty vector the growing branch breaks the invariant: the
    call returns with [Size() == n], the first element is a
    value-initialized object, and slot [n - 1], which lies below
    [Size()], holds no object. *)
Lemma Resize_grow_breaks s a xs cap (n : nat) :
  holds s a xs cap → xs ≠ [] → (length xs < n)%nat →
  Z.of_nat n * sizeof < SIZE_MOD →
  (cap < Z.of_nat n → alloc_ok s (Z.of_nat n) ∧ nothrow relocate_op xs) →
  throws DefaultCtor value_init = false →
  ∃ s', Resize a (Z.of_nat n) s = Ret tt s'
      ∧ Size a s' = Ret (Z.of_nat n) s'
      ∧ (p <- Vector_index a 0 ;; read p) s' = Ret value_init s'
      ∧ contents s' a = None
      ∧ ∀ ys c, ¬ holds s' a ys c.
Proof.
  intros Hh Hne Hn Hfit Hg Hvi.
  destruct (Resize_grow s a xs cap n Hh Hn Hfit Hg Hvi) as (s' & b & Hrun & Hv' & Hb').
  pose proof Hh as (_ & _ & _ & _ & Hle & _).
  set (cap1 := Z.max cap (Z.of_nat n)) in *.
  set (blk := replicate (n - length xs) (Obj value_init)
                ++ drop (n - length xs) (block_of xs cap1)) in *.
  assert (Hxs : (0 < length xs)%nat) by (destruct xs; simpl; [done|lia]).
  assert (Hlen : length blk = Z.to_nat cap1).
  { unfold blk. rewrite length_app, length_replicate, length_drop, length_block_of by lia. lia. }
  assert (Hraw : blk !! (n - 1)%nat = Some Raw).
  { unfold blk. rewrite lookup_app_r by (rewrite length_replicate; lia).
    rewrite length_replicate, lookup_drop. unfold block_of.
    rewrite lookup_app_r by (rewrite length_fmap; lia).
    rewrite length_fmap. apply lookup_replicate_2. lia. }
  assert (Hc : contents s' a = None).
  { unfold contents. rewrite Hv'. simpl. rewrite Hb'. simpl.
    rewrite Nat2Z.id, decide_True by lia.
    destruct (mapM slot_value (take n blk)) as [ys|] eqn:Hm; [|done].
    exfalso. apply mapM_Some_1 in Hm.
    assert (Hk : take n blk !! (n - 1)%nat = Some Raw).
    { rewrite lookup_take_lt by lia. done. }
    destruct (Forall2_lookup_l _ _ _ _ _ Hm Hk) as (y & _ & Hy). done. }
  exists s'. split; [done|]. split; [|split; [|split]].
  - destruct s' as [h' vs' o' l']. simpl in *. by erewrite get_size_eq by done.
  - destruct s' as [h' vs' o' l']. simpl in *.
    unfold Vector_index, RawMemory_index.
    mstep ltac:(by apply get_size_eq).
    simpl. destruct (Z.ltb_spec 0 (Z.of_nat n)); [|lia]. simpl.
    mstep ltac:(reflexivity).
    mstep ltac:(by apply get_data_eq).
    simpl. destruct (Z.ltb_spec 0 cap1); [|lia]. simpl.
    mstep ltac:(reflexivity). mstep ltac:(reflexivity).
    unfold GetAddress, ptr_add. simpl.
    eapply (read_mid _ _ _ _ _ _ [] value_init
              (replicate (n - length xs - 1) (Obj value_init)
                 ++ drop (n - length xs) (block_of xs cap1))); [|done].
    rewrite Hb'. f_equal. unfold blk.
    replace (n - length xs)%nat with (S (n - length xs - 1)) at 1 by lia. done.
  - done.
  - intros ys c Hh'. apply holds_contents in Hh'. congruence.
Qed.

(** *** Constructors *)

Lemma Vector_default_spec s a :
  vecs s !! a = None →
  ∃ s', Vector_default a s = Ret tt s' ∧ holds s' a [] 0
      ∧ heap s' = heap s ∧ log s' = log s.
Proof.
  intros Ha. destruct s as [h vs o l]. simpl in *.
  eexists. split; [by apply create_eq|].
  split; [|done]. apply holds_moved_from. simpl. by rewrite lookup_insert_eq.
Qed.

Lemma Vector_sized_spec s a (n : nat) :
  vecs s !! a = None →
  (0 < n)%nat → alloc_ok s (Z.of_nat n) →
  throws DefaultCtor value_init = false →
  ∃ s', Vector_sized a (Z.of_nat n) s = Ret tt s'
      ∧ holds s' a (replicate n value_init) (Z.of_nat n).
Proof.
  intros Ha Hn [Ho Hfit] Hvi. destruct s as [h vs o l]. simpl in *.
  assert (Hnb : h !! fresh (dom h) = None) by apply heap_fresh.
  eexists. split.
  - unfold Vector_sized.
    mstep ltac:(apply RawMemory_new_ok; [lia|done|done]).
    rewrite ?bind_assoc.
    erewrite bind_Ret; cycle 1.
    { apply unwind_Ret. unfold GetAddress. simpl.
      eapply (uninitialized_value_construct_n_ok _ _ _ _ _ _ _ []
                (replicate (Z.to_nat (Z.of_nat n)) Raw) []).
      - rewrite lookup_insert_eq. by rewrite app_nil_r.
      - done.
      - rewrite length_replicate. lia.
      - done. }
    by apply create_eq.
  - eapply holds_intro.
    + simpl. by rewrite lookup_insert_eq, length_replicate.
    + rewrite length_replicate. lia.
    + done.
    + unfold storage_holds. simpl. rewrite lookup_insert_eq. f_equal.
      rewrite app_nil_r, length_replicate, Nat2Z.id. unfold block_of.
      by rewrite fmap_replicate, length_replicate, Nat2Z.id, Nat.sub_diag, app_nil_r.
Qed.

Lemma Vector_copy_spec s this other ys rcap :
  vecs s !! this = None → holds s other ys rcap →
  head (oom s) ≠ Some true → nothrow CopyCtor ys →
  ∃ s', Vector_copy this other s = Ret tt s'
      ∧ holds s' this ys (Z.of_nat (length ys))
      ∧ holds s' other ys rcap.
Proof.
  intros Ht Hr Hoom Hys. pose proof sizeof_pos as Hpos.
  destruct s as [h vs o l].
  pose proof Hr as ([[rbo c] sz] & Hv & Hsz & Hcap & Hle & Hfit & Hst).
  unfold storage_holds in *. simpl in *. subst c sz.
  assert (Hne : this ≠ other) by (intros ->; congruence).
  destruct ys as [|y ys'].
  - eexists. split.
    + unfold Vector_copy.
      mstep ltac:(by apply get_eq).
      simpl.
      mstep ltac:(apply RawMemory_new_zero).
      rewrite ?bind_assoc.
      erewrite bind_Ret; cycle 1.
      { apply unwind_Ret. mstep ltac:(by apply begin_eq). apply uninitialized_copy_n_zero. }
      by apply create_eq.
    + split.
      * apply holds_moved_from. simpl. by rewrite lookup_insert_eq.
      * eapply holds_intro; [simpl; by rewrite lookup_insert_ne | done | done | done].
  - destruct rbo as [rb|]; [|simpl in *; lia].
    assert (Hfit' : Z.of_nat (length (y :: ys')) * sizeof < SIZE_MOD) by nia.
    eexists. split; [eapply Vector_copy_ok; [done | done | done | simpl; lia | done..]|].
    split.
    + eapply holds_intro; [simpl; by rewrite lookup_insert_eq | lia | done |].
      unfold storage_holds. simpl. by rewrite lookup_insert_eq.
    + eapply holds_intro; [simpl; by rewrite lookup_insert_ne | done | done |].
      unfold storage_holds. simpl. rewrite lookup_insert_ne; [done|].
      intros Heq. by rewrite <- Heq, heap_fresh in Hst.
Qed.

End ReserveResize.

(** * The claims of the specification *)

Section Claims.
Context {T : Type} `{Element T}.
Implicit Types (s : state T) (xs ys : list T).

Lemma nothrow_nil op : nothrow op (@nil T).
Proof. constructor. Qed.

Lemma append_facts s this xs cap' value :
  holds s this (xs ++ [value]) cap' →
  Size this s = Ret (Z.of_nat (length xs) + 1) s
  ∧ (p <- Vector_index this (Z.of_nat (length xs)) ;; read p) s = Ret value s
  ∧ Capacity this s = Ret cap' s.
Proof.
  intros Hh. split; [|split].
  - rewrite (holds_size _ _ _ _ Hh), length_app. simpl. do 2 f_equal. lia.
  - eapply holds_index; [done|]. by apply list_lookup_middle.
  - by eapply holds_capacity.
Qed.

Lemma grown_capacity n cap :
  n ≤ cap → cap ≤ (if n =? cap then Z.max 1 (2 * cap) else cap).
Proof. intros. destruct (Z.eqb_spec n cap); lia. Qed.

(** C3.  On a vector with elements [xs] and capacity [cap], either
    overload of [PushBack] returns when constructing the new element
    does not throw and, in case the vector is full, the allocation and
    the relocation succeed.  Afterwards the vector holds [xs ++ [value]]:
    [Size()] is one more, the last element is the pushed value, and the
    capacity is [max 1 (2 * size)] if the vector was full and unchanged
    otherwise, so it never decreases.  Three pushes from empty give the
    sizes 1, 2, 3, the capacities 1, 2, 4 and the elements [1, 2, 3]. *)
Theorem PushBack_appends_and_doubles s this xs cap value :
  holds s this xs cap →
  (Z.of_nat (length xs) = cap → alloc_ok s (Z.max 1 (2 * cap)) ∧ nothrow relocate_op xs) →
  let cap' := if Z.of_nat (length xs) =? cap then Z.max 1 (2 * cap) else cap in
  (throws CopyCtor value = false →
   ∃ s', PushBack this value s = Ret tt s'
       ∧ holds s' this (xs ++ [value]) cap'
       ∧ Size this s' = Ret (Z.of_nat (length xs) + 1) s'
       ∧ (p <- Vector_index this (Z.of_nat (length xs)) ;; read p) s' = Ret value s'
       ∧ Capacity this s' = Ret cap' s')
  ∧ (throws MoveCtor value = false →
     ∃ s', PushBack_move this value s = Ret tt s'
         ∧ holds s' this (xs ++ [value]) cap'
         ∧ Size this s' = Ret (Z.of_nat (length xs) + 1) s'
         ∧ (p <- Vector_index this (Z.of_nat (length xs)) ;; read p) s' = Ret value s'
         ∧ Capacity this s' = Ret cap' s')
  ∧ cap ≤ cap'
  ∧ (∃ t1 : state Z, push_1 s0 = Ret tt t1 ∧ Size 0%nat t1 = Ret 1 t1 ∧ Capacity 0%nat t1 = Ret 1 t1)
  ∧ (∃ t2 : state Z, push_12 s0 = Ret tt t2 ∧ Size 0%nat t2 = Ret 2 t2 ∧ Capacity 0%nat t2 = Ret 2 t2)
  ∧ (∃ t3 : state Z, push_123 s0 = Ret tt t3 ∧ Size 0%nat t3 = Ret 3 t3
           ∧ Capacity 0%nat t3 = Ret 4 t3 ∧ contents t3 0%nat = Some [1; 2; 3]).
Proof.
  intros Hh Hg cap'. split; [|split; [|split]].
  - intros Hx. destruct (PushBack_spec s this xs cap value Hh Hx Hg) as (s' & Hrun & Hh' & _).
    exists s'. split; [done|]. split; [done|]. by eapply append_facts.
  - intros Hx.
    destruct (PushBack_move_spec s this xs cap value Hh Hx Hg) as (s' & Hrun & Hh' & _).
    exists s'. split; [done|]. split; [done|]. by eapply append_facts.
  - destruct Hh as (v & _ & _ & _ & Hle & _). by apply grown_capacity.
  - repeat split; eexists; (split; [vm_compute; reflexivity|]); repeat split.
Qed.

Lemma holds_unique_record s a xs cap v :
  holds s a xs cap → vecs s !! a = Some v →
  size_ v = Z.of_nat (length xs) ∧ capacity_ (data_ v) = cap
  ∧ Z.of_nat (length xs) ≤ cap ∧ cap * sizeof < SIZE_MOD
  ∧ storage_holds (heap s) (data_ v) xs.
Proof. intros (v0 & Hv0 & ?) Hv. rewrite Hv in Hv0. by injection Hv0 as <-. Qed.

Lemma storage_holds_block h b c xs :
  storage_holds h {| buffer_ := Some b; capacity_ := c |} xs → h !! b = Some (block_of xs c).
Proof. done. Qed.

(** C5.  When [rhs.Size()] does not exceed the capacity of the
    destination, and the element copies involved do not throw, copy
    assignment returns and leaves the destination with the elements of
    [rhs], the same [data_] member (same block, same capacity) and the
    same set of allocated blocks, without consulting the allocator.
    Between distinct vectors the operations performed are exactly: copy
    assignment onto the first [min Size() rhs.Size()] elements, then
    either the destruction of the surplus elements of the destination
    (when [rhs.Size() < Size()]) or the copy construction of the
    remaining elements of [rhs] into the free tail.  [rhs] is unchanged;
    assigning a vector to itself changes nothing. *)
Theorem copy_assign_within_capacity s this rhs xs cap ys rcap :
  holds s this xs cap → holds s rhs ys rcap →
  (this ≠ rhs → separate s this rhs) →
  Z.of_nat (length ys) ≤ cap →
  nothrow CopyAssign (take (length xs) ys) → nothrow CopyCtor (drop (length xs) ys) →
  ∃ s',
    copy_assign this rhs s = Ret this s'
    ∧ holds s' this ys cap
    ∧ holds s' rhs ys rcap
    ∧ Size this s' = Ret (Z.of_nat (length ys)) s'
    ∧ Capacity this s' = Ret cap s'
    ∧ contents s' this = Some ys
    ∧ data_ <$> vecs s' !! this = data_ <$> vecs s !! this
    ∧ dom (heap s') = dom (heap s)
    ∧ oom s' = oom s
    ∧ (this ≠ rhs →
       log s' = log s ++ (EvOp CopyAssign <$> take (length xs) ys)
                  ++ (if (length ys <? length xs)%nat
                      then EvDtor <$> drop (length ys) xs
                      else EvOp CopyCtor <$> drop (length xs) ys))
    ∧ (this = rhs → s' = s).
Proof.
  intros Ht Hr Hsep Hfits Hassign Hctor.
  assert (∃ s', copy_assign this rhs s = Ret this s'
    ∧ holds s' this ys cap ∧ holds s' rhs ys rcap
    ∧ data_ <$> vecs s' !! this = data_ <$> vecs s !! this
    ∧ dom (heap s') = dom (heap s) ∧ oom s' = oom s
    ∧ (this ≠ rhs →
       log s' = log s ++ (EvOp CopyAssign <$> take (length xs) ys)
                  ++ (if (length ys <? length xs)%nat
                      then EvDtor <$> drop (length ys) xs
                      else EvOp CopyCtor <$> drop (length xs) ys))
    ∧ (this = rhs → s' = s)) as (s' & Hrun & Ht' & Hr' & Hdata & Hdom & Hoom & Hlog & Hself).
  { destruct (decide (this = rhs)) as [->|Hne].
    - exists s. rewrite copy_assign_self. repeat split; try done.
      destruct Ht as (v & Hv & _ & Hc & _).
      destruct (holds_unique_record _ _ _ _ _ Hr Hv) as (_ & Hc' & _). by subst.
    - specialize (Hsep Hne).
      pose proof Ht as (vt & Hvt & Hszt & Hct & Hlet & Hfitt & Hstt).
      pose proof Hr as (vr & Hvr & Hszr & Hcr & Hler & Hfitr & Hstr).
      pose proof (cap_lt_mod _ Hfitt) as Hcaplt.
      destruct s as [h vs o l]. simpl in *.
      destruct vt as [[tbo tc] tsz], vr as [[rbo rc] rsz]. simpl in *. subst tc tsz rc rsz.
      destruct (Nat.ltb_spec (length ys) (length xs)) as [Hshrink|Hext].
      + destruct tbo as [b|]; [|unfold storage_holds in Hstt; simpl in *; lia].
        assert (Hnb : rbo ≠ Some b).
        { intros ->. by eapply (Hsep _ _ b Hvt Hvr). }
        eexists. split.
        { rewrite take_ge in Hassign by lia. eapply copy_assign_shrink; done || lia. }
        rewrite take_ge by lia.
        split; [|split; [|split; [|split; [|split; [|split]]]]]; simpl; try done.
        * eapply holds_intro; [by rewrite lookup_insert_eq | lia | done |].
          unfold storage_holds. simpl. by rewrite lookup_insert_eq.
        * eapply holds_intro; [by rewrite lookup_insert_ne | lia | done |].
          unfold storage_holds in *. simpl in *. destruct rbo as [rb|]; [|done].
          rewrite lookup_insert_ne by congruence. done.
        * by rewrite lookup_insert_eq, Hvt.
        * apply dom_insert_lookup_L. by rewrite (storage_holds_block _ _ _ _ Hstt).
      + destruct ys as [|y ys'].
        * assert (xs = []) as -> by (destruct xs; simpl in *; [done|lia]).
          exists (mkState h vs o l). split.
          { eapply copy_assign_empty; done || (simpl in *; lia). }
          simpl. rewrite !app_nil_r.
          split; [|split; [|split; [|split; [|split; [|split]]]]]; done.
        * destruct rbo as [rb|]; [|unfold storage_holds in Hstr; simpl in *; lia].
          destruct tbo as [b|]; [|unfold storage_holds in Hstt; simpl in *; lia].
          assert (Hnb : rb ≠ b).
          { intros ->. by eapply (Hsep _ _ b Hvt Hvr). }
          eexists. split.
          { eapply copy_assign_extend; done || lia. }
          split; [|split; [|split; [|split; [|split; [|split]]]]]; simpl; try done.
          -- eapply holds_intro; [by rewrite lookup_insert_eq | lia | done |].
             unfold storage_holds. simpl. by rewrite lookup_insert_eq.
          -- eapply holds_intro; [by rewrite lookup_insert_ne | lia | done |].
             unfold storage_holds in *. simpl in *.
             rewrite lookup_insert_ne by congruence. done.
          -- by rewrite lookup_insert_eq, Hvt.
          -- apply dom_insert_lookup_L. by rewrite (storage_holds_block _ _ _ _ Hstt). }
  exists s'. split; [done|]. split; [done|]. split; [done|].
  split; [by eapply holds_size|]. split; [by eapply holds_capacity|].
  split; [by eapply holds_contents|]. done.
Qed.


(** C4.  When [rhs.Size()] exceeds the capacity of the destination,
    copy assignment either returns or throws, and its behaviour is never
    undefined.  It returns exactly when the allocator grants the request
    and no element copy throws: the destination then holds the elements
    of [rhs] with capacity [rhs.Size()], and every copy was made (in a
    fresh block) before the first element of the destination was
    destroyed.  It throws [bad_alloc] when the allocator refuses, and
    the exception of the element copy when a copy throws; in both cases
    the heap and every vector object, the destination included, are
    exactly as before the call.  [rhs] is unchanged in all cases. *)
Theorem copy_assign_beyond_capacity s this rhs xs cap ys rcap :
  holds s this xs cap → holds s rhs ys rcap → separate s this rhs →
  cap < Z.of_nat (length ys) →
  match copy_assign this rhs s with
  | Ret a s' =>
      a = this ∧ head (oom s) ≠ Some true ∧ nothrow CopyCtor ys
      ∧ holds s' this ys (Z.of_nat (length ys))
      ∧ holds s' rhs ys rcap
      ∧ vecs s' !! rhs = vecs s !! rhs
      ∧ ∃ nb released,
          log s' = log s ++ [EvAlloc nb (Z.of_nat (length ys))] ++ (EvOp CopyCtor <$> ys)
                     ++ (EvDtor <$> xs) ++ released
          ∧ released = match vecs s !! this with
                       | Some v => match buffer_ (data_ v) with
                                   | Some b => [EvFree b]
                                   | None => []
                                   end
                       | None => []
                       end
  | Throw e s' =>
      (e = bad_alloc ∧ head (oom s) = Some true
       ∨ e = elem_exn CopyCtor ∧ head (oom s) ≠ Some true ∧ ¬ nothrow CopyCtor ys)
      ∧ heap s' = heap s ∧ vecs s' = vecs s
      ∧ holds s' this xs cap ∧ holds s' rhs ys rcap
  | UB => False
  end.
Proof.
  intros Ht Hr Hsep Hgrow.
  pose proof Ht as (vt & Hvt & Hszt & Hct & Hlet & Hfitt & Hstt).
  pose proof Hr as (vr & Hvr & Hszr & Hcr & Hler & Hfitr & Hstr).
  pose proof sizeof_pos as Hpos.
  assert (Hne : this ≠ rhs).
  { intros ->. rewrite Hvt in Hvr. injection Hvr as <-. lia. }
  assert (Hfit : Z.of_nat (length ys) * sizeof < SIZE_MOD) by nia.
  destruct s as [h vs o l]. simpl in *.
  destruct vt as [[tbo tc] tsz], vr as [[rbo rc] rsz]. simpl in *. subst tc tsz rc rsz.
  destruct rbo as [rb|]; [|unfold storage_holds in Hstr; simpl in *; lia].
  apply storage_holds_block in Hstr.
  assert (Hrb : tbo ≠ Some rb).
  { intros ->. by eapply (Hsep _ _ rb Hvt Hvr). }
  destruct (decide (head o = Some true)) as [Hoom|Hoom].
  { rewrite (copy_assign_grow_bad_alloc h vs o l this rhs _ _ Hne Hvt Hvr); [|simpl; lia|done].
    split; [by left|]. repeat split; [by eapply holds_intro..]. }
  destruct (nothrow_split CopyCtor ys) as [Hys|(ys1 & y & ys2 & -> & Hys1 & Hy)].
  - destruct tbo as [b|].
    + apply storage_holds_block in Hstt.
      rewrite (copy_assign_grow_block h vs o l this rhs b cap xs rb rcap ys);
        [|done|congruence|done|done|done|done|lia|done|done|done].
      rewrite Hvt. simpl.
      split; [done|]. split; [done|]. split; [done|].
      split; [|split; [|split]].
      * eapply holds_intro; [by rewrite lookup_insert_eq | lia | done |].
        unfold storage_holds. simpl.
        rewrite lookup_delete_ne, lookup_insert_eq; [done|].
        intros ->. by rewrite heap_fresh in Hstt.
      * eapply holds_intro; [by rewrite lookup_insert_ne | lia | done |].
        unfold storage_holds. simpl.
        rewrite lookup_delete_ne by congruence.
        rewrite lookup_insert_ne; [done|]. intros Heq. by rewrite <- Heq, heap_fresh in Hstr.
      * by rewrite lookup_insert_ne.
      * by do 2 eexists.
    + unfold storage_holds in Hstt. simpl in Hstt. subst cap.
      assert (xs = []) as -> by (destruct xs; simpl in *; [done|lia]).
      rewrite (copy_assign_grow_null h vs o l this rhs rb rcap ys);
        [|done|done|done|done|lia|done|done|done].
      rewrite Hvt. simpl.
      split; [done|]. split; [done|]. split; [done|].
      split; [|split; [|split]].
      * eapply holds_intro; [by rewrite lookup_insert_eq | lia | done |].
        unfold storage_holds. simpl. by rewrite lookup_insert_eq.
      * eapply holds_intro; [by rewrite lookup_insert_ne | lia | done |].
        unfold storage_holds. simpl.
        rewrite lookup_insert_ne; [done|]. intros Heq. by rewrite <- Heq, heap_fresh in Hstr.
      * by rewrite lookup_insert_ne.
      * do 2 eexists. split; [|done]. by rewrite app_nil_r.
  - rewrite (copy_assign_grow_throws h vs o l this rhs _ rb rcap ys1 y ys2 Hne Hvt);
      [|done|done|simpl; lia|done|done|done|done].
    split.
    + right. split; [done|]. split; [done|]. by apply nothrow_not_split.
    + repeat split; [by eapply holds_intro..].
Qed.


Lemma holds_same_heap s s' a a' xs cap :
  heap s' = heap s → vecs s' !! a' = vecs s !! a → holds s a xs cap → holds s' a' xs cap.
Proof.
  intros Hh Hv (v & Hva & Hrest). exists v. rewrite Hv, Hh. by split.
Qed.

Lemma moved_from_reusable s this rhs xs cap value :
  this ≠ rhs → holds s this xs cap → holds s rhs [] 0 →
  vecs s !! rhs = Some {| data_ := {| buffer_ := nullptr; capacity_ := 0 |}; size_ := 0 |} →
  throws CopyCtor value = false → alloc_ok s 1 →
  ∃ s', PushBack rhs value s = Ret tt s' ∧ holds s' rhs [value] 1 ∧ holds s' this xs cap.
Proof.
  intros Hne Ht Hr Hvr Hx Halloc.
  destruct (PushBack_spec s rhs [] 0 value Hr Hx) as (s' & Hrun & Hr' & Hframe).
  { intros _. split; [done|constructor]. }
  exists s'. split; [done|]. split; [done|].
  eapply holds_frame; [done | done | | done | done].
  intros va vb b _ Hvb _. rewrite Hvr in Hvb. by injection Hvb as <-.
Qed.

(** C6, amended.  For a source [rhs] and a destination [this] that are
    distinct objects, move construction (at a free address) and move
    assignment (to an existing vector) return; they perform no element
    operation, allocate and release nothing, and leave the heap as it
    was.  Afterwards the destination holds exactly the former elements
    and capacity of the source, and the source has [Size() == 0], holds
    no block, and accepts a [PushBack], after which it holds the pushed
    value while the destination is undisturbed.  Move assignment of a
    vector to itself returns and changes nothing. *)
Theorem move_transfers_storage s this rhs xs cap :
  holds s rhs xs cap → this ≠ rhs →
  let moved s' :=
    holds s' this xs cap
    ∧ holds s' rhs [] 0
    ∧ Size rhs s' = Ret 0 s'
    ∧ contents s' this = Some xs
    ∧ heap s' = heap s ∧ log s' = log s ∧ oom s' = oom s
    ∧ ∀ value, throws CopyCtor value = false → alloc_ok s' 1 →
        ∃ s'', PushBack rhs value s' = Ret tt s''
             ∧ holds s'' rhs [value] 1 ∧ holds s'' this xs cap in
  (vecs s !! this = None → ∃ s', Vector_move this rhs s = Ret tt s' ∧ moved s')
  ∧ (is_Some (vecs s !! this) → ∃ s', move_assign this rhs s = Ret this s' ∧ moved s')
  ∧ move_assign rhs rhs s = Ret rhs s.
Proof.
  intros Hr Hne moved.
  pose proof Hr as (vr & Hvr & _).
  assert (Hmoved : ∀ s', heap s' = heap s → log s' = log s → oom s' = oom s →
            vecs s' !! this = Some vr →
            vecs s' !! rhs
            = Some {| data_ := {| buffer_ := nullptr; capacity_ := 0 |}; size_ := 0 |} →
            moved s').
  { intros s' Hheap Hlog Hoom Hvt' Hvr'.
    assert (Ht' : holds s' this xs cap).
    { eapply holds_same_heap; [done | | done]. by rewrite Hvt', Hvr. }
    assert (Hr' : holds s' rhs [] 0) by by apply holds_moved_from.
    split; [done|]. split; [done|]. split; [by apply (holds_size _ _ _ _ Hr')|].
    split; [by eapply holds_contents|].
    split; [done|]. split; [done|]. split; [done|].
    intros value Hx Halloc. by eapply moved_from_reusable. }
  destruct s as [h vs o l]. simpl in *.
  split; [|split].
  - intros Hfree. eexists. split; [by apply Vector_move_eq|].
    apply Hmoved; simpl; try done.
    + by rewrite lookup_insert_ne, lookup_insert_eq.
    + by rewrite lookup_insert_eq.
  - intros [vt Hvt]. eexists. split; [by eapply move_assign_eq|].
    apply Hmoved; simpl; try done.
    + by rewrite lookup_insert_ne, lookup_insert_eq.
    + by rewrite lookup_insert_eq.
  - apply move_assign_self.
Qed.

(** C7.  For every index [k <= Size()], when no element operation on
    the values involved throws and, in case the vector is full, the
    allocation succeeds, [Insert] at position [k] returns the position
    of the new element and the vector holds the old elements with the
    value inserted before index [k]; [Erase] at that position then
    returns, and the vector holds its original element sequence again,
    with [Size()] back at its original value. *)
Theorem Insert_then_Erase_restores s this v xs cap k value :
  holds s this xs cap → vecs s !! this = Some v → (k ≤ length xs)%nat →
  (∀ op, nothrow op (value :: xs)) →
  (Z.of_nat (length xs) = cap → alloc_ok s (Z.max 1 (2 * cap))) →
  ∃ s1 p s2 q cap',
    Insert this (buffer_ (data_ v), Z.of_nat k) value s = Ret p s1
    ∧ holds s1 this (take k xs ++ value :: drop k xs) cap'
    ∧ Size this s1 = Ret (Z.of_nat (length xs) + 1) s1
    ∧ Erase this p s1 = Ret q s2
    ∧ q = p
    ∧ holds s2 this xs cap'
    ∧ contents s2 this = Some xs
    ∧ Size this s2 = Ret (Z.of_nat (length xs)) s2.
Proof.
  intros Hh Hv Hk Hquiet Halloc.
  assert (Hlen1 : length (take k xs) = k) by (rewrite length_take; lia).
  assert (Hall : ∀ op, throws op value = false ∧ nothrow op (take k xs ++ drop k xs)
                       ∧ nothrow op (drop k xs)).
  { intros op. specialize (Hquiet op). apply Forall_cons in Hquiet as [Hx Hxs].
    split; [done|]. split; [by rewrite take_drop | by apply Forall_drop]. }
  rewrite <- (take_drop k xs) in Hh.
  destruct (Emplace_spec s this v (take k xs) (drop k xs) cap CopyCtor value Hh Hv)
    as (s1 & bo1 & Hins & Hbo1 & Hh1 & _).
  { apply Hall. }
  { intros Hfull. split; [apply Halloc; by rewrite take_drop in Hfull | apply Hall]. }
  { intros _ _. split; [apply Hall|]. apply Forall_cons. split; apply Hall. }
  rewrite Hlen1 in Hins.
  destruct (vecs s1 !! this) as [v1|] eqn:Hv1; [|done].
  simpl in Hbo1. injection Hbo1 as <-.
  destruct (Erase_spec s1 this v1 (take k xs) value (drop k xs) _ Hh1 Hv1)
    as (s2 & Hers & Hh2 & _).
  { apply Hall. }
  rewrite Hlen1 in Hers. rewrite !take_drop in Hh2. rewrite (take_drop k xs) in Hh1.
  do 5 eexists.
  split; [exact Hins|]. split; [exact Hh1|].
  split.
  { rewrite (holds_size _ _ _ _ Hh1), length_app. simpl.
    rewrite length_take, length_drop. do 2 f_equal. lia. }
  split; [exact Hers|]. split; [done|]. split; [exact Hh2|].
  split; [by eapply holds_contents | by eapply holds_size].
Qed.

(** C9.  Assigning a vector to itself, by copy or by move, returns a
    reference to it and leaves the whole machine state as it was; in
    particular its size, capacity and elements are unchanged. *)
Theorem self_assignment_is_identity s (v : addr) :
  copy_assign v v s = Ret v s ∧ move_assign v v s = Ret v s.
Proof. split; [apply copy_assign_self | apply move_assign_self]. Qed.

(** C10.  [a.Swap(b)] on two existing vectors (which may be the same
    object) always returns.  Afterwards [a] is what [b] was and [b] is
    what [a] was: size, capacity, block and hence element sequence are
    exchanged.  Every other vector, the heap, the allocator and the log
    are untouched: no element was constructed, copied or destroyed. *)
Theorem Swap_exchanges_state s a b va vb :
  vecs s !! a = Some va → vecs s !! b = Some vb →
  ∃ s',
    Swap a b s = Ret tt s'
    ∧ vecs s' !! a = Some vb ∧ vecs s' !! b = Some va
    ∧ (∀ c, c ≠ a → c ≠ b → vecs s' !! c = vecs s !! c)
    ∧ heap s' = heap s ∧ log s' = log s ∧ oom s' = oom s
    ∧ Size a s' = Ret (size_ vb) s' ∧ Size b s' = Ret (size_ va) s'
    ∧ Capacity a s' = Ret (capacity_ (data_ vb)) s'
    ∧ Capacity b s' = Ret (capacity_ (data_ va)) s'
    ∧ contents s' a = contents s b ∧ contents s' b = contents s a
    ∧ (∀ xs cap, holds s b xs cap → holds s' a xs cap)
    ∧ (∀ xs cap, holds s a xs cap → holds s' b xs cap).
Proof.
  intros Ha Hb. destruct s as [h vs o l]. simpl in *.
  eexists. split; [by apply Swap_eq|]. simpl.
  assert (Ha' : <[a:=vb]> (<[b:=va]> vs) !! a = Some vb) by by rewrite lookup_insert_eq.
  assert (Hb' : <[a:=vb]> (<[b:=va]> vs) !! b = Some va).
  { destruct (decide (a = b)) as [->|]; [|by rewrite lookup_insert_ne, lookup_insert_eq].
    rewrite lookup_insert_eq. congruence. }
  split; [done|]. split; [done|].
  split; [intros c ? ?; by rewrite !lookup_insert_ne|].
  split; [done|]. split; [done|]. split; [done|].
  split; [by apply get_size_eq|]. split; [by apply get_size_eq|].
  split; [by apply Capacity_eq|]. split; [by apply Capacity_eq|].
  split; [unfold contents; simpl; by rewrite Ha', Hb|].
  split; [unfold contents; simpl; by rewrite Hb', Ha|].
  split; intros xs cap Hh.
  - apply (holds_same_heap (mkState h vs o l) _ b a); [done | simpl; congruence | done].
  - apply (holds_same_heap (mkState h vs o l) _ a b); [done | simpl; congruence | done].
Qed.

End Claims.

(** ** Runs on [Vector<int>] *)

Lemma push_123_run : push_123 s0 = Ret tt st123.
Proof. vm_compute. reflexivity. Qed.

Lemma two_vectors_run : two_vectors s0 = Ret tt st_two.
Proof. vm_compute. reflexivity. Qed.

Lemma holds_st123 : holds st123 0%nat [1; 2; 3] 4.
Proof. eexists. split; [reflexivity|]. repeat split; vm_compute; congruence. Qed.

Lemma holds_st_two_0 : holds st_two 0%nat [1; 2] 2.
Proof. eexists. split; [reflexivity|]. repeat split; vm_compute; congruence. Qed.

Lemma holds_st_two_1 : holds st_two 1%nat [3] 1.
Proof. eexists. split; [reflexivity|]. repeat split; vm_compute; congruence. Qed.

Lemma separate_st_two_0_1 : separate st_two 0%nat 1%nat.
Proof.
  intros va vb b Ha Hb Hba. vm_compute in Ha, Hb.
  injection Ha as <-. injection Hb as <-. simpl in *. congruence.
Qed.

Lemma separate_st_two_1_0 : separate st_two 1%nat 0%nat.
Proof.
  intros va vb b Ha Hb Hba. vm_compute in Ha, Hb.
  injection Ha as <-. injection Hb as <-. simpl in *. congruence.
Qed.

(** C1.  The vector [1, 2, 3] (capacity 4) under [Resize(5)]: the call
    returns with [Size() == 5], but the two new values were constructed
    over slots 0 and 1 instead of slots 3 and 4.  The block reads
    [0, 0, 3, raw, raw]: the original elements at positions 0 and 1 are
    gone (overwritten without being destroyed), position 0 reads 0, and
    positions 3 and 4 hold no object.  Resizing back to 3 leaves
    [0, 0, 3], not [1, 2, 3]. *)
Theorem Resize_up_overwrites_front :
  push_123 s0 = Ret tt st123
  ∧ contents st123 0%nat = Some [1; 2; 3]
  ∧ Resize 0%nat 5 st123 = Ret tt st_resized
  ∧ Size 0%nat st_resized = Ret 5 st_resized
  ∧ heap st_resized !! 3%nat = Some [Obj 0; Obj 0; Obj 3; Raw; Raw]
  ∧ contents st_resized 0%nat = None
  ∧ (p <- Vector_index 0%nat 0 ;; read p) st_resized = Ret 0 st_resized
  ∧ (p <- Vector_index 0%nat 3 ;; read p) st_resized = UB
  ∧ Resize 0%nat 3 st_resized = Ret tt st_resized_back
  ∧ Size 0%nat st_resized_back = Ret 3 st_resized_back
  ∧ contents st_resized_back 0%nat = Some [0; 0; 3].
Proof. repeat split; vm_compute; reflexivity. Qed.

(** C2.  Move assignment into the non-empty vector [1, 2]: the call
    performs no element operation and no deallocation (the log is
    unchanged), the block that held [1, 2] stays allocated with both
    objects alive, and no vector refers to it any more.  After both
    vectors are destroyed that block is still allocated. *)
Theorem move_assign_leaks_destination :
  two_vectors s0 = Ret tt st_two
  ∧ contents st_two 0%nat = Some [1; 2]
  ∧ move_assign 0%nat 1%nat st_two = Ret 0%nat st_moved
  ∧ log st_moved = log st_two
  ∧ heap st_moved !! 1%nat = Some [Obj 1; Obj 2]
  ∧ map_to_list (vecs st_moved)
    = [(1%nat, {| data_ := {| buffer_ := nullptr; capacity_ := 0 |}; size_ := 0 |});
       (0%nat, {| data_ := {| buffer_ := Some 2%nat; capacity_ := 1 |}; size_ := 1 |})]
  ∧ (Vector_delete 0%nat ;;; Vector_delete 1%nat) st_moved
    = Ret tt (mkState {[ 1%nat := [Obj 1; Obj 2] ]} ∅ []
                (log st_two ++ [EvDtor 3; EvFree 2%nat])).
Proof. repeat split; vm_compute; reflexivity. Qed.

(** C8.  A vector reached by the default constructor, three [PushBack]s
    and [Resize(4)] has [Size() == 4 <= Capacity() == 4], yet its slot 3,
    which lies below [Size()], was never constructed: the block reads
    [0, 2, 3, raw], and element 0 was overwritten without being
    destroyed. *)
Theorem Resize_breaks_invariant :
  ∃ s : state Z,
    grow_in_place s0 = Ret tt s
    ∧ Size 0%nat s = Ret 4 s
    ∧ Capacity 0%nat s = Ret 4 s
    ∧ heap s !! 2%nat = Some [Obj 0; Obj 2; Obj 3; Raw]
    ∧ contents s 0%nat = None
    ∧ (p <- Vector_index 0%nat 3 ;; read p) s = UB
    ∧ log s = log st123 ++ [EvLost 1; EvOp DefaultCtor 0].
Proof. eexists. split; [vm_compute; reflexivity|]. repeat split. Qed.

(** The state of C8 satisfies no instance of the class invariant. *)
Lemma Resize_breaks_holds (s : state Z) xs cap :
  grow_in_place s0 = Ret tt s → ¬ holds s 0%nat xs cap.
Proof.
  intros Hrun Hh. apply holds_contents in Hh.
  vm_compute in Hrun. injection Hrun as <-. vm_compute in Hh. congruence.
Qed.

(** The growth path when relocation by copy throws: [PushBack(5)] on the
    full vector [13] copy-constructs 5 in the new block, the copy of 13
    throws, and the new block is released while the copy of 5 in it was
    never destroyed.  The vector itself is left as it was. *)
Lemma PushBack_growth_leaks_on_throw :
  push_fragile s0 = Ret tt st_fragile
  ∧ @PushBack Z fragile_element 0%nat 5 st_fragile
    = Throw (elem_exn CopyCtor)
        (mkState (heap st_fragile) (vecs st_fragile) []
           (log st_fragile ++ [EvAlloc 1%nat 2; EvOp CopyCtor 5; EvFree 1%nat])).
Proof. split; vm_compute; reflexivity. Qed.

(** C6, as stated, fails for self-move-assignment: the source of
    [v = std::move(v)] keeps its three elements. *)
Lemma self_move_assign_keeps_elements :
  ∃ s' : state Z,
    move_assign 0%nat 0%nat st123 = Ret 0%nat s'
    ∧ Size 0%nat s' = Ret 3 s'
    ∧ Size 0%nat s' ≠ Ret 0 s'
    ∧ contents s' 0%nat = Some [1; 2; 3].
Proof.
  eexists. split; [vm_compute; reflexivity|].
  split; [vm_compute; reflexivity|]. split; [vm_compute; congruence|].
  vm_compute; reflexivity.
Qed.

(** ** Instances of the theorems that carry hypotheses *)

(** A concrete vector satisfies [holds]. *)
Ltac concrete_holds :=
  eexists; split; [reflexivity|]; repeat split; vm_compute; congruence.

(** Two concrete vectors own different blocks. *)
Ltac concrete_separate :=
  let va := fresh in let vb := fresh in let b := fresh in
  let Ha := fresh in let Hb := fresh in let Hba := fresh in
  intros va vb b Ha Hb Hba; vm_compute in Ha, Hb;
  injection Ha as <-; injection Hb as <-; simpl in *; congruence.

Lemma PushBack_appends_and_doubles_witness :
  holds st_two 0%nat [1; 2] 2
  ∧ ∃ s', PushBack 0%nat 3 st_two = Ret tt s'
        ∧ holds s' 0%nat [1; 2; 3] 4
        ∧ Size 0%nat s' = Ret 3 s'
        ∧ Capacity 0%nat s' = Ret 4 s'.
Proof.
  assert (Hh : holds st_two 0%nat [1; 2] 2) by concrete_holds.
  split; [exact Hh|].
  destruct (PushBack_appends_and_doubles st_two 0%nat [1; 2] 2 3 Hh) as (Hpush & _).
  { intros _. split; [split; [vm_compute; congruence | reflexivity] | repeat constructor]. }
  destruct (Hpush eq_refl) as (s' & Hrun & Hh' & Hsz & _ & Hcap).
  exists s'. repeat split; assumption.
Defined.

Lemma copy_assign_beyond_capacity_witness :
  holds st_two 1%nat [3] 1 ∧ holds st_two 0%nat [1; 2] 2
  ∧ ∃ s', copy_assign 1%nat 0%nat st_two = Ret 1%nat s'
        ∧ holds s' 1%nat [1; 2] 2
        ∧ holds s' 0%nat [1; 2] 2.
Proof.
  assert (H1 : holds st_two 1%nat [3] 1) by concrete_holds.
  assert (H0 : holds st_two 0%nat [1; 2] 2) by concrete_holds.
  assert (Hsep : separate st_two 1%nat 0%nat) by concrete_separate.
  split; [exact H1|]. split; [exact H0|].
  pose proof (copy_assign_beyond_capacity st_two 1%nat 0%nat [3] 1 [1; 2] 2 H1 H0 Hsep eq_refl)
    as Hm.
  destruct (copy_assign 1%nat 0%nat st_two) as [a s'|e s'|].
  - destruct Hm as (-> & _ & _ & Ht & Hr & _). exists s'. repeat split; assumption.
  - exfalso. destruct Hm as [[[_ Hoom]|(_ & _ & Hthrow)] _].
    + vm_compute in Hoom. congruence.
    + apply Hthrow. repeat constructor.
  - destruct Hm.
Defined.

Lemma copy_assign_within_capacity_witness :
  holds st_two 0%nat [1; 2] 2 ∧ holds st_two 1%nat [3] 1
  ∧ ∃ s', copy_assign 0%nat 1%nat st_two = Ret 0%nat s'
        ∧ holds s' 0%nat [3] 2
        ∧ Capacity 0%nat s' = Ret 2 s'
        ∧ log s' = log st_two ++ [EvOp CopyAssign 3; EvDtor 2].
Proof.
  assert (H0 : holds st_two 0%nat [1; 2] 2) by concrete_holds.
  assert (H1 : holds st_two 1%nat [3] 1) by concrete_holds.
  assert (Hsep : separate st_two 0%nat 1%nat) by concrete_separate.
  split; [exact H0|]. split; [exact H1|].
  destruct (copy_assign_within_capacity st_two 0%nat 1%nat [1; 2] 2 [3] 1 H0 H1)
    as (s' & Hrun & Ht & _ & _ & Hcap & _ & _ & _ & _ & Hlog & _).
  { intros _. exact Hsep. }
  { vm_compute. congruence. }
  { repeat constructor. }
  { repeat constructor. }
  exists s'. split; [exact Hrun|]. split; [exact Ht|]. split; [exact Hcap|].
  apply Hlog. discriminate.
Defined.

Lemma move_transfers_storage_witness :
  holds st_two 1%nat [3] 1
  ∧ ∃ s', move_assign 0%nat 1%nat st_two = Ret 0%nat s'
        ∧ holds s' 0%nat [3] 1
        ∧ Size 1%nat s' = Ret 0 s'
        ∧ ∃ s'', PushBack 1%nat 7 s' = Ret tt s'' ∧ holds s'' 1%nat [7] 1.
Proof.
  assert (H1 : holds st_two 1%nat [3] 1) by concrete_holds.
  split; [exact H1|].
  destruct (move_transfers_storage st_two 0%nat 1%nat [3] 1 H1) as (_ & Hassign & _).
  { discriminate. }
  destruct Hassign as (s' & Hrun & Ht & _ & Hsz & _ & Hheap & Hlog & Hoom & Hpush).
  { eexists. reflexivity. }
  exists s'. split; [exact Hrun|]. split; [exact Ht|]. split; [exact Hsz|].
  destruct (Hpush 7 eq_refl) as (s'' & Hrun' & Hr' & _).
  { split; [rewrite Hoom; vm_compute; congruence | reflexivity]. }
  exists s''. split; assumption.
Defined.

Lemma Insert_then_Erase_restores_witness :
  holds st123 0%nat [1; 2; 3] 4
  ∧ ∃ s1 p s2 q,
      Insert 0%nat (Some 2%nat, 1) 9 st123 = Ret p s1
      ∧ contents s1 0%nat = Some [1; 9; 2; 3]
      ∧ Erase 0%nat p s1 = Ret q s2
      ∧ contents s2 0%nat = Some [1; 2; 3]
      ∧ Size 0%nat s2 = Ret 3 s2.
Proof.
  assert (Hh : holds st123 0%nat [1; 2; 3] 4) by concrete_holds.
  split; [exact Hh|].
  destruct (Insert_then_Erase_restores st123 0%nat
              {| data_ := {| buffer_ := Some 2%nat; capacity_ := 4 |}; size_ := 3 |}
              [1; 2; 3] 4 1%nat 9 Hh)
    as (s1 & p & s2 & q & cap' & Hins & Hh1 & _ & Hers & _ & _ & Hc2 & Hsz2).
  { reflexivity. }
  { simpl. lia. }
  { intros op. repeat constructor. }
  { intros Hfull. vm_compute in Hfull. congruence. }
  exists s1, p, s2, q. split; [exact Hins|].
  split; [exact (holds_contents _ _ _ _ Hh1)|].
  split; [exact Hers|]. split; [exact Hc2 | exact Hsz2].
Defined.

Lemma Swap_exchanges_state_witness :
  ∃ s', Swap 0%nat 1%nat st_two = Ret tt s'
      ∧ contents s' 0%nat = Some [3]
      ∧ contents s' 1%nat = Some [1; 2]
      ∧ log s' = log st_two.
Proof.
  destruct (Swap_exchanges_state st_two 0%nat 1%nat
              {| data_ := {| buffer_ := Some 1%nat; capacity_ := 2 |}; size_ := 2 |}
              {| data_ := {| buffer_ := Some 2%nat; capacity_ := 1 |}; size_ := 1 |})
    as (s' & Hrun & _ & _ & _ & _ & Hlog & _ & _ & _ & _ & _ & Hc0 & Hc1 & _).
  { reflexivity. }
  { reflexivity. }
  exists s'. split; [exact Hrun|]. split; [rewrite Hc0; reflexivity|].
  split; [rewrite Hc1; reflexivity | exact Hlog].
Defined.

(** * Further properties of the operations *)

(** ** The storage layer *)

Section Storage.
Context {T : Type} `{Element T}.
Implicit Types (s : state T) (h : gmap loc (list (slot T))) (vs : gmap addr Vector)
  (o : list bool) (l : list (event T)) (xs ys : list T).

(** X1.  [RawMemory(n)] records the capacity [n]; for [n = 0] it holds
    [nullptr] and nothing is allocated, otherwise it holds a block that
    was not allocated before and consists of [n] uninitialized slots,
    every other block being untouched.  Its destructor then returns and
    leaves the heap exactly as it was before the constructor. *)
Theorem RawMemory_release_restores_heap s n :
  0 ≤ n → alloc_ok s n →
  ∃ m s1,
    RawMemory_new n s = Ret m s1
    ∧ capacity_ m = n
    ∧ (n = 0 → buffer_ m = nullptr ∧ s1 = s)
    ∧ (0 < n → ∃ b, buffer_ m = Some b ∧ heap s !! b = None
                ∧ heap s1 !! b = Some (replicate (Z.to_nat n) Raw)
                ∧ ∀ b', b' ≠ b → heap s1 !! b' = heap s !! b')
    ∧ ∃ s2, RawMemory_delete m s1 = Ret tt s2 ∧ heap s2 = heap s ∧ vecs s2 = vecs s.
Proof.
  intros Hn [Ho Hfit]. destruct s as [h vs o l]. simpl in *.
  destruct (decide (n = 0)) as [->|Hne].
  - do 2 eexists. split; [apply RawMemory_new_zero|]. simpl.
    split; [done|]. split; [done|]. split; [lia|].
    eexists. split; [apply RawMemory_delete_null|]. done.
  - do 2 eexists. split; [apply RawMemory_new_ok; [lia|done|done]|]. simpl.
    split; [done|]. split; [lia|]. split.
    + intros _. exists (fresh (dom h)). split; [done|]. split; [apply heap_fresh|].
      split; [by rewrite lookup_insert_eq|]. intros b' Hb'. by rewrite lookup_insert_ne.
    + eexists. split; [eapply RawMemory_delete_ok; by rewrite lookup_insert_eq|]. simpl.
      split; [|done]. rewrite delete_insert_eq. apply delete_id, heap_fresh.
Qed.

(** X2.  [Allocate] multiplies without an overflow check: when
    [n * sizeof(T)] does not fit [size_t], [RawMemory(n)] still returns
    (if the allocator grants the wrapped request), records the capacity
    [n], and holds a block of fewer than [n] slots. *)
Theorem RawMemory_new_wraps s n :
  0 < n < SIZE_MOD → SIZE_MOD ≤ n * sizeof → head (oom s) ≠ Some true →
  ∃ b blk s',
    RawMemory_new n s = Ret {| buffer_ := Some b; capacity_ := n |} s'
    ∧ heap s' !! b = Some blk
    ∧ Z.of_nat (length blk) < n
    ∧ length blk = Z.to_nat (wrap (n * sizeof) / sizeof).
Proof.
  intros Hn Hbig Ho. pose proof sizeof_pos as Hpos.
  destruct s as [h vs o l]. simpl in *.
  unfold RawMemory_new, Allocate.
  destruct (Z.eqb_spec n 0) as [|_]; [lia|]. simpl.
  assert (Hnew : operator_new (wrap (n * sizeof)) (mkState h vs o l)
                 = Ret (fresh (dom h))
                     (mkState (<[fresh (dom h) := replicate (Z.to_nat (wrap (n * sizeof) / sizeof)) Raw]> h)
                        vs (tail o) (l ++ [EvAlloc (fresh (dom h)) (wrap (n * sizeof) / sizeof)]))).
  { unfold operator_new. simpl. destruct o as [|[] o']; simpl in *; done. }
  do 3 eexists. split.
  { unfold bind. rewrite Hnew. reflexivity. }
  simpl. rewrite lookup_insert_eq. split; [done|].
  rewrite length_replicate. split; [|done].
  assert (0 ≤ wrap (n * sizeof) < SIZE_MOD) as Hw by (unfold wrap; apply Z.mod_pos_bound; done).
  assert (wrap (n * sizeof) / sizeof < n) by (apply Z.div_lt_upper_bound; lia).
  assert (0 ≤ wrap (n * sizeof) / sizeof) by (apply Z.div_pos; lia).
  lia.
Qed.

End Storage.

(** ** Construction with a size *)

Section Lifetime.
Context {T : Type} `{Element T}.
Implicit Types (s : state T) (h : gmap loc (list (slot T))) (vs : gmap addr Vector)
  (o : list bool) (l : list (event T)) (xs ys : list T).

Lemma construct_events_raw op (x : T) k :
  replicate k Raw ≫= construct_events op x = replicate k (EvOp op x).
Proof.
  induction k as [|k IH]; [done|].
  change (replicate (S k) (@Raw T)) with (@Raw T :: replicate k Raw).
  by rewrite bind_cons, IH.
Qed.

Lemma block_of_replicate (x : T) (n : nat) :
  block_of (replicate n x) (Z.of_nat n) = replicate n (Obj x).
Proof.
  unfold block_of. by rewrite fmap_replicate, length_replicate, Nat2Z.id, Nat.sub_diag, app_nil_r.
Qed.

Lemma Vector_sized_eq h vs o l a (n : nat) :
  let nb := fresh (dom h) in
  vs !! a = None → (0 < n)%nat →
  head o ≠ Some true → Z.of_nat n * sizeof < SIZE_MOD →
  throws DefaultCtor value_init = false →
  Vector_sized a (Z.of_nat n) (mkState h vs o l)
  = Ret tt
      (mkState (<[nb := block_of (replicate n value_init) (Z.of_nat n)]> h)
         (<[a := {| data_ := {| buffer_ := Some nb; capacity_ := Z.of_nat n |};
                    size_ := Z.of_nat n |}]> vs)
         (tail o)
         (l ++ [EvAlloc nb (Z.of_nat n)] ++ replicate n (EvOp DefaultCtor value_init))).
Proof.
  intros nb Ha Hn Ho Hfit Hvi.
  unfold Vector_sized.
  mstep ltac:(apply RawMemory_new_ok; [lia|done|done]).
  rewrite ?bind_assoc.
  erewrite bind_Ret; cycle 1.
  { apply unwind_Ret. unfold GetAddress. simpl.
    eapply (uninitialized_value_construct_n_ok _ _ _ _ _ _ _ []
              (replicate n Raw) []).
    - rewrite lookup_insert_eq. by rewrite app_nil_r, Nat2Z.id.
    - done.
    - by rewrite length_replicate.
    - done. }
  rewrite create_eq by done. simpl.
  rewrite insert_insert_eq, length_replicate, app_nil_r, block_of_replicate,
    construct_events_raw, <- app_assoc.
  done.
Qed.

Lemma Vector_sized_zero h vs o l a :
  vs !! a = None →
  Vector_sized a 0 (mkState h vs o l)
  = Ret tt (mkState h (<[a := {| data_ := {| buffer_ := nullptr; capacity_ := 0 |};
                                 size_ := 0 |}]> vs) o l).
Proof.
  intros Ha. unfold Vector_sized.
  mstep ltac:(apply RawMemory_new_zero).
  rewrite ?bind_assoc.
  erewrite bind_Ret; cycle 1.
  { apply unwind_Ret. apply uninitialized_value_construct_n_zero. }
  by apply create_eq.
Qed.



(** X3.  [Vector(size)] at a free address returns once the allocation
    of [size] elements is granted and value-initialization does not
    throw (nothing is required for [size == 0]).  The new vector holds
    [size] value-initialized elements with capacity exactly [size]; one
    block is allocated for [size > 0] and none for [size == 0]; every
    other vector and every block that existed is untouched. *)
Theorem Vector_sized_value_initializes s a (n : nat) :
  vecs s !! a = None →
  ((0 < n)%nat → alloc_ok s (Z.of_nat n) ∧ throws DefaultCtor value_init = false) →
  ∃ s' bo,
    Vector_sized a (Z.of_nat n) s = Ret tt s'
    ∧ holds s' a (replicate n value_init) (Z.of_nat n)
    ∧ Size a s' = Ret (Z.of_nat n) s'
    ∧ Capacity a s' = Ret (Z.of_nat n) s'
    ∧ buffer_ ∘ data_ <$> vecs s' !! a = Some bo
    ∧ (bo = nullptr ↔ n = 0%nat)
    ∧ log s' = log s ++ match bo with
                        | Some b => [EvAlloc b (Z.of_nat n)]
                        | None => []
                        end ++ replicate n (EvOp DefaultCtor value_init)
    ∧ (∀ a', a' ≠ a → vecs s' !! a' = vecs s !! a')
    ∧ (∀ b blk, heap s !! b = Some blk → heap s' !! b = Some blk).
Proof.
  intros Ha Hok. destruct s as [h vs o l]. simpl in *.
  destruct n as [|k].
  - exists (mkState h (<[a := {| data_ := {| buffer_ := nullptr; capacity_ := 0 |};
                                 size_ := 0 |}]> vs) o l), nullptr.
    assert (Hh : holds (mkState h (<[a := {| data_ := {| buffer_ := nullptr; capacity_ := 0 |};
                                 size_ := 0 |}]> vs) o l) a [] 0).
    { apply holds_moved_from. simpl. by rewrite lookup_insert_eq. }
    split; [by apply Vector_sized_zero|]. simpl.
    split; [done|]. split; [by apply (holds_size _ _ _ _ Hh)|].
    split; [by apply (holds_capacity _ _ _ _ Hh)|].
    split; [by rewrite lookup_insert_eq|]. split; [done|].
    split; [by rewrite app_nil_r|].
    split; [intros a' Ha'; by rewrite lookup_insert_ne | done].
  - destruct Hok as [[Ho Hfit] Hvi]; [lia|]. simpl in Ho.
    assert (Hh : holds (mkState (<[fresh (dom h) := block_of (replicate (S k) value_init) (Z.of_nat (S k))]> h)
         (<[a := {| data_ := {| buffer_ := Some (fresh (dom h)); capacity_ := Z.of_nat (S k) |};
                    size_ := Z.of_nat (S k) |}]> vs)
         (tail o)
         (l ++ [EvAlloc (fresh (dom h)) (Z.of_nat (S k))] ++ replicate (S k) (EvOp DefaultCtor value_init)))
         a (replicate (S k) value_init) (Z.of_nat (S k))).
    { eapply holds_intro.
      - by rewrite lookup_insert_eq, length_replicate.
      - rewrite length_replicate. lia.
      - done.
      - unfold storage_holds. simpl. by rewrite lookup_insert_eq. }
    do 2 eexists. split; [apply Vector_sized_eq; [done|lia|done..]|].
    split; [exact Hh|].
    split; [rewrite (holds_size _ _ _ _ Hh); by rewrite length_replicate|].
    split; [by apply (holds_capacity _ _ _ _ Hh)|].
    simpl. split; [by rewrite lookup_insert_eq|]. split; [done|].
    split; [done|].
    split; [intros a' Ha'; by rewrite lookup_insert_ne|].
    intros b blk Hb. rewrite lookup_insert_ne; [done|].
    intros <-. by rewrite heap_fresh in Hb.
Qed.


End Lifetime.

(** ** Copies, destruction and moves *)

Section Copies.
Context {T : Type} `{Element T}.
Implicit Types (s : state T) (h : gmap loc (list (slot T))) (vs : gmap addr Vector)
  (o : list bool) (l : list (event T)) (xs ys : list T).

Lemma Vector_copy_empty h vs o l this other (vo : Vector) :
  vs !! this = None → vs !! other = Some vo → size_ vo = 0 →
  Vector_copy this other (mkState h vs o l)
  = Ret tt (mkState h (<[this := {| data_ := {| buffer_ := nullptr; capacity_ := 0 |};
                                    size_ := 0 |}]> vs) o l).
Proof.
  intros Ht Ho Hsz. unfold Vector_copy.
  mstep ltac:(by apply get_eq).
  rewrite Hsz.
  mstep ltac:(apply RawMemory_new_zero).
  rewrite ?bind_assoc.
  erewrite bind_Ret; cycle 1.
  { apply unwind_Ret. mstep ltac:(by apply begin_eq). apply uninitialized_copy_n_zero. }
  by apply create_eq.
Qed.

(** What [holds] says about the record and the block of a non-empty
    vector. *)
Lemma holds_block h vs o l a xs cap :
  holds (mkState h vs o l) a xs cap → xs ≠ [] →
  ∃ b, vs !! a = Some {| data_ := {| buffer_ := Some b; capacity_ := cap |};
                         size_ := Z.of_nat (length xs) |}
       ∧ h !! b = Some (block_of xs cap)
       ∧ Z.of_nat (length xs) ≤ cap ∧ cap * sizeof < SIZE_MOD.
Proof.
  intros ([[bo c] sz] & Hv & Hsz & Hcap & Hle & Hfit & Hst) Hne.
  unfold storage_holds in *. simpl in *. subst c sz.
  destruct bo as [b|].
  - by exists b.
  - destruct xs; [done|]. simpl in *. lia.
Qed.

(** X5.  The copy constructor at a free address returns once the
    allocation is granted and no element copy throws (an empty source
    needs no allocation).  The new vector holds the elements of the
    source in a block of its own, with capacity equal to the size of the
    source, whatever the capacity of the source; each element was copy
    constructed once, in order; the source, every other vector and every
    block that existed are untouched. *)
Theorem Vector_copy_is_deep s this other ys rcap :
  vecs s !! this = None → holds s other ys rcap →
  (ys ≠ [] → head (oom s) ≠ Some true) → nothrow CopyCtor ys →
  ∃ s' bo,
    Vector_copy this other s = Ret tt s'
    ∧ holds s' this ys (Z.of_nat (length ys))
    ∧ holds s' other ys rcap
    ∧ this ≠ other ∧ separate s' this other
    ∧ buffer_ ∘ data_ <$> vecs s' !! this = Some bo
    ∧ (bo = nullptr ↔ ys = [])
    ∧ log s' = log s ++ match bo with
                        | Some b => [EvAlloc b (Z.of_nat (length ys))]
                        | None => []
                        end ++ (EvOp CopyCtor <$> ys)
    ∧ (∀ a', a' ≠ this → vecs s' !! a' = vecs s !! a')
    ∧ (∀ b blk, heap s !! b = Some blk → heap s' !! b = Some blk).
Proof.
  intros Ht Hr Hoom Hys. pose proof sizeof_pos as Hpos.
  destruct s as [h vs o l]. simpl in *.
  assert (Hne : this ≠ other).
  { intros ->. destruct Hr as (v & Hv & _). simpl in Hv. congruence. }
  destruct (decide (ys = [])) as [->|Hnil].
  - destruct Hr as (vo & Hv & Hsz & Hrest). simpl in *.
    do 2 eexists. split; [by eapply Vector_copy_empty|].
    split; [apply holds_moved_from; simpl; by rewrite lookup_insert_eq|].
    split.
    { exists vo. simpl. rewrite lookup_insert_ne by done. done. }
    split; [done|]. split.
    { intros va vb b Ha Hb Hba. simpl in *. rewrite lookup_insert_eq in Ha.
      injection Ha as <-. done. }
    simpl. split; [by rewrite lookup_insert_eq|]. split; [done|].
    split; [by rewrite app_nil_r|].
    split; [intros a' Ha'; by rewrite lookup_insert_ne | done].
  - destruct (holds_block _ _ _ _ _ _ _ Hr Hnil) as (rb & Hv & Hb & Hle & Hfit).
    assert (Hlen : 0 < Z.of_nat (length ys)) by (destruct ys; simpl; [done|lia]).
    assert (Hfit' : Z.of_nat (length ys) * sizeof < SIZE_MOD) by nia.
    assert (Hfresh : fresh (dom h) ≠ rb) by (intros Heq; by rewrite <- Heq, heap_fresh in Hb).
    do 2 eexists. split; [eapply Vector_copy_ok; [done | done | done | done | by apply Hoom | done..]|].
    split.
    { eapply holds_intro; [simpl; by rewrite lookup_insert_eq | lia | done |].
      unfold storage_holds. simpl. by rewrite lookup_insert_eq. }
    split.
    { eapply holds_intro; [simpl; by rewrite lookup_insert_ne | done | done |].
      unfold storage_holds. simpl. by rewrite lookup_insert_ne. }
    split; [done|]. split.
    { intros va vb b Ha Hb' Hba. simpl in *.
      rewrite lookup_insert_eq in Ha. rewrite lookup_insert_ne in Hb' by done.
      injection Ha as <-. rewrite Hv in Hb'. injection Hb' as <-. simpl in *. congruence. }
    simpl. split; [by rewrite lookup_insert_eq|].
    split; [split; [done | intros ->; done]|].
    split; [done|].
    split; [intros a' Ha'; by rewrite lookup_insert_ne|].
    intros b blk Hblk. rewrite lookup_insert_ne; [done|].
    intros <-. by rewrite heap_fresh in Hblk.
Qed.

(** X6.  The copy constructor never has undefined behaviour on a valid
    source.  It returns exactly when the allocation is granted and no
    element copy throws.  Otherwise it throws [bad_alloc] (allocation
    refused) or the exception of the first element copy that throws; the
    elements copied before that one are destroyed again, the new block
    is released, no vector object comes into existence, and the heap
    and every vector are as before. *)
Theorem Vector_copy_all_or_nothing s this other ys rcap :
  vecs s !! this = None → holds s other ys rcap →
  match Vector_copy this other s with
  | Ret _ s' =>
      nothrow CopyCtor ys ∧ (ys ≠ [] → head (oom s) ≠ Some true)
      ∧ holds s' this ys (Z.of_nat (length ys))
  | Throw e s' =>
      heap s' = heap s ∧ vecs s' = vecs s ∧ ys ≠ []
      ∧ (e = bad_alloc ∧ head (oom s) = Some true ∧ log s' = log s
         ∨ e = elem_exn CopyCtor ∧ head (oom s) ≠ Some true
           ∧ ∃ b ys1 y ys2,
               ys = ys1 ++ y :: ys2 ∧ nothrow CopyCtor ys1 ∧ throws CopyCtor y = true
               ∧ heap s !! b = None
               ∧ log s' = log s ++ [EvAlloc b (Z.of_nat (length ys))]
                            ++ (EvOp CopyCtor <$> ys1) ++ (EvDtor <$> ys1) ++ [EvFree b])
  | UB => False
  end.
Proof.
  intros Ht Hr. pose proof sizeof_pos as Hpos.
  destruct s as [h vs o l]. simpl in *.
  destruct (decide (ys = [])) as [->|Hnil].
  - destruct Hr as (vo & Hv & Hsz & Hrest). simpl in *.
    erewrite Vector_copy_empty by done.
    split; [constructor|]. split; [done|].
    apply holds_moved_from. simpl. by rewrite lookup_insert_eq.
  - destruct (holds_block _ _ _ _ _ _ _ Hr Hnil) as (rb & Hv & Hb & Hle & Hfit).
    assert (Hlen : 0 < Z.of_nat (length ys)) by (destruct ys; simpl; [done|lia]).
    assert (Hfit' : Z.of_nat (length ys) * sizeof < SIZE_MOD) by nia.
    destruct (decide (head o = Some true)) as [Ho|Ho].
    + erewrite Vector_copy_bad_alloc; [|done|simpl; lia|done]. simpl.
      split; [done|]. split; [done|]. split; [done|]. by left.
    + destruct (nothrow_split CopyCtor ys) as [Hys|(ys1 & y & ys2 & -> & Hys1 & Hy)].
      * erewrite Vector_copy_ok by done.
        split; [done|]. split; [done|].
        eapply holds_intro; [simpl; by rewrite lookup_insert_eq | lia | done |].
        unfold storage_holds. simpl. by rewrite lookup_insert_eq.
      * erewrite Vector_copy_throws by done. simpl.
        split; [done|]. split; [done|]. split; [done|]. right.
        split; [done|]. split; [done|].
        exists (fresh (dom h)), ys1, y, ys2. split; [done|]. split; [done|].
        split; [done|]. split; [apply heap_fresh | done].
Qed.

Lemma Vector_delete_holds h vs o l a xs cap bo :
  holds (mkState h vs o l) a xs cap →
  buffer_ ∘ data_ <$> vs !! a = Some bo →
  Vector_delete a (mkState h vs o l)
  = Ret tt (mkState (match bo with Some b => delete b h | None => h end)
              (delete a vs) o
              (l ++ (EvDtor <$> xs) ++ match bo with Some b => [EvFree b] | None => [] end)).
Proof.
  intros ([[bo' c] sz] & Hv & Hsz & Hcap & Hle & Hfit & Hst) Hbo.
  unfold storage_holds in *. simpl in *. subst c sz.
  rewrite Hv in Hbo. simpl in Hbo. injection Hbo as ->.
  destruct bo as [b|].
  - by erewrite Vector_delete_block.
  - subst cap. destruct xs; [|simpl in *; lia].
    erewrite Vector_delete_null by done. by rewrite !app_nil_r.
Qed.

(** X7.  The destructor of a valid vector returns: it destroys each of
    its [Size()] elements exactly once, in order, then releases the
    block, and the object ceases to exist.  A vector without a block
    (default constructed or moved from) is destroyed without any element
    operation or deallocation.  Nothing else in the heap changes. *)
Theorem Vector_delete_destroys_all s a xs cap bo :
  holds s a xs cap → buffer_ ∘ data_ <$> vecs s !! a = Some bo →
  ∃ s',
    Vector_delete a s = Ret tt s'
    ∧ vecs s' = delete a (vecs s)
    ∧ heap s' = match bo with Some b => delete b (heap s) | None => heap s end
    ∧ log s' = log s ++ (EvDtor <$> xs) ++ match bo with Some b => [EvFree b] | None => [] end
    ∧ oom s' = oom s.
Proof.
  intros Hh Hbo. destruct s as [h vs o l]. simpl in *.
  eexists. split; [by eapply Vector_delete_holds|]. done.
Qed.

(** X8.  Copy constructing a vector and destroying the copy leaves the
    heap and the vector objects exactly as they were: the block of the
    copy is released, every copied element is destroyed once, and the
    source still holds its elements. *)
Theorem Vector_copy_then_delete_restores s this other ys rcap :
  vecs s !! this = None → holds s other ys rcap →
  (ys ≠ [] → head (oom s) ≠ Some true) → nothrow CopyCtor ys →
  ∃ s',
    (Vector_copy this other ;;; Vector_delete this) s = Ret tt s'
    ∧ heap s' = heap s ∧ vecs s' = vecs s
    ∧ holds s' other ys rcap
    ∧ ∃ fore aft, log s' = log s ++ fore ++ (EvOp CopyCtor <$> ys) ++ (EvDtor <$> ys) ++ aft
        ∧ match fore, aft with
          | [], [] => ys = []
          | [EvAlloc b n], [EvFree b'] => b = b' ∧ n = Z.of_nat (length ys)
          | _, _ => False
          end.
Proof.
  intros Ht Hr Hoom Hys. pose proof sizeof_pos as Hpos.
  destruct s as [h vs o l]. simpl in *.
  assert (Hne : this ≠ other).
  { intros ->. destruct Hr as (v & Hv & _). simpl in Hv. congruence. }
  destruct (decide (ys = [])) as [->|Hnil].
  - pose proof Hr as (vo & Hv & Hsz & Hrest). simpl in *.
    eexists. split.
    { mstep ltac:(by eapply Vector_copy_empty).
      eapply Vector_delete_null. by rewrite lookup_insert_eq. }
    simpl. split; [done|]. split; [by rewrite delete_insert_eq, delete_id|].
    split.
    { exists vo. simpl. by rewrite delete_insert_eq, delete_id. }
    exists [], []. by rewrite !app_nil_r.
  - destruct (holds_block _ _ _ _ _ _ _ Hr Hnil) as (rb & Hv & Hb & Hle & Hfit).
    assert (Hlen : 0 < Z.of_nat (length ys)) by (destruct ys; simpl; [done|lia]).
    assert (Hfit' : Z.of_nat (length ys) * sizeof < SIZE_MOD) by nia.
    eexists. split.
    { mstep ltac:(eapply Vector_copy_ok; [done | done | done | done | by apply Hoom | done..]).
      eapply Vector_delete_block; by rewrite lookup_insert_eq. }
    simpl. split; [by rewrite delete_insert_eq, delete_id by apply heap_fresh|].
    split; [by rewrite delete_insert_eq, delete_id|].
    split.
    { rewrite !delete_insert_eq, !delete_id by (done || apply heap_fresh).
      eapply holds_intro; [done..|]. done. }
    eexists [_], [_]. rewrite <- !app_assoc. simpl. split; [done|]. done.
Qed.

(** X9.  Move constructing a vector and then destroying both objects
    has exactly the effect of destroying the original: the elements are
    destroyed once, the block is released once, and the destructor of
    the moved-from object does nothing. *)
Theorem Vector_move_then_delete_once s this rhs xs cap :
  holds s rhs xs cap → vecs s !! this = None →
  ∃ s1,
    Vector_delete rhs s = Ret tt s1
    ∧ (Vector_move this rhs ;;; Vector_delete rhs ;;; Vector_delete this) s = Ret tt s1.
Proof.
  intros Hh Ht. destruct s as [h vs o l].
  pose proof Hh as ([[bo c] sz] & Hv & Hsz & Hcap & Hle & Hfit & Hst).
  unfold storage_holds in *. simpl in *. subst c sz.
  assert (Hne : this ≠ rhs) by congruence.
  eexists. split.
  { eapply Vector_delete_holds; [done|]. by rewrite Hv. }
  mstep ltac:(by eapply Vector_move_eq).
  mstep ltac:(eapply Vector_delete_null; by rewrite lookup_insert_eq).
  rewrite delete_insert_eq.
  erewrite Vector_delete_holds; cycle 1.
  - eapply holds_intro; [|done|done|done].
    rewrite lookup_delete_ne, lookup_insert_eq by done. done.
  - rewrite lookup_delete_ne, lookup_insert_eq by done. done.
  - simpl. f_equal. f_equal.
    apply map_eq. intros i.
    destruct (decide (i = this)) as [->|]; [by simplify_map_eq|].
    destruct (decide (i = rhs)) as [->|]; by simplify_map_eq.
Qed.

End Copies.

(** ** Element access and iterators *)

Section Access.
Context {T : Type} `{Element T}.
Implicit Types (s : state T) (h : gmap loc (list (slot T))) (vs : gmap addr Vector)
  (o : list bool) (l : list (event T)) (xs ys : list T).

(** The slot [i] of a valid vector holds element [i]. *)
Lemma holds_read s a (v : Vector) xs cap (i : nat) x :
  holds s a xs cap → vecs s !! a = Some v → xs !! i = Some x →
  read (buffer_ (data_ v), Z.of_nat i) s = Ret x s.
Proof.
  intros (v' & Hv' & Hsz & Hcap & Hle & Hfit & Hst) Hv Hi.
  rewrite Hv in Hv'. injection Hv' as <-.
  pose proof (lookup_lt_Some _ _ _ Hi) as Hlt.
  destruct s as [h vs o l]. simpl in *. unfold storage_holds in Hst.
  destruct (buffer_ (data_ v)) as [b|]; [|lia].
  eapply (read_mid _ _ _ _ _ _ (Obj <$> take i xs) x
            ((Obj <$> drop (S i) xs) ++ replicate (Z.to_nat cap - length xs) Raw)).
  - rewrite Hst, Hcap. unfold block_of.
    rewrite <- (take_drop_middle xs i x Hi) at 1.
    by rewrite fmap_app, <- app_assoc.
  - rewrite length_fmap, length_take. lia.
Qed.

(** No object lives at or beyond slot [Size()]. *)
Lemma holds_read_end s a (v : Vector) xs cap (i : Z) :
  holds s a xs cap → vecs s !! a = Some v → Z.of_nat (length xs) ≤ i →
  read (buffer_ (data_ v), i) s = UB.
Proof.
  intros (v' & Hv' & Hsz & Hcap & Hle & Hfit & Hst) Hv Hi.
  rewrite Hv in Hv'. injection Hv' as <-.
  destruct s as [h vs o l]. simpl in *. unfold storage_holds in Hst.
  unfold read, bind, load. simpl.
  destruct (buffer_ (data_ v)) as [b|]; [|done].
  rewrite Hst. destruct (Z.leb_spec 0 i); [|lia].
  unfold block_of.
  destruct (((Obj <$> xs) ++ replicate (Z.to_nat (capacity_ (data_ v)) - length xs) Raw)
              !! Z.to_nat i) as [x|] eqn:Hx; [|done].
  rewrite lookup_app_r in Hx by (rewrite length_fmap; lia).
  apply lookup_replicate in Hx as [-> _]. done.
Qed.

(** X10.  [operator[]] on a valid vector: for [index < Size()] it
    returns the address [begin() + index], where element [index] lives;
    for any other [index] the assertion of line 185 fails. *)
Theorem Vector_index_checks_bounds s a xs cap (i : Z) :
  holds s a xs cap → 0 ≤ i →
  if i <? Z.of_nat (length xs)
  then ∃ x p, xs !! Z.to_nat i = Some x
            ∧ Vector_index a i s = Ret p s
            ∧ read p s = Ret x s
            ∧ (b <- begin a ;; ret (ptr_add b i)) s = Ret p s
  else Vector_index a i s = UB.
Proof.
  intros Hh Hi.
  pose proof Hh as (v & Hv & Hsz & Hcap & Hle & Hfit & Hst).
  destruct s as [h vs o l]. simpl in *.
  destruct (Z.ltb_spec i (Z.of_nat (length xs))) as [Hlt|Hge].
  - destruct (lookup_lt_is_Some_2 xs (Z.to_nat i)) as [x Hx]; [lia|].
    exists x, (buffer_ (data_ v), i). split; [done|].
    split; [|split].
    + unfold Vector_index, RawMemory_index.
      mstep ltac:(by apply get_size_eq).
      rewrite Hsz. destruct (Z.ltb_spec i (Z.of_nat (length xs))); [|lia]. simpl.
      mstep ltac:(reflexivity).
      mstep ltac:(by apply get_data_eq).
      rewrite Hcap. destruct (Z.ltb_spec i cap); [|lia]. simpl.
      mstep ltac:(reflexivity).
      unfold ret, GetAddress, ptr_add. simpl. done.
    + pose proof (holds_read _ _ _ _ _ _ _ Hh Hv Hx) as Hr.
      by rewrite Z2Nat.id in Hr.
    + mstep ltac:(by apply begin_eq).
      unfold ret, ptr_add. simpl. done.
  - unfold Vector_index.
    mstep ltac:(by apply get_size_eq).
    rewrite Hsz. destruct (Z.ltb_spec i (Z.of_nat (length xs))); [lia|]. done.
Qed.

(** X11.  On a valid vector [begin()] and [cbegin()] agree, [end()] and
    [cend()] agree, the distance from [begin()] to [end()] is [Size()],
    the iterator [begin() + i] designates element [i] for every
    [i < Size()], and no object can be read at [end()]. *)
Theorem iterators_span_the_elements s a xs cap :
  holds s a xs cap →
  ∃ bo,
    begin a s = Ret (bo, 0) s ∧ cbegin a s = Ret (bo, 0) s
    ∧ end_ a s = Ret (bo, Z.of_nat (length xs)) s
    ∧ cend a s = Ret (bo, Z.of_nat (length xs)) s
    ∧ range_length (bo, 0) (bo, Z.of_nat (length xs)) s = Ret (length xs) s
    ∧ (∀ (i : nat) x, xs !! i = Some x → read (ptr_add (bo, 0) (Z.of_nat i)) s = Ret x s)
    ∧ read (bo, Z.of_nat (length xs)) s = UB.
Proof.
  intros Hh.
  pose proof Hh as (v & Hv & Hsz & Hcap & Hle & Hfit & Hst).
  exists (buffer_ (data_ v)).
  assert (He : end_ a s = Ret (buffer_ (data_ v), Z.of_nat (length xs)) s).
  { destruct s as [h vs o l]. simpl in *. rewrite <- Hsz. by apply end_eq. }
  split; [destruct s; by apply begin_eq|].
  split; [destruct s; by apply cbegin_eq|].
  split; [done|]. split; [exact He|].
  split.
  { rewrite range_length_ok by lia. do 2 f_equal. lia. }
  split.
  { intros i x Hi. unfold ptr_add. simpl. by eapply holds_read. }
  eapply holds_read_end; [done..|lia].
Qed.

End Access.

(** ** [Reserve] and [PopBack] *)

Section Modifiers.
Context {T : Type} `{Element T}.
Implicit Types (s : state T) (h : gmap loc (list (slot T))) (vs : gmap addr Vector)
  (o : list bool) (l : list (event T)) (xs ys : list T).

Lemma bind_UB_l {A B} (m : M T A) (k : A → M T B) s : m s = UB → bind m k s = UB.
Proof. intros Hm. unfold bind. by rewrite Hm. Qed.

(** A valid vector either owns no block, and is then empty with
    capacity 0, or owns a block laid out as [block_of] says. *)
Lemma holds_cases h vs o l a xs cap :
  holds (mkState h vs o l) a xs cap →
  (xs = [] ∧ cap = 0
   ∧ vs !! a = Some {| data_ := {| buffer_ := nullptr; capacity_ := 0 |}; size_ := 0 |})
  ∨ ∃ b, vs !! a = Some {| data_ := {| buffer_ := Some b; capacity_ := cap |};
                           size_ := Z.of_nat (length xs) |}
         ∧ h !! b = Some (block_of xs cap)
         ∧ Z.of_nat (length xs) ≤ cap ∧ cap * sizeof < SIZE_MOD ∧ cap < SIZE_MOD.
Proof.
  intros ([[bo c] sz] & Hv & Hsz & Hcap & Hle & Hfit & Hst).
  pose proof (cap_lt_mod _ Hfit) as Hlt.
  unfold storage_holds in *. simpl in *. subst c sz.
  destruct bo as [b|].
  - right. by exists b.
  - left. subst cap. destruct xs; [done|]. simpl in *. lia.
Qed.



(** X12.  [Reserve(n)] on a valid vector returns when [n] does not
    exceed the capacity, and otherwise when the allocation is granted
    and relocating the elements does not throw.  The elements and
    [Size()] are unchanged and the capacity becomes [max(capacity, n)]:
    it never shrinks.  With [n <= Capacity()] the call changes nothing
    at all.  Otherwise exactly one block of [n] slots is allocated, each
    element is relocated once, the old objects are destroyed and the
    old block is released.  Other vectors and their blocks are
    untouched. *)
Theorem Reserve_keeps_elements s a xs cap n :
  holds s a xs cap →
  (cap < n → alloc_ok s n ∧ nothrow relocate_op xs) →
  ∃ s',
    Reserve a n s = Ret tt s'
    ∧ holds s' a xs (Z.max cap n)
    ∧ Size a s' = Ret (Z.of_nat (length xs)) s'
    ∧ Capacity a s' = Ret (Z.max cap n) s'
    ∧ frame s s' a
    ∧ (n ≤ cap → s' = s)
    ∧ (cap < n →
       ∃ nb, heap s !! nb = None
           ∧ buffer_ ∘ data_ <$> vecs s' !! a = Some (Some nb)
           ∧ oom s' = tail (oom s)
           ∧ log s' = log s ++ [EvAlloc nb n] ++ (EvOp relocate_op <$> xs)
                        ++ (EvDtor <$> relocated xs)
                        ++ match buffer_ ∘ data_ <$> vecs s !! a with
                           | Some (Some ob) => [EvFree ob]
                           | _ => []
                           end).
Proof.
  intros Hh Hg.
  destruct (Reserve_spec s a xs cap n Hh Hg) as (s' & Hrun & Hh' & Hfr).
  exists s'. split; [done|]. split; [done|].
  split; [by apply (holds_size _ _ _ _ Hh')|].
  split; [by apply (holds_capacity _ _ _ _ Hh')|].
  split; [done|].
  destruct s as [h vs o l]. simpl.
  pose proof Hh as (v & Hv & _ & Hcap & _). simpl in Hv.
  split.
  - intros Hn. rewrite (Reserve_enough h vs o l a v n Hv) in Hrun by lia. congruence.
  - intros Hn. destruct (Hg Hn) as [[Ho Hfit] Hxs]. simpl in Ho.
    exists (fresh (dom h)). split; [apply heap_fresh|].
    destruct (holds_cases _ _ _ _ _ _ _ Hh) as [(-> & -> & Hv0)|(b & Hvb & Hb & Hle & _)].
    + rewrite Reserve_grow_null in Hrun by done. injection Hrun as <-. simpl.
      rewrite lookup_insert_eq, Hv0. simpl.
      split; [done|]. split; [done|]. unfold relocated. by destruct relocate_by_move.
    + rewrite (Reserve_grow_block _ _ _ _ _ b cap xs) in Hrun by done.
      injection Hrun as <-. simpl.
      rewrite lookup_insert_eq, Hvb. done.
Qed.


(** X14.  [PopBack] on a valid vector always returns.  On a non-empty
    vector it destroys exactly the last element and leaves the others in
    place; on an empty vector it changes nothing.  It never allocates or
    releases memory: the block and the capacity stay the same. *)
Theorem PopBack_removes_last s a xs cap :
  holds s a xs cap →
  ∃ s',
    PopBack a s = Ret tt s'
    ∧ holds s' a (take (length xs - 1) xs) cap
    ∧ Capacity a s' = Ret cap s'
    ∧ data_ <$> vecs s' !! a = data_ <$> vecs s !! a
    ∧ dom (heap s') = dom (heap s)
    ∧ oom s' = oom s
    ∧ log s' = log s ++ (EvDtor <$> drop (length xs - 1) xs)
    ∧ frame s s' a
    ∧ (xs = [] → s' = s).
Proof.
  intros Hh.
  destruct (PopBack_spec s a xs cap Hh) as (s' & Hrun & Hh' & Hfr).
  exists s'. split; [done|]. split; [done|].
  split; [by apply (holds_capacity _ _ _ _ Hh')|].
  destruct s as [h vs o l]. simpl.
  destruct xs as [|z xs _] using rev_ind.
  - pose proof Hh as (v & Hv & Hsz & _). simpl in *.
    rewrite (PopBack_empty _ _ _ _ _ v) in Hrun by done. injection Hrun as <-. simpl.
    by rewrite app_nil_r.
  - destruct (holds_cases _ _ _ _ _ _ _ Hh) as [(Hnil & _)|(b & Hvb & Hb & Hle & _ & Hlt)].
    { by destruct xs. }
    rewrite (PopBack_last _ _ _ _ _ b cap xs z) in Hrun by done.
    injection Hrun as <-. simpl.
    rewrite lookup_insert_eq, Hvb. simpl.
    split; [done|].
    split; [apply dom_insert_lookup_L; by rewrite Hb|].
    split; [done|].
    split; [rewrite length_app; simpl; by rewrite Nat.add_sub, drop_app_length|].
    split; [exact Hfr|].
    intros Hnil. by destruct xs.
Qed.

(** X15.  [PushBack(x)] followed by [PopBack()] gives back the original
    element sequence; only the capacity may have grown. *)
Theorem PushBack_then_PopBack_restores s a xs cap x :
  holds s a xs cap → throws CopyCtor x = false →
  (Z.of_nat (length xs) = cap → alloc_ok s (Z.max 1 (2 * cap)) ∧ nothrow relocate_op xs) →
  ∃ s' cap',
    (PushBack a x ;;; PopBack a) s = Ret tt s'
    ∧ holds s' a xs cap'
    ∧ contents s' a = Some xs
    ∧ Size a s' = Ret (Z.of_nat (length xs)) s'
    ∧ cap ≤ cap'
    ∧ cap' = (if Z.of_nat (length xs) =? cap then Z.max 1 (2 * cap) else cap).
Proof.
  intros Hh Hx Hg.
  destruct (PushBack_spec s a xs cap x Hh Hx Hg) as (s1 & Hrun1 & Hh1 & _).
  destruct (PopBack_spec s1 a _ _ Hh1) as (s2 & Hrun2 & Hh2 & _).
  rewrite length_app in Hh2. simpl in Hh2. rewrite Nat.add_sub, take_app_length in Hh2.
  exists s2. eexists. split.
  { mstep ltac:(exact Hrun1). exact Hrun2. }
  split; [exact Hh2|]. split; [by eapply holds_contents|].
  split; [by eapply holds_size|]. split; [|done].
  destruct (Z.eqb_spec (Z.of_nat (length xs)) cap); lia.
Qed.

End Modifiers.

(** ** Positions *)

Section Positions.
Context {T : Type} `{Element T}.
Implicit Types (s : state T) (h : gmap loc (list (slot T))) (vs : gmap addr Vector)
  (o : list bool) (l : list (event T)) (xs ys : list T).

Lemma Vector_index_eq s a (v : Vector) xs cap i :
  holds s a xs cap → vecs s !! a = Some v → 0 ≤ i < Z.of_nat (length xs) →
  Vector_index a i s = Ret (buffer_ (data_ v), i) s.
Proof.
  intros (v' & Hv' & Hsz & Hcap & Hle & Hfit & Hst) Hv Hi.
  rewrite Hv in Hv'. injection Hv' as <-.
  destruct s as [h vs o l]. simpl in *.
  unfold Vector_index, RawMemory_index.
  mstep ltac:(by apply get_size_eq).
  rewrite Hsz. destruct (Z.ltb_spec i (Z.of_nat (length xs))); [|lia]. simpl.
  mstep ltac:(reflexivity).
  mstep ltac:(by apply get_data_eq).
  rewrite Hcap. destruct (Z.ltb_spec i cap); [|lia]. simpl.
  mstep ltac:(reflexivity).
  unfold ret, GetAddress, ptr_add. simpl. done.
Qed.

(** X16.  [EmplaceBack] returns a reference to the element it has just
    appended: the returned address is [&v[Size() - 1]], which is
    [end() - 1], and the object there is the new value. *)
Theorem EmplaceBack_returns_last s a xs cap op x :
  holds s a xs cap → throws op x = false →
  (Z.of_nat (length xs) = cap → alloc_ok s (Z.max 1 (2 * cap)) ∧ nothrow relocate_op xs) →
  ∃ s' p,
    EmplaceBack a op x s = Ret p s'
    ∧ holds s' a (xs ++ [x]) (if Z.of_nat (length xs) =? cap then Z.max 1 (2 * cap) else cap)
    ∧ Size a s' = Ret (Z.of_nat (length xs) + 1) s'
    ∧ read p s' = Ret x s'
    ∧ Vector_index a (Z.of_nat (length xs)) s' = Ret p s'
    ∧ (e <- end_ a ;; ret (ptr_add e (-1))) s' = Ret p s'.
Proof.
  intros Hh Hx Hg.
  destruct (EmplaceBack_spec s a xs cap op x Hh Hx Hg) as (s' & p & Hrun & Hh' & _).
  exists s', p. split; [done|]. split; [done|].
  assert (Hlen : Z.of_nat (length (xs ++ [x])) = Z.of_nat (length xs) + 1).
  { rewrite length_app. simpl. lia. }
  split; [rewrite (holds_size _ _ _ _ Hh'); by rewrite Hlen|].
  assert (Hp : ∃ v', vecs s' !! a = Some v'
                     ∧ p = (buffer_ (data_ v'), Z.of_nat (length xs))
                     ∧ size_ v' = Z.of_nat (length xs) + 1).
  { destruct s as [h vs o l]. pose proof sizeof_pos as Hpos.
    destruct (holds_cases _ _ _ _ _ _ _ Hh) as [(-> & -> & Hv0)|(b & Hvb & Hb & Hle & Hfit & Hlt)].
    - destruct (Hg eq_refl) as [[Ho Hfit] _]. simpl in *.
      rewrite EmplaceBack_first in Hrun by (done || lia).
      injection Hrun as <- <-. simpl. eexists. rewrite lookup_insert_eq.
      split; [done|]. done.
    - destruct (decide (Z.of_nat (length xs) = cap)) as [Heq|Hneq].
      + destruct (Hg Heq) as [[Ho Hfit'] Hxs]. simpl in *. subst cap.
        rewrite (EmplaceBack_grow _ _ _ _ _ b xs) in Hrun by done.
        injection Hrun as <- <-. simpl. eexists. rewrite lookup_insert_eq.
        split; [done|]. done.
      + rewrite (EmplaceBack_room _ _ _ _ _ b cap xs) in Hrun by (done || lia).
        injection Hrun as <- <-. simpl. eexists. rewrite lookup_insert_eq.
        split; [done|]. done. }
  destruct Hp as (v' & Hv' & -> & Hsz').
  split; [|split].
  - eapply holds_read; [exact Hh' | exact Hv' |].
    by rewrite lookup_app_r, Nat.sub_diag by lia.
  - eapply Vector_index_eq; [exact Hh' | exact Hv' | lia].
  - destruct s' as [h' vs' o' l']. simpl in *.
    mstep ltac:(by apply end_eq).
    unfold ret, ptr_add. simpl. rewrite Hsz'. do 3 f_equal. lia.
Qed.

(** X17.  [Emplace(end(), args...)] and [EmplaceBack(args...)] do the
    same thing: from the same state they reach the same state, with the
    same operations in the same order, and the iterator returned by the
    one is the address of the reference returned by the other. *)
Theorem Emplace_at_end_is_EmplaceBack s a xs cap op x :
  holds s a xs cap → throws op x = false →
  (Z.of_nat (length xs) = cap → alloc_ok s (Z.max 1 (2 * cap)) ∧ nothrow relocate_op xs) →
  ∃ e p s',
    end_ a s = Ret e s
    ∧ Emplace a e op x s = Ret p s'
    ∧ EmplaceBack a op x s = Ret p s'.
Proof.
  intros Hh Hx Hg. destruct s as [h vs o l]. pose proof sizeof_pos as Hpos.
  destruct (holds_cases _ _ _ _ _ _ _ Hh) as [(-> & -> & Hv0)|(b & Hvb & Hb & Hle & Hfit & Hlt)].
  - destruct (Hg eq_refl) as [[Ho Hfit] _]. simpl in *.
    do 3 eexists. split; [by apply end_eq|]. simpl.
    split; [apply Emplace_first; (done || lia)|].
    apply EmplaceBack_first; (done || lia).
  - destruct (decide (Z.of_nat (length xs) = cap)) as [Heq|Hneq].
    + destruct (Hg Heq) as [[Ho Hfit'] Hxs]. simpl in *. subst cap.
      do 3 eexists. split; [by apply end_eq|]. simpl.
      pose proof (Emplace_grow h vs o l a b xs [] op x) as HE.
      cbv zeta in HE. rewrite !app_nil_r in HE.
      split; [apply HE; done|].
      rewrite (EmplaceBack_grow _ _ _ _ _ b xs) by done. done.
    + do 3 eexists. split; [by apply end_eq|]. simpl.
      split; [apply (Emplace_end _ _ _ _ _ b cap xs); (done || lia)|].
      apply (EmplaceBack_room _ _ _ _ _ b cap xs); (done || lia).
Qed.

(** X18.  Erasing the last element is [PopBack]: [Erase(end() - 1)] and
    [PopBack()] reach the same state from the same non-empty vector, and
    the iterator that [Erase] returns is the new [end()]. *)
Theorem Erase_last_is_PopBack s a xs z cap :
  holds s a (xs ++ [z]) cap →
  ∃ e p s',
    end_ a s = Ret e s
    ∧ Erase a (ptr_add e (-1)) s = Ret p s'
    ∧ PopBack a s = Ret tt s'
    ∧ end_ a s' = Ret p s'.
Proof.
  intros Hh. destruct s as [h vs o l].
  destruct (holds_cases _ _ _ _ _ _ _ Hh) as [(Hnil & _)|(b & Hvb & Hb & Hle & Hfit & Hlt)].
  { by destruct xs. }
  assert (Hlen : Z.of_nat (length (xs ++ [z])) + -1 = Z.of_nat (length xs)).
  { rewrite length_app. simpl. lia. }
  do 3 eexists. split; [by apply end_eq|]. simpl.
  unfold ptr_add. simpl. rewrite Hlen.
  pose proof (Erase_eq h vs o l a b cap xs z []) as HE.
  cbv zeta in HE. simpl in HE. rewrite app_nil_r in HE.
  split; [apply HE; (done || constructor)|].
  split; [by apply PopBack_last|].
  erewrite end_eq by (by rewrite lookup_insert_eq). simpl.
  do 2 f_equal. lia.
Qed.

(** X19.  [Erase] has no defined behaviour at [end()]: on an empty
    vector the assertion of line 320 fails, and on a non-empty one the
    range [begin() + ind + 1, end()) given to [std::move] is reversed. *)
Theorem Erase_at_end_is_undefined s a xs cap :
  holds s a xs cap →
  ∃ e, end_ a s = Ret e s ∧ Erase a e s = UB.
Proof.
  intros Hh. destruct s as [h vs o l].
  pose proof Hh as (v & Hv & Hsz & Hcap & Hle & Hfit & Hst). simpl in Hv.
  pose proof (cap_lt_mod _ Hfit) as Hlt.
  eexists. split; [by apply end_eq|].
  unfold Erase.
  mstep ltac:(by apply get_size_eq).
  rewrite Hsz.
  destruct (Z.ltb_spec 0 (Z.of_nat (length xs))) as [Hpos|Hzero]; [|done].
  simpl. mstep ltac:(reflexivity).
  mstep ltac:(apply index_of_eq; [done|lia]).
  mstep ltac:(by apply begin_eq).
  mstep ltac:(by apply end_eq).
  apply bind_UB_l.
  unfold std_move. apply bind_UB_l.
  unfold range_length, ptr_add. simpl.
  rewrite bool_decide_eq_true_2 by done. rewrite Hsz.
  destruct (Z.leb_spec (0 + Z.of_nat (length xs) + 1) (Z.of_nat (length xs))); [lia|].
  done.
Qed.

End Positions.

(** ** [Erase], [Emplace], [Resize] and [Swap] *)

Section Middle.
Context {T : Type} `{Element T}.
Implicit Types (s : state T) (h : gmap loc (list (slot T))) (vs : gmap addr Vector)
  (o : list bool) (l : list (event T)) (xs ys : list T).

(** X20.  [Erase(pos)] at the position of an element, when the move
    assignments of the later elements do not throw: the later elements
    each move one slot to the left, by one move assignment each in
    increasing order, and exactly one object is destroyed, the one left
    in the last slot.  The block and the capacity stay the same, nothing
    is allocated or released, and the returned iterator equals [pos]: it
    designates the element that followed the erased one, or is [end()]
    when the last element was erased. *)
Theorem Erase_shifts_left s a xs1 z ys cap :
  holds s a (xs1 ++ z :: ys) cap → nothrow MoveAssign ys →
  ∃ b p s',
    begin a s = Ret b s
    ∧ p = ptr_add b (Z.of_nat (length xs1))
    ∧ Erase a p s = Ret p s'
    ∧ holds s' a (xs1 ++ ys) cap
    ∧ begin a s' = Ret b s'
    ∧ Capacity a s' = Ret cap s'
    ∧ dom (heap s') = dom (heap s) ∧ oom s' = oom s
    ∧ log s' = log s ++ (EvOp MoveAssign <$> ys) ++ [EvDtor (hole_forward z ys)]
    ∧ match ys with
      | y :: _ => read p s' = Ret y s'
      | [] => end_ a s' = Ret p s'
      end
    ∧ frame s s' a.
Proof.
  intros Hh Hys. destruct s as [h vs o l].
  destruct (holds_cases _ _ _ _ _ _ _ Hh) as [(Hnil & _)|(b & Hvb & Hb & Hle & Hfit & Hlt)].
  { by destruct xs1. }
  destruct (Erase_spec _ a _ xs1 z ys cap Hh Hvb Hys) as (s' & Hrun & Hh' & Hfr).
  simpl in Hrun.
  exists (Some b, 0), (Some b, Z.of_nat (length xs1)), s'.
  split; [exact (begin_eq _ _ _ _ _ _ Hvb)|]. split; [done|]. split; [done|]. split; [done|].
  rewrite (Erase_eq _ _ _ _ _ b cap xs1 z ys) in Hrun by done.
  injection Hrun as <-. simpl.
  split; [erewrite begin_eq by (by rewrite lookup_insert_eq); done|].
  split; [apply (holds_capacity _ _ _ _ Hh')|].
  split; [apply dom_insert_lookup_L; by rewrite Hb|].
  split; [done|]. split; [done|]. split; [|done].
  destruct ys as [|y ys'].
  - erewrite end_eq by (by rewrite lookup_insert_eq). simpl.
    do 2 f_equal. rewrite length_app. simpl. lia.
  - refine (holds_read _ a _ _ _ (length xs1) y Hh' (lookup_insert_eq _ _ _) _).
    by rewrite lookup_app_r, Nat.sub_diag by lia.
Qed.

(** X21.  [Emplace(pos, args...)], and hence both overloads of
    [Insert], at any position [begin() + k] with [k <= Size()]: when the
    operations involved do not throw and, on a full vector, the
    allocation is granted, the new element is placed before the element
    that was at [pos], the elements before keep their order and those
    after follow it; the capacity doubles on a full vector and is kept
    otherwise; the returned iterator is [begin() + k] of the resulting
    vector and designates the new element. *)
Theorem Emplace_inserts_before_pos s a xs1 xs2 cap op x :
  let n := Z.of_nat (length (xs1 ++ xs2)) in
  let cap' := if n =? cap then Z.max 1 (2 * cap) else cap in
  holds s a (xs1 ++ xs2) cap → throws op x = false →
  (n = cap → alloc_ok s (Z.max 1 (2 * cap)) ∧ nothrow relocate_op (xs1 ++ xs2)) →
  (n < cap → xs2 ≠ [] → nothrow MoveCtor xs2 ∧ nothrow MoveAssign (x :: xs2)) →
  ∃ b p s',
    begin a s = Ret b s
    ∧ Emplace a (ptr_add b (Z.of_nat (length xs1))) op x s = Ret p s'
    ∧ holds s' a (xs1 ++ x :: xs2) cap'
    ∧ Size a s' = Ret (n + 1) s'
    ∧ Capacity a s' = Ret cap' s'
    ∧ (b' <- begin a ;; ret (ptr_add b' (Z.of_nat (length xs1)))) s' = Ret p s'
    ∧ read p s' = Ret x s'
    ∧ frame s s' a.
Proof.
  intros n cap' Hh Hx Hg Hmid.
  pose proof Hh as (v & Hv & _).
  destruct (Emplace_spec s a v xs1 xs2 cap op x Hh Hv Hx Hg Hmid)
    as (s' & bo' & Hrun & Hbo' & Hh' & Hfr).
  exists (buffer_ (data_ v), 0), (bo', Z.of_nat (length xs1)), s'.
  split; [destruct s; by apply begin_eq|].
  split; [exact Hrun|]. split; [exact Hh'|].
  split.
  { rewrite (holds_size _ _ _ _ Hh'). do 2 f_equal. subst n.
    rewrite !length_app. simpl. lia. }
  split; [apply (holds_capacity _ _ _ _ Hh')|].
  destruct (vecs s' !! a) as [v'|] eqn:Hv'; [|done].
  simpl in Hbo'. injection Hbo' as <-.
  split.
  { destruct s' as [h' vs' o' l']. simpl in *.
    mstep ltac:(by apply begin_eq). done. }
  split; [|done].
  eapply holds_read; [exact Hh' | exact Hv' |].
  by rewrite lookup_app_r, Nat.sub_diag by lia.
Qed.

(** X22.  [Resize(n)] with [n <= Size()] always returns: it keeps the
    first [n] elements, destroys the others once each, in order, and
    does not touch the block or the capacity; with [n == Size()] it
    changes nothing. *)
Theorem Resize_down_truncates s a xs cap (n : nat) :
  holds s a xs cap → (n ≤ length xs)%nat →
  ∃ s',
    Resize a (Z.of_nat n) s = Ret tt s'
    ∧ holds s' a (take n xs) cap
    ∧ Size a s' = Ret (Z.of_nat n) s'
    ∧ Capacity a s' = Ret cap s'
    ∧ data_ <$> vecs s' !! a = data_ <$> vecs s !! a
    ∧ dom (heap s') = dom (heap s) ∧ oom s' = oom s
    ∧ log s' = log s ++ (EvDtor <$> drop n xs)
    ∧ frame s s' a
    ∧ (n = length xs → s' = s).
Proof.
  intros Hh Hn.
  destruct (Resize_down_spec s a xs cap n Hh Hn) as (s' & Hrun & Hh' & Hfr).
  exists s'. split; [done|]. split; [done|].
  split; [rewrite (holds_size _ _ _ _ Hh'), length_take; do 2 f_equal; lia|].
  split; [apply (holds_capacity _ _ _ _ Hh')|].
  destruct s as [h vs o l]. simpl.
  destruct (decide (n = length xs)) as [->|Hne].
  - pose proof Hh as (v & Hv & Hsz & _). simpl in Hv.
    rewrite <- Hsz, (Resize_same _ _ _ _ _ v) in Hrun by done.
    injection Hrun as <-. simpl. rewrite drop_all, app_nil_r. done.
  - destruct (holds_cases _ _ _ _ _ _ _ Hh) as [(-> & _)|(b & Hvb & Hb & Hle & Hfit & Hlt)].
    { simpl in *. lia. }
    rewrite (Resize_shrink _ _ _ _ _ b cap xs) in Hrun by (done || lia).
    injection Hrun as <-. simpl. rewrite lookup_insert_eq, Hvb. simpl.
    split; [done|]. split; [apply dom_insert_lookup_L; by rewrite Hb|].
    split; [done|]. split; [done|]. split; [done|]. done.
Qed.

(** X23.  On an empty vector [Resize(n)] behaves like construction with
    a size: it returns when the allocation, if one is needed, is granted
    and value-initialization does not throw, and the vector then holds
    [n] value-initialized elements with capacity [max(capacity, n)]. *)
Theorem Resize_empty_value_initializes s a cap (n : nat) :
  holds s a [] cap → (0 < n)%nat →
  Z.of_nat n * sizeof < SIZE_MOD →
  (cap < Z.of_nat n → alloc_ok s (Z.of_nat n)) →
  throws DefaultCtor value_init = false →
  ∃ s',
    Resize a (Z.of_nat n) s = Ret tt s'
    ∧ holds s' a (replicate n value_init) (Z.max cap (Z.of_nat n))
    ∧ Size a s' = Ret (Z.of_nat n) s'
    ∧ contents s' a = Some (replicate n value_init).
Proof.
  intros Hh Hn Hfit Hg Hvi.
  destruct (Resize_empty_spec s a cap n Hh Hn Hfit Hg Hvi) as (s' & Hrun & Hh').
  exists s'. split; [done|]. split; [done|].
  split; [rewrite (holds_size _ _ _ _ Hh'), length_replicate; done|].
  by eapply holds_contents.
Qed.

(** X24.  On a non-empty vector a growing [Resize(n)] returns with
    [Size() == n] and capacity [max(capacity, n)], but the [n - Size()]
    value-initialized objects are constructed from slot 0 on, not from
    slot [Size()] on: element 0 then reads as a value-initialized
    object, slot [n - 1] lies below [Size()] and holds no object, and
    the vector no longer satisfies the invariant of the class for any
    element sequence. *)
Theorem Resize_grow_constructs_at_front s a xs cap (n : nat) :
  holds s a xs cap → xs ≠ [] → (length xs < n)%nat →
  Z.of_nat n * sizeof < SIZE_MOD →
  (cap < Z.of_nat n → alloc_ok s (Z.of_nat n) ∧ nothrow relocate_op xs) →
  throws DefaultCtor value_init = false →
  ∃ s' b,
    Resize a (Z.of_nat n) s = Ret tt s'
    ∧ Size a s' = Ret (Z.of_nat n) s'
    ∧ Capacity a s' = Ret (Z.max cap (Z.of_nat n)) s'
    ∧ begin a s' = Ret (Some b, 0) s'
    ∧ heap s' !! b
      = Some (replicate (n - length xs) (Obj value_init)
                ++ drop (n - length xs) (block_of xs (Z.max cap (Z.of_nat n))))
    ∧ read (Some b, 0) s' = Ret value_init s'
    ∧ read (Some b, Z.of_nat n - 1) s' = UB
    ∧ contents s' a = None
    ∧ ∀ ys c, ¬ holds s' a ys c.
Proof.
  intros Hh Hne Hn Hfit Hg Hvi.
  destruct (Resize_grow s a xs cap n Hh Hn Hfit Hg Hvi) as (s' & b & Hrun & Hv' & Hb').
  destruct (Resize_grow_breaks s a xs cap n Hh Hne Hn Hfit Hg Hvi)
    as (s2 & Hrun2 & Hsz & _ & Hc & Hno).
  rewrite Hrun in Hrun2. injection Hrun2 as <-.
  pose proof Hh as (_ & _ & _ & _ & Hle & _).
  assert (Hxs : (0 < length xs)%nat) by (destruct xs; simpl; [done|lia]).
  exists s', b. split; [done|]. split; [done|].
  destruct s' as [h' vs' o' l']. simpl in *.
  split; [by erewrite Capacity_eq by done|].
  split; [by erewrite begin_eq by done|].
  split; [done|].
  split.
  { eapply (read_mid _ _ _ _ _ _ [] value_init
              (replicate (n - length xs - 1) (Obj value_init)
                 ++ drop (n - length xs) (block_of xs (Z.max cap (Z.of_nat n))))); [|done].
    rewrite Hb'. f_equal.
    replace (n - length xs)%nat with (S (n - length xs - 1)) at 1 by lia. done. }
  split; [|done].
  unfold read, bind, load. simpl. rewrite Hb'.
  destruct (Z.leb_spec 0 (Z.of_nat n - 1)); [|lia].
  rewrite lookup_app_r by (rewrite length_replicate; lia).
  rewrite length_replicate, lookup_drop. unfold block_of.
  rewrite lookup_app_r by (rewrite length_fmap; lia).
  rewrite length_fmap.
  rewrite lookup_replicate_2 by lia. done.
Qed.

(** X25.  After [Reserve(n)] with [n > Size()], a [PushBack] does not
    reallocate: it consults the allocator no more, keeps the block and
    the capacity, and performs exactly one element operation, the copy
    construction of the new element. *)
Theorem Reserve_then_PushBack_keeps_block s a xs cap n x :
  holds s a xs cap → Z.of_nat (length xs) < n →
  (cap < n → alloc_ok s n ∧ nothrow relocate_op xs) →
  throws CopyCtor x = false →
  ∃ s1 s2,
    Reserve a n s = Ret tt s1
    ∧ PushBack a x s1 = Ret tt s2
    ∧ holds s2 a (xs ++ [x]) (Z.max cap n)
    ∧ data_ <$> vecs s2 !! a = data_ <$> vecs s1 !! a
    ∧ dom (heap s2) = dom (heap s1) ∧ oom s2 = oom s1
    ∧ log s2 = log s1 ++ [EvOp CopyCtor x].
Proof.
  intros Hh Hn Hg Hx.
  destruct (Reserve_spec s a xs cap n Hh Hg) as (s1 & Hrun1 & Hh1 & _).
  exists s1. destruct s1 as [h1 vs1 o1 l1].
  destruct (holds_cases _ _ _ _ _ _ _ Hh1) as [(-> & Hcap & _)|(b & Hvb & Hb & Hle & Hfit & Hlt)].
  { simpl in *. lia. }
  eexists. split; [done|].
  split; [apply (PushBack_room _ _ _ _ _ b (Z.max cap n) xs); (done || lia)|].
  split.
  { eapply holds_intro; [| |exact Hfit|].
    - rewrite lookup_insert_eq. rewrite length_app. simpl. do 3 f_equal. lia.
    - rewrite length_app. simpl. lia.
    - unfold storage_holds. simpl. by rewrite lookup_insert_eq. }
  simpl. rewrite lookup_insert_eq, Hvb. simpl.
  split; [done|]. split; [apply dom_insert_lookup_L; by rewrite Hb|]. done.
Qed.

(** X26.  Swapping twice restores the state, and [a.Swap(b)] has the
    same effect as [b.Swap(a)]. *)
Theorem Swap_is_an_involution s a b :
  is_Some (vecs s !! a) → is_Some (vecs s !! b) →
  (Swap a b ;;; Swap a b) s = Ret tt s ∧ Swap a b s = Swap b a s.
Proof.
  intros [va Ha] [vb Hb]. destruct s as [h vs o l]. simpl in *.
  split.
  - mstep ltac:(by apply Swap_eq).
    destruct (decide (a = b)) as [->|Hne].
    + assert (va = vb) by congruence. subst vb.
      erewrite Swap_eq by (by rewrite lookup_insert_eq). do 2 f_equal.
      apply map_eq. intros i. destruct (decide (i = b)) as [->|]; by simplify_map_eq.
    + erewrite Swap_eq; cycle 1.
      { by rewrite lookup_insert_eq. }
      { by rewrite lookup_insert_ne, lookup_insert_eq by done. }
      do 2 f_equal.
      apply map_eq. intros i.
      destruct (decide (i = a)) as [->|]; [by simplify_map_eq|].
      destruct (decide (i = b)) as [->|]; by simplify_map_eq.
  - rewrite (Swap_eq h vs o l a b va vb), (Swap_eq h vs o l b a vb va) by done.
    do 2 f_equal.
    destruct (decide (a = b)) as [->|Hne].
    + by assert (va = vb) as -> by congruence.
    + by apply insert_insert_ne.
Qed.

End Middle.

(** ** Failures *)

Section Failures.
Context {T : Type} `{Element T}.
Implicit Types (s : state T) (h : gmap loc (list (slot T))) (vs : gmap addr Vector)
  (o : list bool) (l : list (event T)) (xs ys : list T).

Lemma unwind_UB_l {A} (c : M T unit) (m : M T A) s : m s = UB → unwind c m s = UB.
Proof. intros Hm. unfold unwind. by rewrite Hm. Qed.

Lemma grown_capacity_eq (n : Z) :
  0 ≤ n → Z.max 1 (2 * n) * sizeof < SIZE_MOD →
  (if n =? 0 then 1 else wrap (n * 2)) = Z.max 1 (2 * n).
Proof.
  intros Hn Hfit. pose proof sizeof_pos.
  destruct (Z.eqb_spec n 0); [lia|]. rewrite wrap_small; nia.
Qed.

Lemma PushBack_room_throws h vs o l a (v : Vector) x :
  vs !! a = Some v → size_ v ≠ capacity_ (data_ v) →
  throws CopyCtor x = true →
  PushBack a x (mkState h vs o l) = Throw (elem_exn CopyCtor) (mkState h vs o l).
Proof.
  intros Hv Hne Hx. unfold PushBack.
  mstep ltac:(by apply get_size_eq).
  mstep ltac:(by apply Capacity_eq).
  destruct (Z.eqb_spec (size_ v) (capacity_ (data_ v))); [done|].
  erewrite bind_Throw; [done|].
  mstep ltac:(by apply begin_eq).
  by apply construct_at_throws.
Qed.

Lemma PushBack_bad_alloc h vs o l a bo (n : Z) x :
  vs !! a = Some {| data_ := {| buffer_ := bo; capacity_ := n |}; size_ := n |} →
  0 ≤ n → Z.max 1 (2 * n) * sizeof < SIZE_MOD →
  head o = Some true →
  PushBack a x (mkState h vs o l) = Throw bad_alloc (mkState h vs (tail o) l).
Proof.
  intros Hv Hn Hfit Ho. unfold PushBack.
  mstep ltac:(by apply get_size_eq).
  mstep ltac:(by apply Capacity_eq).
  simpl. rewrite Z.eqb_refl, grown_capacity_eq by done.
  erewrite bind_Throw; [done|].
  erewrite bind_Throw; [done|].
  apply RawMemory_new_throws; [lia|done].
Qed.

Lemma PushBack_grow_value_throws h vs o l a bo (n : Z) x :
  let cap' := Z.max 1 (2 * n) in
  let nb := fresh (dom h) in
  vs !! a = Some {| data_ := {| buffer_ := bo; capacity_ := n |}; size_ := n |} →
  0 ≤ n → cap' * sizeof < SIZE_MOD →
  head o ≠ Some true → throws CopyCtor x = true →
  PushBack a x (mkState h vs o l)
  = Throw (elem_exn CopyCtor) (mkState h vs (tail o) (l ++ [EvAlloc nb cap'; EvFree nb])).
Proof.
  intros cap' nb Hv Hn Hfit Ho Hx. unfold PushBack. subst cap'.
  mstep ltac:(by apply get_size_eq).
  mstep ltac:(by apply Capacity_eq).
  simpl. rewrite Z.eqb_refl, grown_capacity_eq by done.
  mstep ltac:(apply RawMemory_new_ok; [lia|done|done]).
  rewrite ?bind_assoc.
  erewrite bind_Throw; [done|].
  eapply unwind_Throw.
  - erewrite bind_Throw; [done|]. by apply construct_at_throws.
  - erewrite RawMemory_delete_ok by (by rewrite lookup_insert_eq).
    rewrite delete_insert_eq, delete_id by apply heap_fresh.
    by rewrite <- app_assoc.
Qed.

Lemma PushBack_grow_copy_throws h vs o l a ob xs1 y xs2 x :
  let n := Z.of_nat (length (xs1 ++ y :: xs2)) in
  let cap' := Z.max 1 (2 * n) in
  let nb := fresh (dom h) in
  vs !! a = Some {| data_ := {| buffer_ := Some ob; capacity_ := n |}; size_ := n |} →
  h !! ob = Some (block_of (xs1 ++ y :: xs2) n) →
  head o ≠ Some true → cap' * sizeof < SIZE_MOD →
  relocate_by_move = false →
  throws CopyCtor x = false → nothrow CopyCtor xs1 → throws CopyCtor y = true →
  PushBack a x (mkState h vs o l)
  = Throw (elem_exn CopyCtor)
      (mkState h vs (tail o)
         (l ++ [EvAlloc nb cap'; EvOp CopyCtor x] ++ (EvOp CopyCtor <$> xs1)
            ++ (EvDtor <$> xs1) ++ [EvFree nb])).
Proof.
  intros n cap' nb Hv Hob Ho Hfit Hrel Hx Hxs1 Hy.
  pose proof sizeof_pos as Hpos.
  assert (Hnb : h !! nb = None) by apply heap_fresh.
  assert (Hne : ob ≠ nb) by (intros ->; congruence).
  set (xs := xs1 ++ y :: xs2) in *.
  unfold PushBack. subst cap'.
  mstep ltac:(by apply get_size_eq).
  mstep ltac:(by apply Capacity_eq).
  simpl. rewrite Z.eqb_refl, grown_capacity_eq by (done || lia).
  mstep ltac:(apply RawMemory_new_ok; [lia|done|done]).
  fold nb.
  rewrite ?bind_assoc.
  erewrite bind_Throw; [done|].
  eapply unwind_Throw.
  - unfold GetAddress, ptr_add; simpl.
    mstep ltac:(eapply (construct_at_mid _ _ _ _ _ _ (replicate (length xs) Raw)
                          (replicate (Z.to_nat (Z.max 1 (2 * n)) - length xs - 1) Raw));
                [rewrite lookup_insert_eq; f_equal; apply replicate_split; lia
                |rewrite length_replicate; lia | done]).
    mstep ltac:(by apply begin_eq).
    simpl.
    erewrite bind_Throw; [done|].
    unfold relocate_n. rewrite Hrel.
    eapply (uninitialized_copy_n_throws _ _ _ _ ob nb _ _ _ xs1 y xs2 [] [] []).
    + done.
    + rewrite lookup_insert_ne, lookup_insert_ne by done.
      rewrite Hob. f_equal. by apply block_of_full.
    + done.
    + by rewrite lookup_insert_eq.
    + done.
    + done.
    + done.
    + done.
  - erewrite RawMemory_delete_ok by (by rewrite lookup_insert_eq).
    rewrite delete_insert_eq, delete_insert_eq, delete_id by done.
    by rewrite <- !app_assoc.
Qed.

(** X27.  Strong exception guarantee of [PushBack(const T&)]: on a type
    whose relocation copies, or whose move constructor does not throw on
    the elements held, the call never has undefined behaviour, and when
    it throws ([bad_alloc] from the allocation of the larger block, or
    the exception of a copy constructor) the heap and every vector, this
    one included, are exactly as before the call.  It returns only when
    the copy of the new value did not throw, with the value appended. *)
Theorem PushBack_strong_guarantee s a xs cap x :
  holds s a xs cap →
  (Z.of_nat (length xs) = cap → Z.max 1 (2 * cap) * sizeof < SIZE_MOD) →
  (relocate_by_move = true → nothrow MoveCtor xs) →
  match PushBack a x s with
  | Ret _ s' =>
      holds s' a (xs ++ [x]) (if Z.of_nat (length xs) =? cap then Z.max 1 (2 * cap) else cap)
      ∧ throws CopyCtor x = false
  | Throw e s' =>
      heap s' = heap s ∧ vecs s' = vecs s ∧ holds s' a xs cap
      ∧ (e = bad_alloc ∧ Z.of_nat (length xs) = cap ∧ head (oom s) = Some true
         ∨ e = elem_exn CopyCtor
           ∧ (throws CopyCtor x = true
              ∨ relocate_by_move = false ∧ ¬ nothrow CopyCtor xs))
  | UB => False
  end.
Proof.
  intros Hh Hfit Hmove. destruct s as [h vs o l]. simpl.
  pose proof Hh as (v & Hv & Hsz & Hcap & Hle & Hfitc & Hst). simpl in Hv.
  assert (Hkeep : ∀ o' l', holds (mkState h vs o' l') a xs cap) by (intros; by exists v).
  destruct (decide (Z.of_nat (length xs) = cap)) as [Hfull|Hroom].
  - specialize (Hfit Hfull).
    assert (Hrec : vs !! a = Some {| data_ := {| buffer_ := buffer_ (data_ v);
                                                  capacity_ := cap |}; size_ := cap |}).
    { rewrite Hv. f_equal. destruct v as [[bo c] sz]. simpl in *. congruence. }
    destruct (decide (head o = Some true)) as [Ho|Ho].
    { rewrite (PushBack_bad_alloc _ _ _ _ _ _ cap) by (done || lia). simpl.
      split; [done|]. split; [done|]. split; [done|]. by left. }
    destruct (throws CopyCtor x) eqn:Hx.
    { rewrite (PushBack_grow_value_throws _ _ _ _ _ _ cap) by (done || lia). simpl.
      split; [done|]. split; [done|]. split; [done|]. right. split; [done|]. by left. }
    assert (Hcases : nothrow relocate_op xs
              ∨ relocate_by_move = false
                ∧ ∃ xs1 y xs2, xs = xs1 ++ y :: xs2 ∧ nothrow CopyCtor xs1
                               ∧ throws CopyCtor y = true).
    { unfold relocate_op. destruct relocate_by_move eqn:Hrel.
      - left. by apply Hmove.
      - destruct (nothrow_split CopyCtor xs) as [?|?]; [by left | by right]. }
    destruct Hcases as [Hxs|(Hrel & xs1 & y & xs2 & -> & Hxs1 & Hy)].
    + destruct (PushBack_spec _ a xs cap x Hh Hx) as (s' & Hrun & Hh' & _).
      { intros _. done. }
      rewrite Hrun. done.
    + destruct (holds_cases _ _ _ _ _ _ _ Hh) as [(Hnil & _)|(b & Hvb & Hb & _)].
      { by destruct xs1. }
      rewrite <- Hfull in Hvb, Hb, Hfit.
      rewrite (PushBack_grow_copy_throws _ _ _ _ _ b xs1 y xs2) by done. simpl.
      split; [done|]. split; [done|]. split; [done|]. right. split; [done|].
      right. split; [done|]. by apply nothrow_not_split.
  - destruct (throws CopyCtor x) eqn:Hx.
    + rewrite (PushBack_room_throws _ _ _ _ _ v) by (done || congruence). simpl.
      split; [done|]. split; [done|]. split; [done|]. right. split; [done|]. by left.
    + destruct (PushBack_spec _ a xs cap x Hh Hx) as (s' & Hrun & Hh' & _).
      { intros ?. done. }
      rewrite Hrun. done.
Qed.

(** X28.  The growth path of [PushBack] loses the new element when
    relocation by copy throws: the copy of the pushed value is
    constructed in the new block first, the copies of the old elements
    made before the throwing one are destroyed again, and the new block
    is then released without the copy of the pushed value ever being
    destroyed.  The vector and the heap are as before the call. *)
Theorem PushBack_relocation_failure_leaks s a xs1 y xs2 x :
  let n := Z.of_nat (length (xs1 ++ y :: xs2)) in
  holds s a (xs1 ++ y :: xs2) n →
  relocate_by_move = false → alloc_ok s (2 * n) →
  throws CopyCtor x = false → nothrow CopyCtor xs1 → throws CopyCtor y = true →
  ∃ nb s',
    PushBack a x s = Throw (elem_exn CopyCtor) s'
    ∧ heap s' = heap s ∧ vecs s' = vecs s
    ∧ heap s !! nb = None
    ∧ log s' = log s ++ [EvAlloc nb (2 * n); EvOp CopyCtor x] ++ (EvOp CopyCtor <$> xs1)
                 ++ (EvDtor <$> xs1) ++ [EvFree nb].
Proof.
  intros n Hh Hrel [Ho Hfit] Hx Hxs1 Hy. destruct s as [h vs o l]. simpl in *.
  destruct (holds_cases _ _ _ _ _ _ _ Hh) as [(Hnil & _)|(b & Hvb & Hb & _)].
  { by destruct xs1. }
  assert (Hn : 1 ≤ n) by (subst n; rewrite length_app; simpl; lia).
  assert (Hmax : Z.max 1 (2 * n) = 2 * n) by lia.
  exists (fresh (dom h)). eexists. split.
  { apply (PushBack_grow_copy_throws _ _ _ _ _ b xs1 y xs2); try done.
    fold n. by rewrite Hmax. }
  simpl. fold n. rewrite Hmax. split; [done|]. split; [done|].
  split; [apply heap_fresh | done].
Qed.

Lemma RawMemory_new_eq h vs o l n :
  let nb := fresh (dom h) in
  let m := wrap (n * sizeof) / sizeof in
  n ≠ 0 → head o ≠ Some true →
  RawMemory_new n (mkState h vs o l)
  = Ret {| buffer_ := Some nb; capacity_ := n |}
      (mkState (<[nb := replicate (Z.to_nat m) Raw]> h) vs (tail o) (l ++ [EvAlloc nb m])).
Proof.
  intros nb m Hn Ho. unfold RawMemory_new, Allocate.
  destruct (Z.eqb_spec n 0) as [|_]; [done|]. simpl.
  unfold bind, operator_new. simpl. destruct o as [|[] o']; simpl in *; done.
Qed.

Lemma replicate_snoc_app {A} (x : A) (i : nat) (k : list A) :
  replicate i x ++ x :: k = replicate (S i) x ++ k.
Proof. induction i as [|i IH]; [done|]. simpl. by rewrite IH. Qed.

(** Value construction of more elements than the block has slots runs
    off the end of the block. *)
Lemma value_construct_loop_overrun (m : nat) : ∀ (i : nat) h vs o l b k,
  h !! b = Some (replicate i (Obj value_init) ++ replicate m Raw) →
  throws DefaultCtor value_init = false →
  uninitialized_loop (λ j, construct_at (ptr_add (Some b, 0) j) DefaultCtor value_init)
    (Some b, 0) (Z.of_nat i) (m + S k) (mkState h vs o l) = UB.
Proof.
  induction m as [|m IH]; intros i h vs o l b k Hb Hvi.
  - simpl. apply bind_UB_l. apply unwind_UB_l.
    unfold construct_at. rewrite Hvi. apply bind_UB_l.
    unfold load, ptr_add. simpl. rewrite Hb.
    rewrite Z.add_0_l.
    destruct (Z.leb_spec 0 (Z.of_nat i)); [|lia].
    rewrite Nat2Z.id. simpl. rewrite app_nil_r, lookup_ge_None_2; [done|rewrite length_replicate; lia].
  - change (S m + S k)%nat with (S (m + S k)). cbn [uninitialized_loop].
    erewrite bind_Ret; cycle 1.
    { apply unwind_Ret. unfold ptr_add. simpl.
      eapply (construct_at_any _ _ _ _ _ _ (replicate i (Obj value_init)) Raw
                (replicate m Raw)); [done | by rewrite length_replicate | done]. }
    replace (Z.of_nat i + 1) with (Z.of_nat (S i)) by lia.
    apply IH; [|done].
    by rewrite lookup_insert_eq, replicate_snoc_app.
Qed.

(** X29.  [Vector(size)] with a [size] for which [size * sizeof(T)]
    does not fit [size_t]: nothing checks the multiplication, the block
    obtained is shorter than [size] elements, and value-initializing
    [size] elements in it has undefined behaviour (instead of the call
    failing with an exception). *)
Theorem Vector_sized_overflow_is_undefined s a n :
  0 < n < SIZE_MOD → SIZE_MOD ≤ n * sizeof →
  head (oom s) ≠ Some true → throws DefaultCtor value_init = false →
  Vector_sized a n s = UB.
Proof.
  intros Hn Hbig Ho Hvi. pose proof sizeof_pos as Hpos.
  destruct s as [h vs o l]. simpl in *.
  unfold Vector_sized.
  mstep ltac:(apply RawMemory_new_eq; [lia|done]).
  rewrite ?bind_assoc.
  apply bind_UB_l. apply unwind_UB_l.
  unfold uninitialized_value_construct_n, GetAddress. simpl.
  assert (0 ≤ wrap (n * sizeof) < SIZE_MOD) as Hw by (unfold wrap; apply Z.mod_pos_bound; done).
  assert (wrap (n * sizeof) / sizeof < n) by (apply Z.div_lt_upper_bound; lia).
  assert (0 ≤ wrap (n * sizeof) / sizeof) by (apply Z.div_pos; lia).
  set (m := Z.to_nat (wrap (n * sizeof) / sizeof)).
  replace (Z.to_nat n) with (m + S (Z.to_nat n - m - 1))%nat by lia.
  apply (value_construct_loop_overrun m 0%nat).
  - by rewrite lookup_insert_eq.
  - done.
Qed.

End Failures.

(** ** The allocator oracle and sequences of calls *)

Section Oracle.
Context {T : Type} `{Element T}.
Implicit Types (s : state T).

Lemma oom_mono_same {A} (m : M T A) :
  (∀ s, match m s with Ret _ s' | Throw _ s' => oom s' = oom s | UB => True end) →
  oom_mono m.
Proof. intros Hm s. specialize (Hm s). destruct (m s); [by rewrite Hm..|done]. Qed.

Lemma oom_mono_ret {A} (a : A) : oom_mono (@ret T A a).
Proof. by apply oom_mono_same. Qed.

Lemma oom_mono_throw {A} e : oom_mono (@throw T A e).
Proof. by apply oom_mono_same. Qed.

Lemma oom_mono_undefined {A} : oom_mono (@undefined T A).
Proof. intros s. done. Qed.

Lemma oom_mono_bind {A B} (m : M T A) (k : A → M T B) :
  oom_mono m → (∀ a, oom_mono (T:=T) (k a)) → oom_mono (T:=T) (bind m k).
Proof.
  intros Hm Hk s. unfold bind. specialize (Hm s).
  destruct (m s) as [a s1|e s1|]; [|done..].
  specialize (Hk a s1). destruct (k a s1); [by etrans..|done].
Qed.

Lemma oom_mono_unwind {A} (c : M T unit) (m : M T A) :
  oom_mono c → oom_mono m → oom_mono (T:=T) (unwind c m).
Proof.
  intros Hc Hm s. unfold unwind. specialize (Hm s).
  destruct (m s) as [a s1|e s1|]; [done| |done].
  specialize (Hc s1). destruct (c s1); [by etrans..|done].
Qed.

Lemma oom_mono_operator_new bytes : oom_mono (T:=T) (operator_new bytes).
Proof.
  intros s. unfold operator_new. destruct (oom s) as [|[] o']; simpl.
  - done.
  - by apply suffix_cons_r.
  - by apply suffix_cons_r.
Qed.

Lemma oom_mono_operator_delete buf : oom_mono (T:=T) (operator_delete buf).
Proof.
  apply oom_mono_same. intros s. unfold operator_delete.
  destruct buf; [|done]. by destruct (heap s !! l).
Qed.

Lemma oom_mono_load p : oom_mono (T:=T) (load p).
Proof.
  apply oom_mono_same. intros s. unfold load.
  destruct p.1; [|done]. destruct (heap s !! l); [|done].
  destruct (0 <=? p.2); [|done]. by destruct (l0 !! Z.to_nat p.2).
Qed.

Lemma oom_mono_store p x : oom_mono (T:=T) (store p x).
Proof.
  apply oom_mono_same. intros s. unfold store.
  destruct p.1; [|done]. destruct (heap s !! l); [|done].
  by destruct ((0 <=? p.2) && (p.2 <? Z.of_nat (length l0))).
Qed.

Lemma oom_mono_emit e : oom_mono (T:=T) (emit e).
Proof. apply oom_mono_same. intros s. done. Qed.

Lemma oom_mono_assert b : oom_mono (@assert_ T b).
Proof. destruct b; [apply oom_mono_ret | apply oom_mono_undefined]. Qed.

Lemma oom_mono_get a : oom_mono (T:=T) (get a).
Proof. apply oom_mono_same. intros s. unfold get. by destruct (vecs s !! a). Qed.

Lemma oom_mono_put a v : oom_mono (T:=T) (put a v).
Proof. apply oom_mono_same. intros s. done. Qed.

End Oracle.

Create HintDb oom discriminated.
#[export] Hint Resolve oom_mono_ret oom_mono_throw oom_mono_undefined oom_mono_operator_new
  oom_mono_operator_delete oom_mono_load oom_mono_store oom_mono_emit oom_mono_assert
  oom_mono_get oom_mono_put : oom.

(** Decomposes a computation along its binds, unwinds and branches. *)
Ltac oom_tac :=
  repeat first
    [ progress (intros)
    | solve [auto with oom]
    | apply oom_mono_bind
    | apply oom_mono_unwind
    | match goal with
      | |- oom_mono (if ?b then _ else _) => destruct b
      | |- oom_mono (match ?x with _ => _ end) => destruct x
      | |- oom_mono (let '(_, _) := ?x in _) => destruct x
      end ].

Section OracleOps.
Context {T : Type} `{Element T}.
Implicit Types (s : state T).

Lemma oom_mono_Allocate n : oom_mono (T:=T) (Allocate n).
Proof. unfold Allocate. oom_tac. Qed.
Hint Resolve oom_mono_Allocate : oom.

Lemma oom_mono_RawMemory_new n : oom_mono (T:=T) (RawMemory_new n).
Proof. unfold RawMemory_new. oom_tac. Qed.

Lemma oom_mono_RawMemory_delete m : oom_mono (T:=T) (RawMemory_delete m).
Proof. unfold RawMemory_delete, Deallocate. oom_tac. Qed.
Hint Resolve oom_mono_RawMemory_new oom_mono_RawMemory_delete : oom.

Lemma oom_mono_read p : oom_mono (T:=T) (read p).
Proof. unfold read. oom_tac. Qed.
Hint Resolve oom_mono_read : oom.

Lemma oom_mono_construct_at p op v : oom_mono (T:=T) (construct_at p op v).
Proof. unfold construct_at. oom_tac. Qed.
Hint Resolve oom_mono_construct_at : oom.

Lemma oom_mono_copy_construct p q : oom_mono (T:=T) (copy_construct p q).
Proof. unfold copy_construct. oom_tac. Qed.

Lemma oom_mono_move_construct p q : oom_mono (T:=T) (move_construct p q).
Proof. unfold move_construct. oom_tac. Qed.

Lemma oom_mono_assign_at p op v : oom_mono (T:=T) (assign_at p op v).
Proof. unfold assign_at. oom_tac. Qed.
Hint Resolve oom_mono_copy_construct oom_mono_move_construct oom_mono_assign_at : oom.

Lemma oom_mono_copy_assign_elem p q : oom_mono (T:=T) (copy_assign_elem p q).
Proof. unfold copy_assign_elem. oom_tac. Qed.

Lemma oom_mono_move_assign_elem p q : oom_mono (T:=T) (move_assign_elem p q).
Proof. unfold move_assign_elem. oom_tac. Qed.

Lemma oom_mono_destroy_at p : oom_mono (T:=T) (destroy_at p).
Proof. unfold destroy_at. oom_tac. Qed.
Hint Resolve oom_mono_copy_assign_elem oom_mono_move_assign_elem oom_mono_destroy_at : oom.

Lemma oom_mono_destroy_n p n : oom_mono (T:=T) (destroy_n p n).
Proof.
  unfold destroy_n. generalize (Z.to_nat n). intros k. revert p.
  induction k as [|k IH]; intros p; simpl; oom_tac; eauto.
Qed.
Hint Resolve oom_mono_destroy_n : oom.

Lemma oom_mono_uninitialized_loop step d i n :
  (∀ j, oom_mono (T:=T) (step j)) → oom_mono (T:=T) (uninitialized_loop step d i n).
Proof.
  intros Hstep. revert i. induction n as [|n IH]; intros i; simpl; oom_tac; eauto.
Qed.

Lemma oom_mono_uninitialized_value_construct_n p n :
  oom_mono (T:=T) (uninitialized_value_construct_n p n).
Proof. apply oom_mono_uninitialized_loop. intros j. oom_tac. Qed.

Lemma oom_mono_uninitialized_copy_n p n q : oom_mono (T:=T) (uninitialized_copy_n p n q).
Proof. apply oom_mono_uninitialized_loop. intros j. oom_tac. Qed.

Lemma oom_mono_uninitialized_move_n p n q : oom_mono (T:=T) (uninitialized_move_n p n q).
Proof. apply oom_mono_uninitialized_loop. intros j. oom_tac. Qed.
Hint Resolve oom_mono_uninitialized_value_construct_n oom_mono_uninitialized_copy_n
  oom_mono_uninitialized_move_n : oom.

Lemma oom_mono_relocate_n p n q : oom_mono (T:=T) (relocate_n p n q).
Proof. unfold relocate_n. oom_tac. Qed.
Hint Resolve oom_mono_relocate_n : oom.

Lemma oom_mono_range_length p q : oom_mono (T:=T) (range_length p q).
Proof. unfold range_length. oom_tac. Qed.
Hint Resolve oom_mono_range_length : oom.

Lemma oom_mono_forward_loop step p q n :
  (∀ a b, oom_mono (T:=T) (step a b)) → oom_mono (T:=T) (forward_loop step p q n).
Proof.
  intros Hstep. revert p q. induction n as [|n IH]; intros p q; simpl; oom_tac; eauto.
Qed.

Lemma oom_mono_std_move p q d : oom_mono (T:=T) (std_move p q d).
Proof. unfold std_move. oom_tac; try (apply oom_mono_forward_loop; oom_tac). Qed.

Lemma oom_mono_backward_loop p q n : oom_mono (T:=T) (backward_loop p q n).
Proof. revert p q. induction n as [|n IH]; intros p q; simpl; oom_tac; eauto. Qed.

Lemma oom_mono_std_move_backward p q d : oom_mono (T:=T) (std_move_backward p q d).
Proof. unfold std_move_backward. oom_tac; try apply oom_mono_backward_loop. Qed.
Hint Resolve oom_mono_std_move oom_mono_std_move_backward : oom.

Lemma oom_mono_get_data a : oom_mono (T:=T) (get_data a).
Proof. unfold get_data. oom_tac. Qed.
Lemma oom_mono_get_size a : oom_mono (T:=T) (get_size a).
Proof. unfold get_size. oom_tac. Qed.
Lemma oom_mono_set_data a d : oom_mono (T:=T) (set_data a d).
Proof. unfold set_data. oom_tac. Qed.
Lemma oom_mono_set_size a n : oom_mono (T:=T) (set_size a n).
Proof. unfold set_size. oom_tac. Qed.
Hint Resolve oom_mono_get_data oom_mono_get_size oom_mono_set_data oom_mono_set_size : oom.

Lemma oom_mono_begin a : oom_mono (T:=T) (begin a).
Proof. unfold begin. oom_tac. Qed.
Lemma oom_mono_end a : oom_mono (T:=T) (end_ a).
Proof. unfold end_. oom_tac. Qed.
Lemma oom_mono_cbegin a : oom_mono (T:=T) (cbegin a).
Proof. unfold cbegin. oom_tac. Qed.
Lemma oom_mono_Capacity a : oom_mono (T:=T) (Capacity a).
Proof. unfold Capacity. oom_tac. Qed.
Lemma oom_mono_RawMemory_index m i : oom_mono (T:=T) (RawMemory_index m i).
Proof. unfold RawMemory_index. oom_tac. Qed.
Lemma oom_mono_RawMemory_Swap_local a m : oom_mono (T:=T) (RawMemory_Swap_local a m).
Proof. unfold RawMemory_Swap_local. oom_tac. Qed.
Lemma oom_mono_index_of a p : oom_mono (T:=T) (index_of a p).
Proof. unfold index_of. oom_tac. Qed.
Hint Resolve oom_mono_begin oom_mono_end oom_mono_cbegin oom_mono_Capacity
  oom_mono_RawMemory_index oom_mono_RawMemory_Swap_local oom_mono_index_of : oom.

Lemma oom_mono_Reserve a n : oom_mono (T:=T) (Reserve a n).
Proof. unfold Reserve. oom_tac. Qed.
Hint Resolve oom_mono_Reserve : oom.

Lemma oom_mono_Resize a n : oom_mono (T:=T) (Resize a n).
Proof. unfold Resize. oom_tac. Qed.

Lemma oom_mono_PushBack a x : oom_mono (T:=T) (PushBack a x).
Proof. unfold PushBack. oom_tac. Qed.

Lemma oom_mono_PushBack_move a x : oom_mono (T:=T) (PushBack_move a x).
Proof. unfold PushBack_move. oom_tac. Qed.

Lemma oom_mono_EmplaceBack a op x : oom_mono (T:=T) (EmplaceBack a op x).
Proof. unfold EmplaceBack. oom_tac. Qed.

Lemma oom_mono_PopBack a : oom_mono (T:=T) (PopBack a).
Proof. unfold PopBack. oom_tac. Qed.

Lemma oom_mono_Emplace a p op x : oom_mono (T:=T) (Emplace a p op x).
Proof. unfold Emplace. oom_tac. Qed.

Lemma oom_mono_Erase a p : oom_mono (T:=T) (Erase a p).
Proof. unfold Erase. oom_tac. Qed.
Hint Resolve oom_mono_Resize oom_mono_PushBack oom_mono_PushBack_move oom_mono_EmplaceBack
  oom_mono_PopBack oom_mono_Emplace oom_mono_Erase : oom.

Lemma oom_mono_run_call a (c : call) : oom_mono (T:=T) (run_call a c).
Proof. destruct c; simpl; unfold Insert, Insert_move; oom_tac. Qed.

End OracleOps.

Section Refinement.
Context {T : Type} `{Element T}.
Implicit Types (s : state T) (xs : list T).

Lemma never_refuses_head s : never_refuses s → head (oom s) ≠ Some true.
Proof.
  unfold never_refuses. destruct (oom s) as [|b o']; [done|].
  intros Hf. apply Forall_cons in Hf as [-> _]. done.
Qed.

Lemma never_refuses_run {A} (m : M T A) s a s' :
  oom_mono m → never_refuses s → m s = Ret a s' → never_refuses s'.
Proof.
  intros Hm Hs Hrun. specialize (Hm s). rewrite Hrun in Hm.
  destruct Hm as [k Hk]. unfold never_refuses in *. rewrite Hk in Hs.
  by apply Forall_app in Hs as [_ ?].
Qed.

Lemma fits_spec cap : fits cap = true → cap * sizeof < SIZE_MOD.
Proof. unfold fits. by destruct (Z.ltb_spec (cap * sizeof) SIZE_MOD). Qed.

Lemma grown_ge xs cap : cap ≤ grown xs cap.
Proof. unfold grown. destruct (Z.eqb_spec (Z.of_nat (length xs)) cap); lia. Qed.

Lemma run_call_refines v (c : call) s xs cap xs' cap' :
  (∀ op x, throws op x = false) →
  holds s v xs cap → never_refuses s →
  list_call c (xs, cap) = Some (xs', cap') →
  ∃ s', run_call v c s = Ret tt s' ∧ holds s' v xs' cap' ∧ never_refuses s' ∧ cap ≤ cap'.
Proof.
  intros Hnt Hh Hnr Hc. pose proof sizeof_pos as Hpos.
  assert (Hall : ∀ op (ys : list T), nothrow op ys).
  { intros op ys. apply Forall_forall. intros ? _. apply Hnt. }
  pose proof (never_refuses_head _ Hnr) as Hhead.
  assert (Hgrow : fits (grown xs cap) = true →
            Z.of_nat (length xs) = cap →
            alloc_ok s (Z.max 1 (2 * cap)) ∧ nothrow relocate_op xs).
  { intros Hf Hfull. apply fits_spec in Hf. unfold grown in Hf.
    destruct (Z.eqb_spec (Z.of_nat (length xs)) cap); [|done].
    split; [split|]; done. }
  assert (Hfin : ∀ s', run_call v c s = Ret tt s' → holds s' v xs' cap' → cap ≤ cap' →
            ∃ s', run_call v c s = Ret tt s' ∧ holds s' v xs' cap' ∧ never_refuses s' ∧ cap ≤ cap').
  { intros s' Hrun Hh' Hle. exists s'. split; [done|]. split; [done|]. split; [|done].
    eapply never_refuses_run; [apply oom_mono_run_call | done | done]. }
  pose proof Hh as (vr & Hvr & _).
  destruct c as [x|x|op x| |n|k x|k x|k|n]; simpl in Hc.
  - destruct (fits (grown xs cap)) eqn:Hf; [|done]. injection Hc as <- <-.
    destruct (PushBack_spec s v xs cap x Hh (Hnt _ _) (Hgrow eq_refl)) as (s' & Hrun & Hh' & _).
    apply (Hfin s'); [done | done | apply grown_ge].
  - destruct (fits (grown xs cap)) eqn:Hf; [|done]. injection Hc as <- <-.
    destruct (PushBack_move_spec s v xs cap x Hh (Hnt _ _) (Hgrow eq_refl)) as (s' & Hrun & Hh' & _).
    apply (Hfin s'); [done | done | apply grown_ge].
  - destruct (fits (grown xs cap)) eqn:Hf; [|done]. injection Hc as <- <-.
    destruct (EmplaceBack_spec s v xs cap op x Hh (Hnt _ _) (Hgrow eq_refl))
      as (s' & p & Hrun & Hh' & _).
    apply (Hfin s'); [|done | apply grown_ge].
    simpl. by mstep ltac:(exact Hrun).
  - injection Hc as <- <-.
    destruct (PopBack_spec s v xs cap Hh) as (s' & Hrun & Hh' & _).
    apply (Hfin s'); [done | done | lia].
  - destruct (fits (Z.max cap n)) eqn:Hf; [|done]. injection Hc as <- <-.
    apply fits_spec in Hf.
    destruct (Reserve_spec s v xs cap n Hh) as (s' & Hrun & Hh' & _).
    { intros Hlt. rewrite Z.max_r in Hf by lia. split; [split|]; done. }
    apply (Hfin s'); [done | done | lia].
  - destruct (bool_decide_reflect (k ≤ length xs)%nat) as [Hk|]; [|done]. simpl in Hc.
    destruct (fits (grown xs cap)) eqn:Hf; [|done]. injection Hc as <- <-.
    destruct (Emplace_spec s v vr (take k xs) (drop k xs) cap CopyCtor x)
      as (s' & bo' & Hrun & _ & Hh' & _).
    { by rewrite take_drop. }
    { done. }
    { apply Hnt. }
    { rewrite take_drop. apply (Hgrow eq_refl). }
    { intros _ _. split; apply Hall. }
    rewrite take_drop in Hh'. rewrite length_take, Nat.min_l in Hrun by lia.
    apply (Hfin s'); [|done | apply grown_ge].
    simpl. destruct s as [h vs o l]. simpl in *.
    mstep ltac:(by apply begin_eq).
    unfold ptr_add. simpl.
    by mstep ltac:(exact Hrun).
  - destruct (bool_decide_reflect (k ≤ length xs)%nat) as [Hk|]; [|done]. simpl in Hc.
    destruct (fits (grown xs cap)) eqn:Hf; [|done]. injection Hc as <- <-.
    destruct (Emplace_spec s v vr (take k xs) (drop k xs) cap MoveCtor x)
      as (s' & bo' & Hrun & _ & Hh' & _).
    { by rewrite take_drop. }
    { done. }
    { apply Hnt. }
    { rewrite take_drop. apply (Hgrow eq_refl). }
    { intros _ _. split; apply Hall. }
    rewrite take_drop in Hh'. rewrite length_take, Nat.min_l in Hrun by lia.
    apply (Hfin s'); [|done | apply grown_ge].
    simpl. destruct s as [h vs o l]. simpl in *.
    mstep ltac:(by apply begin_eq).
    unfold ptr_add. simpl.
    by mstep ltac:(exact Hrun).
  - destruct (bool_decide_reflect (k < length xs)%nat) as [Hk|]; [|done].
    injection Hc as <- <-.
    destruct (lookup_lt_is_Some_2 xs k Hk) as [z Hz].
    destruct (Erase_spec s v vr (take k xs) z (drop (S k) xs) cap) as (s' & Hrun & Hh' & _).
    { by rewrite take_drop_middle. }
    { done. }
    { apply Hall. }
    rewrite length_take, Nat.min_l in Hrun by lia.
    apply (Hfin s'); [|done | lia].
    simpl. destruct s as [h vs o l]. simpl in *.
    mstep ltac:(by apply begin_eq).
    unfold ptr_add. simpl.
    by mstep ltac:(exact Hrun).
  - destruct (bool_decide_reflect (n ≤ length xs)%nat) as [Hn|Hn].
    + injection Hc as <- <-.
      destruct (Resize_down_spec s v xs cap n Hh Hn) as (s' & Hrun & Hh' & _).
      apply (Hfin s'); [done | done | lia].
    + destruct xs as [|y ys]; [|done].
      destruct (fits (Z.max cap (Z.of_nat n))) eqn:Hf; [|done]. injection Hc as <- <-.
      apply fits_spec in Hf. simpl in Hn.
      assert (Hfitn : Z.of_nat n * sizeof < SIZE_MOD) by nia.
      destruct (Resize_empty_spec s v cap n Hh) as (s' & Hrun & Hh').
      { lia. }
      { done. }
      { intros _. by split. }
      { apply Hnt. }
      apply (Hfin s'); [done | done | lia].
Qed.

(** X30.  Refinement of the list model.  For an element type none of
    whose operations throws and an allocator that grants every request,
    any sequence of calls to [PushBack] (both overloads), [EmplaceBack],
    [PopBack], [Reserve], [Insert] (both overloads), [Erase] and
    [Resize] that the list model accepts (positions in range, requested
    capacities representable, no [Resize] that grows a non-empty vector)
    returns, and leaves the vector valid with exactly the elements and
    the capacity that the list model computes; the capacity never
    decreases along the way. *)
Theorem calls_refine_list_model v (cs : list call) : ∀ s xs cap xs' cap',
  (∀ op x, throws op x = false) →
  holds s v xs cap → never_refuses s →
  list_calls cs (xs, cap) = Some (xs', cap') →
  ∃ s',
    run_calls v cs s = Ret tt s'
    ∧ holds s' v xs' cap'
    ∧ contents s' v = Some xs'
    ∧ Size v s' = Ret (Z.of_nat (length xs')) s'
    ∧ Capacity v s' = Ret cap' s'
    ∧ cap ≤ cap'
    ∧ never_refuses s'.
Proof.
  induction cs as [|c cs IH]; intros s xs cap xs' cap' Hnt Hh Hnr Hm.
  - simpl in Hm. injection Hm as <- <-. exists s. split; [done|]. split; [done|].
    split; [by eapply holds_contents|]. split; [by eapply holds_size|].
    split; [by eapply holds_capacity|]. split; [lia | done].
  - change (list_calls (c :: cs) (xs, cap))
      with (list_call c (xs, cap) ≫= list_calls cs) in Hm.
    destruct (list_call c (xs, cap)) as [[xs1 cap1]|] eqn:Hc; simpl in Hm; [|done].
    destruct (run_call_refines v c s xs cap xs1 cap1 Hnt Hh Hnr Hc)
      as (s1 & Hrun1 & Hh1 & Hnr1 & Hle1).
    destruct (IH s1 xs1 cap1 xs' cap' Hnt Hh1 Hnr1 Hm)
      as (s' & Hrun & Hh' & Hc' & Hsz & Hcap & Hle & Hnr').
    exists s'. split.
    { simpl. by mstep ltac:(exact Hrun1). }
    repeat split; try done. lia.
Qed.

End Refinement.

(** ** Instances of the further properties *)

Lemma RawMemory_release_restores_heap_witness :
  ∃ m s1 s2,
    RawMemory_new 3 s0 = Ret m s1 ∧ capacity_ m = 3
    ∧ RawMemory_delete m s1 = Ret tt s2 ∧ heap s2 = heap s0.
Proof.
  destruct (RawMemory_release_restores_heap s0 3) as (m & s1 & Hnew & Hcap & _ & _ & s2 & Hdel & Hheap & _).
  { lia. }
  { split; [vm_compute; congruence | reflexivity]. }
  exists m, s1, s2. repeat split; assumption.
Defined.

Lemma RawMemory_new_wraps_witness :
  ∃ b blk s',
    RawMemory_new (2 ^ 62) s0 = Ret {| buffer_ := Some b; capacity_ := 2 ^ 62 |} s'
    ∧ heap s' !! b = Some blk ∧ Z.of_nat (length blk) < 2 ^ 62.
Proof.
  destruct (RawMemory_new_wraps s0 (2 ^ 62)) as (b & blk & s' & Hnew & Hb & Hlen & _).
  { split; [lia | reflexivity]. }
  { vm_compute. congruence. }
  { vm_compute. congruence. }
  exists b, blk, s'. repeat split; assumption.
Defined.

Lemma Vector_sized_value_initializes_witness :
  ∃ s', Vector_sized 0%nat 3 s0 = Ret tt s' ∧ holds s' 0%nat [0; 0; 0] 3.
Proof.
  destruct (Vector_sized_value_initializes s0 0%nat 3) as (s' & bo & Hrun & Hh & _).
  { reflexivity. }
  { intros _. split; [split; [vm_compute; congruence | reflexivity] | reflexivity]. }
  exists s'. split; assumption.
Defined.


Lemma Vector_copy_is_deep_witness :
  ∃ s', Vector_copy 2%nat 0%nat st_two = Ret tt s'
      ∧ holds s' 2%nat [1; 2] 2 ∧ holds s' 0%nat [1; 2] 2.
Proof.
  assert (H0 : holds st_two 0%nat [1; 2] 2) by concrete_holds.
  destruct (Vector_copy_is_deep st_two 2%nat 0%nat [1; 2] 2) as (s' & bo & Hrun & Ht & Ho & _).
  { reflexivity. }
  { exact H0. }
  { intros _. vm_compute. congruence. }
  { repeat constructor. }
  exists s'. repeat split; assumption.
Defined.

Lemma Vector_copy_all_or_nothing_witness :
  match Vector_copy 2%nat 0%nat st_two with
  | Ret _ s' => holds s' 2%nat [1; 2] 2
  | Throw _ _ => False
  | UB => False
  end.
Proof.
  assert (H0 : holds st_two 0%nat [1; 2] 2) by concrete_holds.
  pose proof (Vector_copy_all_or_nothing st_two 2%nat 0%nat [1; 2] 2 eq_refl H0) as Hm.
  destruct (Vector_copy 2%nat 0%nat st_two) as [u s'|e s'|].
  - destruct Hm as (_ & _ & Hh). exact Hh.
  - destruct Hm as (_ & _ & _ & [(_ & Ho & _)|(_ & _ & b & ys1 & y & ys2 & Heq & _ & Hy & _)]).
    + vm_compute in Ho. congruence.
    + vm_compute in Hy. congruence.
  - exact Hm.
Defined.

Lemma Vector_delete_destroys_all_witness :
  ∃ s', Vector_delete 0%nat st123 = Ret tt s'
      ∧ vecs s' = delete 0%nat (vecs st123)
      ∧ heap s' = delete 2%nat (heap st123)
      ∧ log s' = log st123 ++ [EvDtor 1; EvDtor 2; EvDtor 3; EvFree 2%nat].
Proof.
  assert (Hh : holds st123 0%nat [1; 2; 3] 4) by concrete_holds.
  destruct (Vector_delete_destroys_all st123 0%nat [1; 2; 3] 4 (Some 2%nat) Hh)
    as (s' & Hrun & Hv & Hheap & Hlog & _).
  { reflexivity. }
  exists s'. repeat split; assumption.
Defined.

Lemma Vector_copy_then_delete_restores_witness :
  ∃ s', (Vector_copy 2%nat 0%nat ;;; Vector_delete 2%nat) st_two = Ret tt s'
      ∧ heap s' = heap st_two ∧ vecs s' = vecs st_two.
Proof.
  assert (H0 : holds st_two 0%nat [1; 2] 2) by concrete_holds.
  destruct (Vector_copy_then_delete_restores st_two 2%nat 0%nat [1; 2] 2)
    as (s' & Hrun & Hheap & Hv & _).
  { reflexivity. }
  { exact H0. }
  { intros _. vm_compute. congruence. }
  { repeat constructor. }
  exists s'. repeat split; assumption.
Defined.

Lemma Vector_move_then_delete_once_witness :
  ∃ s1, Vector_delete 0%nat st123 = Ret tt s1
      ∧ (Vector_move 1%nat 0%nat ;;; Vector_delete 0%nat ;;; Vector_delete 1%nat) st123
        = Ret tt s1.
Proof.
  assert (Hh : holds st123 0%nat [1; 2; 3] 4) by concrete_holds.
  exact (Vector_move_then_delete_once st123 1%nat 0%nat [1; 2; 3] 4 Hh eq_refl).
Defined.

Lemma Vector_index_checks_bounds_witness :
  (∃ x p, [1; 2; 3] !! 1%nat = Some x ∧ Vector_index 0%nat 1 st123 = Ret p st123
          ∧ read p st123 = Ret x st123)
  ∧ Vector_index 0%nat 3 st123 = UB.
Proof.
  assert (Hh : holds st123 0%nat [1; 2; 3] 4) by concrete_holds.
  split.
  - destruct (Vector_index_checks_bounds st123 0%nat [1; 2; 3] 4 1 Hh) as (x & p & Hx & Hi & Hr & _).
    { lia. }
    exists x, p. repeat split; assumption.
  - apply (Vector_index_checks_bounds st123 0%nat [1; 2; 3] 4 3 Hh). lia.
Defined.

Lemma iterators_span_the_elements_witness :
  ∃ bo, begin 0%nat st123 = Ret (bo, 0) st123
      ∧ end_ 0%nat st123 = Ret (bo, 3) st123
      ∧ read (bo, 3) st123 = UB.
Proof.
  assert (Hh : holds st123 0%nat [1; 2; 3] 4) by concrete_holds.
  destruct (iterators_span_the_elements st123 0%nat [1; 2; 3] 4 Hh)
    as (bo & Hb & _ & He & _ & _ & _ & Hend).
  exists bo. repeat split; assumption.
Defined.

Lemma Reserve_keeps_elements_witness :
  ∃ s', Reserve 0%nat 10 st123 = Ret tt s' ∧ holds s' 0%nat [1; 2; 3] 10.
Proof.
  assert (Hh : holds st123 0%nat [1; 2; 3] 4) by concrete_holds.
  destruct (Reserve_keeps_elements st123 0%nat [1; 2; 3] 4 10 Hh) as (s' & Hrun & Hh' & _).
  { intros _. split; [split; [vm_compute; congruence | reflexivity] | repeat constructor]. }
  exists s'. split; assumption.
Defined.


Lemma PopBack_removes_last_witness :
  ∃ s', PopBack 0%nat st123 = Ret tt s' ∧ holds s' 0%nat [1; 2] 4
      ∧ log s' = log st123 ++ [EvDtor 3].
Proof.
  assert (Hh : holds st123 0%nat [1; 2; 3] 4) by concrete_holds.
  destruct (PopBack_removes_last st123 0%nat [1; 2; 3] 4 Hh)
    as (s' & Hrun & Hh' & _ & _ & _ & _ & Hlog & _).
  exists s'. repeat split; assumption.
Defined.

Lemma PushBack_then_PopBack_restores_witness :
  ∃ s', (PushBack 0%nat 4 ;;; PopBack 0%nat) st123 = Ret tt s' ∧ holds s' 0%nat [1; 2; 3] 4.
Proof.
  assert (Hh : holds st123 0%nat [1; 2; 3] 4) by concrete_holds.
  destruct (PushBack_then_PopBack_restores st123 0%nat [1; 2; 3] 4 4 Hh)
    as (s' & cap' & Hrun & Hh' & _ & _ & _ & Hcap).
  { reflexivity. }
  { intros Hfull. vm_compute in Hfull. congruence. }
  exists s'. split; [exact Hrun|]. rewrite Hcap in Hh'. exact Hh'.
Defined.

Lemma EmplaceBack_returns_last_witness :
  ∃ s' p, EmplaceBack 0%nat CopyCtor 4 st123 = Ret p s' ∧ read p s' = Ret 4 s'
        ∧ Vector_index 0%nat 3 s' = Ret p s'.
Proof.
  assert (Hh : holds st123 0%nat [1; 2; 3] 4) by concrete_holds.
  destruct (EmplaceBack_returns_last st123 0%nat [1; 2; 3] 4 CopyCtor 4 Hh)
    as (s' & p & Hrun & _ & _ & Hr & Hi & _).
  { reflexivity. }
  { intros Hfull. vm_compute in Hfull. congruence. }
  exists s', p. repeat split; assumption.
Defined.

Lemma Emplace_at_end_is_EmplaceBack_witness :
  ∃ e p s', end_ 0%nat st123 = Ret e st123
          ∧ Emplace 0%nat e CopyCtor 4 st123 = Ret p s'
          ∧ EmplaceBack 0%nat CopyCtor 4 st123 = Ret p s'.
Proof.
  assert (Hh : holds st123 0%nat [1; 2; 3] 4) by concrete_holds.
  apply (Emplace_at_end_is_EmplaceBack st123 0%nat [1; 2; 3] 4 CopyCtor 4 Hh).
  - reflexivity.
  - intros Hfull. vm_compute in Hfull. congruence.
Defined.

Lemma Erase_last_is_PopBack_witness :
  ∃ e p s', end_ 0%nat st123 = Ret e st123
          ∧ Erase 0%nat (ptr_add e (-1)) st123 = Ret p s'
          ∧ PopBack 0%nat st123 = Ret tt s'
          ∧ end_ 0%nat s' = Ret p s'.
Proof.
  assert (Hh : holds st123 0%nat ([1; 2] ++ [3]) 4) by concrete_holds.
  exact (Erase_last_is_PopBack st123 0%nat [1; 2] 3 4 Hh).
Defined.

Lemma Erase_at_end_is_undefined_witness :
  ∃ e, end_ 0%nat st123 = Ret e st123 ∧ Erase 0%nat e st123 = UB.
Proof.
  assert (Hh : holds st123 0%nat [1; 2; 3] 4) by concrete_holds.
  exact (Erase_at_end_is_undefined st123 0%nat [1; 2; 3] 4 Hh).
Defined.

Lemma Erase_shifts_left_witness :
  ∃ p s', Erase 0%nat p st123 = Ret p s' ∧ holds s' 0%nat [1; 3] 4
        ∧ read p s' = Ret 3 s'
        ∧ log s' = log st123 ++ [EvOp MoveAssign 3; EvDtor 3].
Proof.
  assert (Hh : holds st123 0%nat ([1] ++ 2 :: [3]) 4) by concrete_holds.
  destruct (Erase_shifts_left st123 0%nat [1] 2 [3] 4 Hh)
    as (b & p & s' & _ & _ & Hrun & Hh' & _ & _ & _ & _ & Hlog & Hr & _).
  { repeat constructor. }
  exists p, s'. repeat split; assumption.
Defined.

Lemma Emplace_inserts_before_pos_witness :
  ∃ b p s', begin 0%nat st123 = Ret b st123
          ∧ Emplace 0%nat (ptr_add b 1) MoveCtor 9 st123 = Ret p s'
          ∧ holds s' 0%nat [1; 9; 2; 3] 4
          ∧ read p s' = Ret 9 s'.
Proof.
  assert (Hh : holds st123 0%nat ([1] ++ [2; 3]) 4) by concrete_holds.
  destruct (Emplace_inserts_before_pos st123 0%nat [1] [2; 3] 4 MoveCtor 9 Hh)
    as (b & p & s' & Hb & Hrun & Hh' & _ & _ & _ & Hr & _).
  { reflexivity. }
  { intros Hfull. vm_compute in Hfull. congruence. }
  { intros _ _. split; repeat constructor. }
  exists b, p, s'. repeat split; assumption.
Defined.

Lemma Resize_down_truncates_witness :
  ∃ s', Resize 0%nat 1 st123 = Ret tt s' ∧ holds s' 0%nat [1] 4
      ∧ log s' = log st123 ++ [EvDtor 2; EvDtor 3].
Proof.
  assert (Hh : holds st123 0%nat [1; 2; 3] 4) by concrete_holds.
  destruct (Resize_down_truncates st123 0%nat [1; 2; 3] 4 1 Hh)
    as (s' & Hrun & Hh' & _ & _ & _ & _ & _ & Hlog & _).
  { simpl. lia. }
  exists s'. repeat split; assumption.
Defined.

Lemma Resize_empty_value_initializes_witness :
  ∃ s', Resize 0%nat 2 st_empty = Ret tt s' ∧ holds s' 0%nat [0; 0] 2.
Proof.
  assert (Hh : holds st_empty 0%nat [] 0) by concrete_holds.
  destruct (Resize_empty_value_initializes st_empty 0%nat 0 2 Hh) as (s' & Hrun & Hh' & _).
  { lia. }
  { reflexivity. }
  { intros _. split; [vm_compute; congruence | reflexivity]. }
  { reflexivity. }
  exists s'. split; assumption.
Defined.

Lemma Resize_grow_constructs_at_front_witness :
  ∃ s' b, Resize 0%nat 5 st123 = Ret tt s'
        ∧ Size 0%nat s' = Ret 5 s'
        ∧ read (Some b, 0) s' = Ret 0 s'
        ∧ read (Some b, 4) s' = UB
        ∧ contents s' 0%nat = None.
Proof.
  assert (Hh : holds st123 0%nat [1; 2; 3] 4) by concrete_holds.
  destruct (Resize_grow_constructs_at_front st123 0%nat [1; 2; 3] 4 5 Hh)
    as (s' & b & Hrun & Hsz & _ & _ & _ & Hr0 & Hr4 & Hc & _).
  { discriminate. }
  { simpl. lia. }
  { reflexivity. }
  { intros _. split; [split; [vm_compute; congruence | reflexivity] | repeat constructor]. }
  { reflexivity. }
  exists s', b. repeat split; assumption.
Defined.

Lemma Reserve_then_PushBack_keeps_block_witness :
  ∃ s1 s2, Reserve 0%nat 10 st123 = Ret tt s1 ∧ PushBack 0%nat 4 s1 = Ret tt s2
         ∧ holds s2 0%nat [1; 2; 3; 4] 10
         ∧ data_ <$> vecs s2 !! 0%nat = data_ <$> vecs s1 !! 0%nat.
Proof.
  assert (Hh : holds st123 0%nat [1; 2; 3] 4) by concrete_holds.
  destruct (Reserve_then_PushBack_keeps_block st123 0%nat [1; 2; 3] 4 10 4 Hh)
    as (s1 & s2 & Hres & Hpush & Hh2 & Hdata & _).
  { simpl. lia. }
  { intros _. split; [split; [vm_compute; congruence | reflexivity] | repeat constructor]. }
  { reflexivity. }
  exists s1, s2. repeat split; assumption.
Defined.

Lemma Swap_is_an_involution_witness :
  (Swap 0%nat 1%nat ;;; Swap 0%nat 1%nat) st_two = Ret tt st_two
  ∧ Swap 0%nat 1%nat st_two = Swap 1%nat 0%nat st_two.
Proof.
  apply (Swap_is_an_involution st_two 0%nat 1%nat); eexists; reflexivity.
Defined.

Lemma PushBack_strong_guarantee_witness :
  match PushBack 0%nat 4 st123 with
  | Ret _ s' => holds s' 0%nat [1; 2; 3; 4] 4
  | Throw _ _ => False
  | UB => False
  end.
Proof.
  assert (Hh : holds st123 0%nat [1; 2; 3] 4) by concrete_holds.
  pose proof (PushBack_strong_guarantee st123 0%nat [1; 2; 3] 4 4 Hh) as Hm.
  assert (Hm' := Hm ltac:(intros Hfull; vm_compute in Hfull; congruence)
                    ltac:(intros _; repeat constructor)). clear Hm.
  destruct (PushBack 0%nat 4 st123) as [u s'|e s'|].
  - destruct Hm' as (Hh' & _). exact Hh'.
  - destruct Hm' as (_ & _ & _ & [(_ & Hfull & _)|(_ & [Hx|(Hrel & _)])]).
    + vm_compute in Hfull. congruence.
    + vm_compute in Hx. congruence.
    + vm_compute in Hrel. congruence.
  - exact Hm'.
Defined.

Lemma PushBack_relocation_failure_leaks_witness :
  ∃ nb s',
    @PushBack Z fragile_element 0%nat 5 st_fragile = Throw (elem_exn CopyCtor) s'
    ∧ heap s' = heap st_fragile ∧ vecs s' = vecs st_fragile
    ∧ log s' = log st_fragile ++ [EvAlloc nb 2; EvOp CopyCtor 5; EvFree nb].
Proof.
  assert (Hh : @holds Z fragile_element st_fragile 0%nat ([] ++ 13 :: []) 1) by concrete_holds.
  destruct (@PushBack_relocation_failure_leaks Z fragile_element st_fragile 0%nat [] 13 [] 5 Hh)
    as (nb & s' & Hrun & Hheap & Hv & _ & Hlog).
  { reflexivity. }
  { split; [vm_compute; congruence | reflexivity]. }
  { reflexivity. }
  { constructor. }
  { reflexivity. }
  exists nb, s'. repeat split; assumption.
Defined.

Lemma Vector_sized_overflow_is_undefined_witness :
  Vector_sized 0%nat (2 ^ 62) s0 = UB.
Proof.
  apply (Vector_sized_overflow_is_undefined s0 0%nat (2 ^ 62)).
  - split; [lia | reflexivity].
  - vm_compute. congruence.
  - vm_compute. congruence.
  - reflexivity.
Defined.

Lemma calls_refine_list_model_witness :
  ∃ s', run_calls 0%nat
          [CallPushBack 1; CallPushBack 2; CallInsert 1 9; CallErase 0; CallReserve 10;
           CallPopBack; CallResize 1]
          st_empty
        = Ret tt s'
      ∧ holds s' 0%nat [9] 10.
Proof.
  destruct (calls_refine_list_model 0%nat
              [CallPushBack 1; CallPushBack 2; CallInsert 1 9; CallErase 0; CallReserve 10;
               CallPopBack; CallResize 1]
              st_empty
              [] 0 [9] 10)
    as (s' & Hrun & Hh' & _).
  { reflexivity. }
  { concrete_holds. }
  { constructor. }
  { vm_compute. reflexivity. }
  exists s'. split; assumption.
Defined.
